(** * A prefix tree over a caller-defined alphabet (trie.h)

    The container [Trie<Alphabet, Value>] keeps one [Node] per prefix.  A node
    owns its children through [std::unique_ptr] and refers back to its parent
    through a raw pointer.

    Embedding.  Ownership is containment: a [Node] value holds the nodes its
    [children_] slots own.  Every node also records the address it lives at,
    and a raw [Node*] is such an address (or null).  Code that goes through a
    raw pointer ([node->...]) is modelled by looking the address up in the
    trie ([deref]) and writing back at that address ([modify]); an address
    that names no node of the trie cannot be followed.  Methods run in a
    small state monad over the trie and the allocator, with an outcome for
    C++ exceptions and one for undefined behaviour. *)

From Stdlib Require Import ZArith Ascii String Lia Bool.
From stdpp Require Import base option list.

Set Default Proof Using "Type".

(** ** The alphabet policy *)

(** [Alphabet::size] and [Alphabet::ord]; [ord] answers [-1] for a symbol that
    is no member. *)
Class Alphabet := {
  Alphabet_size : nat;
  Alphabet_ord : ascii -> Z
}.

(** The contract the container expects of the policy: a member's index is a
    slot of the children array. *)
Class AlphabetRange `{Alphabet} :=
  ord_range : forall c, Alphabet_ord c = (-1)%Z \/ (0 <= Alphabet_ord c < Z.of_nat Alphabet_size)%Z.

(** Distinct members have distinct slots. *)
Class AlphabetInjective `{Alphabet} :=
  ord_inj : forall c c', Alphabet_ord c <> (-1)%Z -> Alphabet_ord c = Alphabet_ord c' -> c = c'.

(** [Value{}] *)
Class DefaultConstructible (Value : Type) := Value_default : Value.

(** Addresses of node objects. *)
Definition addr := nat.

Section Trie.

Context {Value : Type} `{Alphabet}.

(** ** Node *)

#[local] Unset Elimination Schemes.
Inductive Node : Type := mkNode {
  this_ : addr;                       (* where the object lives *)
  children_ : list (option Node);     (* std::array<std::unique_ptr<Node>, size> *)
  parent_ : option addr;              (* Node*, None is nullptr *)
  value_ : option Value;              (* std::unique_ptr<Value> *)
  key_ : ascii
}.
#[local] Set Elimination Schemes.

Definition with_children (n : Node) (cs : list (option Node)) : Node :=
  mkNode (this_ n) cs (parent_ n) (value_ n) (key_ n).

Definition with_value (n : Node) (v : option Value) : Node :=
  mkNode (this_ n) (children_ n) (parent_ n) v (key_ n).

(** [Node(Node* parent)]: no child, no value, [key_] value-initialised. *)
Definition Node_new (a : addr) (parent : option addr) : Node :=
  mkNode a (replicate Alphabet_size None) parent None zero.

Definition with_key (n : Node) (c : ascii) : Node :=
  mkNode (this_ n) (children_ n) (parent_ n) (value_ n) c.

Definition value (n : Node) : option Value := value_ n.

Definition setValue (v : Value) (n : Node) : Node := with_value n (Some v).

Definition removeValue (n : Node) : Node := with_value n None.

Definition hasValue (n : Node) : bool :=
  match value_ n with Some _ => true | None => false end.

Fixpoint any_child (cs : list (option Node)) : bool :=
  match cs with
  | [] => false
  | Some _ :: _ => true
  | None :: cs' => any_child cs'
  end.

Definition hasChildren (n : Node) : bool := any_child (children_ n).

Definition hasParent (n : Node) : bool :=
  match parent_ n with Some _ => true | None => false end.

(** The scan of [child]: the first occupied slot whose node carries the
    letter. *)
Fixpoint scan_key (letter : ascii) (cs : list (option Node)) : option Node :=
  match cs with
  | [] => None
  | Some c :: cs' => if Ascii.eqb (key_ c) letter then Some c else scan_key letter cs'
  | None :: cs' => scan_key letter cs'
  end.

(** The scan of [removeChild]: the first slot that holds the pointer is
    emptied; the flag tells whether one was found. *)
Fixpoint release (ptr : addr) (cs : list (option Node)) : list (option Node) * bool :=
  match cs with
  | [] => ([], false)
  | Some c :: cs' =>
      if Nat.eqb (this_ c) ptr then (None :: cs', true)
      else let '(r, b) := release ptr cs' in (Some c :: r, b)
  | None :: cs' => let '(r, b) := release ptr cs' in (None :: r, b)
  end.

Definition removeChild (ptr : addr) (n : Node) : Node * bool :=
  let '(cs, b) := release ptr (children_ n) in (with_children n cs, b).

Definition removeChildren (n : Node) : Node :=
  with_children n (map (fun _ => None) (children_ n)).

(** ** Memory: the trie and the allocator *)

Record Mem : Type := mkMem {
  root_ : Node;      (* Trie::root_ *)
  brk : addr         (* the next address the allocator hands out *)
}.

(** Following a raw pointer: the node of the trie that lives at [p]. *)
Fixpoint deref (p : addr) (n : Node) : option Node :=
  if Nat.eqb (this_ n) p then Some n
  else (fix scan (cs : list (option Node)) : option Node :=
          match cs with
          | [] => None
          | Some c :: cs' =>
              match deref p c with Some x => Some x | None => scan cs' end
          | None :: cs' => scan cs'
          end) (children_ n).

(** Writing through a raw pointer: the node at [p] becomes [f] of itself. *)
Fixpoint modify (p : addr) (f : Node -> Node) (n : Node) : Node :=
  if Nat.eqb (this_ n) p then f n
  else with_children n (map (option_map (modify p f)) (children_ n)).

Inductive exn : Type := out_of_range (what : string).

Inductive undefined : Type :=
  | dangling_pointer      (* a Node* that names no node of the trie *)
  | null_pointer          (* member access through nullptr *)
  | index_out_of_bounds   (* children_[i] with i outside the array *)
  | pop_back_empty        (* std::string::pop_back on an empty string *)
  | empty_vector.         (* std::vector::front or back on an empty vector *)

Inductive outcome (A : Type) : Type :=
  | Ok (a : A) (m : Mem)
  | Throw (e : exn) (m : Mem)
  | Undefined (u : undefined).
Arguments Ok {A} a m.
Arguments Throw {A} e m.
Arguments Undefined {A} u.

Definition M (A : Type) : Type := Mem -> outcome A.

Definition ret {A} (a : A) : M A := fun m => Ok a m.

Definition bind {A B} (c : M A) (k : A -> M B) : M B :=
  fun m => match c m with
           | Ok a m' => k a m'
           | Throw e m' => Throw e m'
           | Undefined u => Undefined u
           end.

Definition throw {A} (e : exn) : M A := fun m => Throw e m.

Definition undef {A} (u : undefined) : M A := fun _ => Undefined u.

Notation "x <- c ;; k" := (bind c (fun x => k))
  (at level 100, c at next level, right associativity).
Notation "c ;;; k" := (bind c (fun _ => k))
  (at level 100, right associativity).

(** [&root_] *)
Definition root_addr : M addr := fun m => Ok (this_ (root_ m)) m.

(** [*p] for reading. *)
Definition load (p : addr) : M Node :=
  fun m => match deref p (root_ m) with
           | Some n => Ok n m
           | None => Undefined dangling_pointer
           end.

(** [*p] for writing. *)
Definition update (p : addr) (f : Node -> Node) : M unit :=
  fun m => match deref p (root_ m) with
           | Some _ => Ok tt (mkMem (modify p f (root_ m)) (brk m))
           | None => Undefined dangling_pointer
           end.

(** [std::make_unique<Node>(...)]: a fresh address. *)
Definition alloc : M addr := fun m => Ok (brk m) (mkMem (root_ m) (S (brk m))).

(** ** Node methods reached through a pointer *)

(** [Node::child]: throws for a letter outside the alphabet, else the pointer
    to the child that carries the letter, or null. *)
Definition child (node : addr) (letter : ascii) : M (option addr) :=
  if Z.eqb (Alphabet_ord letter) (-1) then
    throw (out_of_range "Letter is not member of alphabet")
  else
    n <- load node ;;
    ret (this_ <$> scan_key letter (children_ n)).

(** [Node::createChild]: the new node takes the slot [ord key]; what the slot
    owned before is destroyed with the assignment. *)
Definition createChild (node : addr) (key : ascii) : M addr :=
  a <- alloc ;;
  let ptrChild := with_key (Node_new a (Some node)) key in
  n <- load node ;;
  if (Z.leb 0 (Alphabet_ord key) && Z.ltb (Alphabet_ord key) (Z.of_nat Alphabet_size))%bool then
    update node (fun n => with_children n (<[Z.to_nat (Alphabet_ord key) := Some ptrChild]> (children_ n))) ;;;
    ret a
  else undef index_out_of_bounds.

(** [Node::getPath]: the receiver, then every node reached; a null marker
    closes the path when a child is missing. *)
Fixpoint getPath_from (node : addr) (key : string) : M (list (option addr)) :=
  match key with
  | EmptyString => ret []
  | String c key' =>
      next <- child node c ;;
      match next with
      | None => ret [None]
      | Some p => rest <- getPath_from p key' ;; ret (Some p :: rest)
      end
  end.

Definition getPath (node : addr) (key : string) : M (list (option addr)) :=
  rest <- getPath_from node key ;;
  ret (Some node :: rest).

(** ** Trie *)

Definition isInAlphabet (letter : ascii) : bool :=
  negb (Z.eqb (Alphabet_ord letter) (-1)).

Fixpoint isKeyCorrect (key : string) : bool :=
  match key with
  | EmptyString => true
  | String letter key' => if isInAlphabet letter then isKeyCorrect key' else false
  end.

(** [Trie()] placed at address [a]. *)
Definition Trie_new (a : addr) : Mem := mkMem (Node_new a None) (S a).

Definition empty : M bool :=
  r <- root_addr ;;
  n <- load r ;;
  ret (negb (hasValue n || hasChildren n)).

(** [path.back()] *)
Definition back {A} (path : list A) : M A :=
  match last path with
  | Some x => ret x
  | None => undef empty_vector
  end.

(** [path.front()] *)
Definition front {A} (path : list A) : M A :=
  match path with
  | x :: _ => ret x
  | [] => undef empty_vector
  end.

Definition search (key : string) : M (option Value) :=
  if isKeyCorrect key then
    r <- root_addr ;;
    path <- getPath r key ;;
    b <- back path ;;
    match b with
    | Some p => n <- load p ;; ret (value n)
    | None => ret None
    end
  else throw (out_of_range "Incorrect key").

Definition at_ (key : string) : M Value :=
  if isKeyCorrect key then
    r <- root_addr ;;
    path <- getPath r key ;;
    b <- back path ;;
    match b with
    | None => throw (out_of_range "Key not found!")
    | Some p =>
        n <- load p ;;
        match value n with
        | None => throw (out_of_range "Key not found!")
        | Some v => ret v
        end
    end
  else throw (out_of_range "Incorrect key").

(** The pruning loop of [remove], over the reversed path. *)
Fixpoint remove_loop (path : list (option addr)) : M unit :=
  match path with
  | [] => ret tt
  | None :: _ => undef null_pointer
  | Some node :: path' =>
      n <- load node ;;
      if (hasValue n || hasChildren n || negb (hasParent n))%bool then ret tt
      else
        match parent_ n with
        | None => undef null_pointer
        | Some p =>
            update p (fun pn => fst (removeChild node pn)) ;;;
            remove_loop path'
        end
  end.

Definition remove (key : string) : M unit :=
  if isKeyCorrect key then
    r <- root_addr ;;
    path <- getPath r key ;;
    let path := rev path in
    f <- front path ;;
    match f with
    | None => ret tt
    | Some removeNode =>
        update removeNode removeValue ;;;
        remove_loop path
    end
  else throw (out_of_range "Incorrect key").

(** The walk of [insert]: a child is created where the next letter has
    none. *)
Fixpoint insert_walk (node : addr) (key : string) : M addr :=
  match key with
  | EmptyString => ret node
  | String c key' =>
      tmpNode <- child node c ;;
      match tmpNode with
      | None => node' <- createChild node c ;; insert_walk node' key'
      | Some node' => insert_walk node' key'
      end
  end.

Definition insert (key : string) (v : Value) : M bool :=
  if isKeyCorrect key then
    r <- root_addr ;;
    node <- insert_walk r key ;;
    n <- load node ;;
    if hasValue n then ret false
    else update node (setValue v) ;;; ret true
  else throw (out_of_range "Incorrect key").

Definition clear : M unit :=
  r <- root_addr ;;
  update r removeChildren ;;;
  update r removeValue.

(** [operator[]] *)
Definition subscript `{DefaultConstructible Value} (key : string) : M Value :=
  if isKeyCorrect key then
    found <- search key ;;
    match found with
    | None => insert key Value_default ;;; at_ key
    | Some v => ret v
    end
  else throw (out_of_range "Incorrect key").

(** *** Enumeration *)

(** [std::string::pop_back]; the standard gives no meaning to it on an empty
    string. *)
Fixpoint pop_back (s : string) : option string :=
  match s with
  | EmptyString => None
  | String c EmptyString => Some EmptyString
  | String c s' => String c <$> pop_back s'
  end.

Definition ItemList : Type := list (string * Value).

(** [getItems]: the node's letter is appended when the node has a parent; the
    last letter of the accumulator is dropped at the end of every call. *)
Fixpoint getItems (node : Node) (acc : ItemList * string) : M (ItemList * string) :=
  let key := if hasParent node then String.append (snd acc) (String (key_ node) EmptyString)
             else snd acc in
  let items := match value node with
               | Some v => fst acc ++ [(key, v)]
               | None => fst acc
               end in
  acc' <- (fix each (cs : list (option Node)) (acc : ItemList * string) : M (ItemList * string) :=
             match cs with
             | [] => ret acc
             | None :: cs' => each cs' acc
             | Some c :: cs' => acc' <- getItems c acc ;; each cs' acc'
             end) (children_ node) (items, key) ;;
  match pop_back (snd acc') with
  | Some key' => ret (fst acc', key')
  | None => undef pop_back_empty
  end.

Definition items : M ItemList :=
  fun m => (acc <- getItems (root_ m) ([], EmptyString) ;; ret (fst acc)) m.

(** *** Copying *)

(** [copyTrieRec]: [thisNode] is reached through a reference into this trie,
    [otherNode] is read from the other one. *)
Fixpoint copyTrieRec (thisNode : addr) (otherNode : Node) : M unit :=
  n <- load thisNode ;;
  (if (negb (hasValue n) && hasValue otherNode)%bool then
     match value otherNode with
     | Some v => update thisNode (setValue v)
     | None => undef null_pointer
     end
   else ret tt) ;;;
  (fix each (cs : list (option Node)) : M unit :=
     match cs with
     | [] => ret tt
     | None :: cs' => each cs'
     | Some c :: cs' =>
         thisChild <- createChild thisNode (key_ c) ;;
         copyTrieRec thisChild c ;;;
         each cs'
     end) (children_ otherNode).

Definition copyTrie (otherTrie : Node) : M unit :=
  r <- root_addr ;;
  if Nat.eqb r (this_ otherTrie) then ret tt else copyTrieRec r otherTrie.

(** [Trie(const Trie& otherTrie)] for an object placed at [a]; the allocator
    goes on from [from]. *)
Definition Trie_copy (a : addr) (from : addr) (otherTrie : Node) : outcome unit :=
  copyTrie otherTrie (mkMem (Node_new a None) from).

(** [std::swap] on two [Node] objects: the members change places, the objects
    stay where they are. *)
Definition swap (x y : Node) : Node * Node :=
  (mkNode (this_ x) (children_ y) (parent_ y) (value_ y) (key_ y),
   mkNode (this_ y) (children_ x) (parent_ x) (value_ x) (key_ x)).

(** [operator=(Trie otherTrie)]: the by-value parameter is copy-constructed
    from the argument at [param], the two roots are swapped, and the
    parameter, now owning the old tree, is destroyed on return. *)
Definition assign (param : addr) (arg : Node) : M unit :=
  fun m =>
    match Trie_copy param (brk m) arg with
    | Ok _ otherTrie =>
        Ok tt (mkMem (fst (swap (root_ m) (root_ otherTrie))) (brk otherTrie))
    | Throw e _ => Throw e m
    | Undefined u => Undefined u
    end.

(** ** The trie read structurally

    The functions below walk the ownership tree directly, without addresses.
    They say what a state holds, and what the pointer code computes on a
    well-formed trie. *)

(** The slot of a letter in the children array. *)
Definition slot (c : ascii) : nat := Z.to_nat (Alphabet_ord c).

(** All addresses of a subtree, the node first. *)
Fixpoint addrs (n : Node) : list addr :=
  this_ n :: (fix each (cs : list (option Node)) : list addr :=
                match cs with
                | [] => []
                | Some c :: cs' => addrs c ++ each cs'
                | None :: cs' => each cs'
                end) (children_ n).

Fixpoint caddrs (cs : list (option Node)) : list addr :=
  match cs with
  | [] => []
  | Some c :: cs' => addrs c ++ caddrs cs'
  | None :: cs' => caddrs cs'
  end.

(** [deref] over a children array. *)
Fixpoint deref_in (p : addr) (cs : list (option Node)) : option Node :=
  match cs with
  | [] => None
  | Some c :: cs' => match deref p c with Some x => Some x | None => deref_in p cs' end
  | None :: cs' => deref_in p cs'
  end.

(** [getItems] over a children array. *)
Fixpoint getItems_in (cs : list (option Node)) (acc : ItemList * string) : M (ItemList * string) :=
  match cs with
  | [] => ret acc
  | None :: cs' => getItems_in cs' acc
  | Some c :: cs' => acc' <- getItems c acc ;; getItems_in cs' acc'
  end.

(** The node a key leads to, if every letter has a child. *)
Fixpoint descend (n : Node) (key : string) : option Node :=
  match key with
  | EmptyString => Some n
  | String c key' =>
      match scan_key c (children_ n) with
      | Some x => descend x key'
      | None => None
      end
  end.

(** The value a key maps to. *)
Definition lookup (n : Node) (key : string) : option Value :=
  match descend n key with
  | Some x => value_ x
  | None => None
  end.

(** The nodes a key visits below [n]; a missing child closes the walk. *)
Fixpoint walk (n : Node) (key : string) : list (option Node) :=
  match key with
  | EmptyString => []
  | String c key' =>
      match scan_key c (children_ n) with
      | Some x => Some x :: walk x key'
      | None => [None]
      end
  end.

(** Insertion below [n], with [b] the next fresh address: the new subtree,
    whether a value was installed, and the next fresh address afterwards. *)
Fixpoint insert_at (n : Node) (key : string) (v : Value) (b : addr) : Node * bool * addr :=
  match key with
  | EmptyString => if hasValue n then (n, false, b) else (setValue v n, true, b)
  | String c key' =>
      let '(x, b1) := match scan_key c (children_ n) with
                      | Some x => (x, b)
                      | None => (with_key (Node_new b (Some (this_ n))) c, S b)
                      end in
      let '(x', r, b') := insert_at x key' v b1 in
      (with_children n (<[slot c := Some x']> (children_ n)), r, b')
  end.

(** Removal as the specification words it: clear the value of the key's
    node, then on the way back to the root detach every node that is left
    with neither a value nor a child; a node that keeps a value or a child
    stays, and so does everything above it.  [None] when the key has no
    node. *)
Fixpoint remove_spec (n : Node) (key : string) : option Node :=
  match key with
  | EmptyString => Some (removeValue n)
  | String c key' =>
      match scan_key c (children_ n) with
      | None => None
      | Some x =>
          match remove_spec x key' with
          | None => None
          | Some x' =>
              if (hasValue x' || hasChildren x')%bool
              then Some (with_children n (<[slot c := Some x']> (children_ n)))
              else Some (with_children n (<[slot c := None]> (children_ n)))
          end
      end
  end.

(** How many letters of a key already have their node below [n]. *)
Fixpoint matched (n : Node) (key : string) : nat :=
  match key with
  | EmptyString => 0
  | String c key' =>
      match scan_key c (children_ n) with
      | Some x => S (matched x key')
      | None => 0
      end
  end.

(** The entries below [n], whose own key is [key]: the node's value if it
    has one, then the entries of its children in slot order, each child
    under [key] extended by its letter. *)
Fixpoint entries (n : Node) (key : string) : ItemList :=
  match value_ n with Some v => [(key, v)] | None => [] end ++
  (fix each (cs : list (option Node)) : ItemList :=
     match cs with
     | [] => []
     | None :: cs' => each cs'
     | Some c :: cs' =>
         entries c (String.append key (String (key_ c) EmptyString)) ++ each cs'
     end) (children_ n).

Fixpoint entries_in (cs : list (option Node)) (key : string) : ItemList :=
  match cs with
  | [] => []
  | None :: cs' => entries_in cs' key
  | Some c :: cs' =>
      entries c (String.append key (String (key_ c) EmptyString)) ++ entries_in cs' key
  end.

(** [copyTrieRec] over a children array of the other trie. *)
Fixpoint copyTrieRec_in (thisNode : addr) (cs : list (option Node)) : M unit :=
  match cs with
  | [] => ret tt
  | None :: cs' => copyTrieRec_in thisNode cs'
  | Some c :: cs' =>
      thisChild <- createChild thisNode (key_ c) ;;
      copyTrieRec thisChild c ;;;
      copyTrieRec_in thisNode cs'
  end.

(** The copy of [o] built into the node [n], with [b] the next fresh
    address: [n] takes the value of [o] if it has none, and for every child
    of [o], in slot order, a new node with the child's letter is put into
    the slot of that letter and the child is copied into it. *)
Fixpoint copy_into (o : Node) (n : Node) (b : addr) : Node * addr :=
  (fix each (cs : list (option Node)) (n : Node) (b : addr) : Node * addr :=
     match cs with
     | [] => (n, b)
     | None :: cs' => each cs' n b
     | Some c :: cs' =>
         let '(x', b') := copy_into c (with_key (Node_new b (Some (this_ n))) (key_ c)) (S b) in
         each cs' (with_children n (<[slot (key_ c) := Some x']> (children_ n))) b'
     end) (children_ o)
    (if (negb (hasValue n) && hasValue o)%bool then with_value n (value_ o) else n) b.

Fixpoint copy_children (cs : list (option Node)) (n : Node) (b : addr) : Node * addr :=
  match cs with
  | [] => (n, b)
  | None :: cs' => copy_children cs' n b
  | Some c :: cs' =>
      let '(x', b') := copy_into c (with_key (Node_new b (Some (this_ n))) (key_ c)) (S b) in
      copy_children cs' (with_children n (<[slot (key_ c) := Some x']> (children_ n))) b'
  end.

(** *** Invariants of a trie state *)

(** Parent pointers name the owner, the array has [Alphabet::size] slots, and
    a child sits in the slot of its letter. *)
Inductive wf_node : option addr -> Node -> Prop :=
  | wf_node_intro par n :
      parent_ n = par ->
      length (children_ n) = Alphabet_size ->
      (forall i c, children_ n !! i = Some (Some c) -> Alphabet_ord (key_ c) = Z.of_nat i) ->
      (forall i c, children_ n !! i = Some (Some c) -> wf_node (Some (this_ n)) c) ->
      wf_node par n.

(** No node below the root is left without both value and children. *)
Inductive pruned : Node -> Prop :=
  | pruned_intro n :
      (forall i c, children_ n !! i = Some (Some c) -> (hasValue c || hasChildren c)%bool = true) ->
      (forall i c, children_ n !! i = Some (Some c) -> pruned c) ->
      pruned n.

(** A state of the trie as the public operations leave it. *)
Record wf (m : Mem) : Prop := {
  wf_root : wf_node None (root_ m);
  wf_nodup : NoDup (addrs (root_ m));
  wf_brk : Forall (fun a => a < brk m) (addrs (root_ m));
  wf_pruned : pruned (root_ m)
}.

(** What a copy keeps of the node [n] it is built into, and where its new
    nodes live: [n'] is the node after the copy, [b] and [b'] the allocator
    before and after. *)
Definition copy_ok (par : option addr) (n : Node) (b : addr) (n' : Node) (b' : addr) : Prop :=
  this_ n' = this_ n /\ key_ n' = key_ n /\ wf_node par n' /\ b <= b' /\
  NoDup (addrs n') /\
  (forall y : addr, y ∈ addrs n' -> y ∈ addrs n \/ b <= y < b').

End Trie.

Arguments Ok {Value A} a m.
Arguments Throw {Value A} e m.
Arguments Undefined {Value A} u.
Arguments Node : clear implicits.
Arguments Mem : clear implicits.
Arguments ItemList : clear implicits.

(** ** A concrete alphabet: the lowercase letters *)

Definition lowercase_ord (c : ascii) : Z :=
  let n := Z.of_N (N_of_ascii c) in
  if (Z.leb 97 n && Z.leb n 122)%bool then (n - 97)%Z else (-1)%Z.

Definition Lowercase : Alphabet :=
  {| Alphabet_size := 26; Alphabet_ord := lowercase_ord |}.

(** The empty trie over the lowercase letters, placed at address 0. *)
Definition trie_0 : Mem nat := Trie_new (H:=Lowercase) 0.

(** The same trie after [insert("a", 1)]. *)
Definition trie_a : Mem nat :=
  match insert (H:=Lowercase) "a" 1 trie_0 with
  | Ok _ m => m
  | _ => trie_0
  end.

(** * Facts *)

Section Pointers.

Context {Value : Type} `{Alphabet}.

Implicit Types (n x c : Node Value) (cs : list (option (Node Value))).
Implicit Types (a p b : addr) (m : Mem Value) (key : string).

(** ** Induction over the ownership tree *)

Lemma Node_induction (P : Node Value -> Prop) :
  (forall n, (forall i c, children_ n !! i = Some (Some c) -> P c) -> P n) ->
  forall n, P n.
Proof.
  intros IH. fix rec 1. intros [a cs p v k]. apply IH. simpl.
  revert cs. fix recl 1. intros [|[c|] cs] i c' Hi.
  - destruct i; discriminate.
  - destruct i; simpl in Hi.
    + injection Hi as <-. apply rec.
    + eapply recl, Hi.
  - destruct i; simpl in Hi.
    + discriminate.
    + eapply recl, Hi.
Qed.

(** ** Unfolding equations *)

Lemma addrs_eq n : addrs n = this_ n :: caddrs (children_ n).
Proof.
  destruct n; reflexivity.
Qed.

Lemma deref_eq p n :
  deref p n = if Nat.eqb (this_ n) p then Some n else deref_in p (children_ n).
Proof.
  destruct n as [a cs q v k]. simpl. destruct (Nat.eqb a p); [reflexivity|].
  induction cs as [|[c|] cs IH]; simpl; [reflexivity| |assumption].
  rewrite IH. reflexivity.
Qed.

Lemma modify_eq p f n :
  modify p f n = if Nat.eqb (this_ n) p then f n
                 else with_children n (map (option_map (modify p f)) (children_ n)).
Proof. destruct n; reflexivity. Qed.

(** ** Addresses of a children array *)

Lemma caddrs_app cs1 cs2 : caddrs (cs1 ++ cs2) = caddrs cs1 ++ caddrs cs2.
Proof.
  induction cs1 as [|[c|] cs1 IH]; simpl; [done| |done].
  by rewrite IH, (assoc_L (++)).
Qed.

Lemma caddrs_cons o cs : caddrs (o :: cs) = caddrs [o] ++ caddrs cs.
Proof. destruct o; simpl; [|done]. by rewrite (right_id_L [] (++)). Qed.

Lemma caddrs_split cs i o :
  cs !! i = Some o ->
  caddrs cs = caddrs (take i cs) ++ caddrs [o] ++ caddrs (drop (S i) cs).
Proof.
  intros Hi. rewrite <- (take_drop_middle cs i o Hi) at 1.
  by rewrite caddrs_app, caddrs_cons.
Qed.

Lemma caddrs_insert cs i o :
  i < length cs ->
  caddrs (<[i := o]> cs) = caddrs (take i cs) ++ caddrs [o] ++ caddrs (drop (S i) cs).
Proof.
  intros Hi. rewrite insert_take_drop by done.
  by rewrite caddrs_app, caddrs_cons.
Qed.

Lemma caddrs_one c : caddrs [Some c] = addrs c.
Proof. simpl. by rewrite (right_id_L [] (++)). Qed.

Lemma elem_of_caddrs a cs :
  a ∈ caddrs cs <-> exists i c, cs !! i = Some (Some c) /\ a ∈ addrs c.
Proof.
  induction cs as [|[c|] cs IH]; simpl.
  - split; [intros ?%elem_of_nil; done | intros (i & c & Hi & _); destruct i; done].
  - rewrite elem_of_app, IH. split.
    + intros [Hc | (i & c' & Hi & Ha)]; [by exists 0, c | by exists (S i), c'].
    + intros (i & c' & Hi & Ha). destruct i; simpl in Hi; [left; by simplify_eq | right; eauto].
  - rewrite IH. split; intros (i & c' & Hi & Ha).
    + by exists (S i), c'.
    + destruct i; simpl in Hi; [done | eauto].
Qed.

Lemma this_in_addrs n : this_ n ∈ addrs n.
Proof. rewrite addrs_eq. apply elem_of_cons; auto. Qed.

Lemma child_in_addrs n i c a :
  children_ n !! i = Some (Some c) -> a ∈ addrs c -> a ∈ addrs n.
Proof.
  intros Hi Ha. rewrite addrs_eq. apply elem_of_cons; right.
  apply elem_of_caddrs; eauto.
Qed.

Lemma NoDup_child n i c :
  NoDup (addrs n) -> children_ n !! i = Some (Some c) -> NoDup (addrs c).
Proof.
  rewrite addrs_eq. intros [_ Hnd]%NoDup_cons Hi.
  rewrite (caddrs_split _ _ _ Hi), caddrs_one in Hnd.
  by apply NoDup_app in Hnd as (_ & _ & (? & _)%NoDup_app).
Qed.

Lemma NoDup_this_child n i c :
  NoDup (addrs n) -> children_ n !! i = Some (Some c) -> this_ n ∉ addrs c.
Proof.
  rewrite addrs_eq. intros [Hn _]%NoDup_cons Hi Ha. apply Hn.
  apply elem_of_caddrs. eauto.
Qed.

(** ** Pointers that name nothing *)

Lemma deref_in_None_gen p cs :
  (forall i c, cs !! i = Some (Some c) -> p ∉ addrs c -> deref p c = None) ->
  p ∉ caddrs cs -> deref_in p cs = None.
Proof.
  induction cs as [|[c|] cs IH]; simpl; intros Hc Hp; [done| |].
  - rewrite (Hc 0 c) by (done || (intros ?; apply Hp, elem_of_app; auto)).
    apply IH; [intros i c'; apply (Hc (S i)) | intros ?; apply Hp, elem_of_app; auto].
  - apply IH; [intros i c'; apply (Hc (S i)) | done].
Qed.

Lemma deref_None p n : p ∉ addrs n -> deref p n = None.
Proof.
  induction n as [n IH] using Node_induction. rewrite addrs_eq, deref_eq.
  intros [Hn Hcs]%not_elem_of_cons.
  destruct (Nat.eqb_spec (this_ n) p); [done|].
  apply deref_in_None_gen; auto.
Qed.

Lemma deref_in_None p cs : p ∉ caddrs cs -> deref_in p cs = None.
Proof. apply deref_in_None_gen. intros. by apply deref_None. Qed.

Lemma deref_in_app p cs1 cs2 :
  deref_in p (cs1 ++ cs2) =
  match deref_in p cs1 with Some x => Some x | None => deref_in p cs2 end.
Proof.
  induction cs1 as [|[c|] cs1 IH]; simpl; [done| |done].
  destruct (deref p c); [done|]. apply IH.
Qed.

Lemma deref_in_Some p cs x :
  deref_in p cs = Some x -> exists i c, cs !! i = Some (Some c) /\ deref p c = Some x.
Proof.
  induction cs as [|[c|] cs IH]; simpl; [done| |].
  - destruct (deref p c) eqn:E.
    + intros [= <-]. by exists 0, c.
    + intros (i & c' & ? & ?)%IH. by exists (S i), c'.
  - intros (i & c' & ? & ?)%IH. by exists (S i), c'.
Qed.

Lemma deref_self n : deref (this_ n) n = Some n.
Proof. rewrite deref_eq. by rewrite Nat.eqb_refl. Qed.

(** One step of [deref]: the node itself, or a node of one of its children. *)
Lemma deref_step p n x :
  deref p n = Some x ->
  (this_ n = p /\ x = n) \/
  (this_ n <> p /\ exists i c, children_ n !! i = Some (Some c) /\ deref p c = Some x).
Proof.
  rewrite deref_eq. destruct (Nat.eqb_spec (this_ n) p).
  - intros [= <-]. by left.
  - intros ?%deref_in_Some. by right.
Qed.

Lemma deref_Some p n x :
  deref p n = Some x -> this_ x = p /\ forall a, a ∈ addrs x -> a ∈ addrs n.
Proof.
  revert x. induction n as [n IH] using Node_induction. intros x Hx.
  apply deref_step in Hx as [[? ->] | (? & i & c & Hi & Hc)]; [done|].
  destruct (IH i c Hi x Hc) as [? Hsub]. split; [done|].
  intros a Ha. eapply child_in_addrs; eauto.
Qed.

Lemma deref_elem p n x : deref p n = Some x -> p ∈ addrs n.
Proof.
  intros Hx. destruct (deref_Some _ _ _ Hx) as [<- Hsub]. apply Hsub, this_in_addrs.
Qed.

Lemma deref_in_middle p cs1 c cs2 :
  p ∉ caddrs cs1 ->
  deref_in p (cs1 ++ Some c :: cs2) =
  match deref p c with Some x => Some x | None => deref_in p cs2 end.
Proof. intros Hp. rewrite deref_in_app, deref_in_None by done. done. Qed.

Lemma NoDup_caddrs_take cs i c a :
  NoDup (caddrs cs) -> cs !! i = Some (Some c) -> a ∈ addrs c ->
  (a ∉ caddrs (take i cs)) /\ (a ∉ caddrs (drop (S i) cs)).
Proof.
  intros Hnd Hi Ha. rewrite (caddrs_split _ _ _ Hi), caddrs_one in Hnd.
  apply NoDup_app in Hnd as (_ & H1 & (_ & H2 & _)%NoDup_app). split.
  - intros Hin. apply (H1 a Hin). apply elem_of_app; auto.
  - intros Hin. by apply (H2 a Ha).
Qed.

Lemma deref_child_step p n i c x :
  NoDup (addrs n) -> children_ n !! i = Some (Some c) -> deref p c = Some x ->
  deref p n = Some x.
Proof.
  intros Hnd Hi Hx. pose proof (deref_elem _ _ _ Hx) as Hp.
  rewrite deref_eq. destruct (Nat.eqb_spec (this_ n) p) as [<-|_].
  { by destruct (NoDup_this_child _ _ _ Hnd Hi). }
  rewrite addrs_eq in Hnd. apply NoDup_cons in Hnd as [_ Hnd].
  destruct (NoDup_caddrs_take _ _ _ _ Hnd Hi Hp) as [Ht _].
  rewrite <- (take_drop_middle _ _ _ Hi), deref_in_middle by done.
  by rewrite Hx.
Qed.

(** ** Writing through a pointer *)

Lemma with_children_id n : with_children n (children_ n) = n.
Proof. by destruct n. Qed.

Lemma modify_in_notin_gen p f cs :
  (forall i c, cs !! i = Some (Some c) -> p ∉ addrs c -> modify p f c = c) ->
  p ∉ caddrs cs -> map (option_map (modify p f)) cs = cs.
Proof.
  induction cs as [|[c|] cs IH]; simpl; intros Hc Hp; [done| |].
  - rewrite (Hc 0 c) by (done || (intros ?; apply Hp, elem_of_app; auto)).
    f_equal. apply IH; [intros i c'; apply (Hc (S i)) | intros ?; apply Hp, elem_of_app; auto].
  - f_equal. apply IH; [intros i c'; apply (Hc (S i)) | done].
Qed.

Lemma modify_notin p f n : p ∉ addrs n -> modify p f n = n.
Proof.
  induction n as [n IH] using Node_induction. rewrite addrs_eq, modify_eq.
  intros [Hn Hcs]%not_elem_of_cons.
  destruct (Nat.eqb_spec (this_ n) p); [done|].
  rewrite modify_in_notin_gen; auto using with_children_id.
Qed.

Lemma modify_in_notin p f cs :
  p ∉ caddrs cs -> map (option_map (modify p f)) cs = cs.
Proof. apply modify_in_notin_gen. intros. by apply modify_notin. Qed.

Lemma modify_self f n : modify (this_ n) f n = f n.
Proof. rewrite modify_eq. by rewrite Nat.eqb_refl. Qed.

(** One step of [modify]: below a node, only the child that holds the address
    changes. *)
Lemma modify_child_step p f n i c :
  NoDup (addrs n) -> children_ n !! i = Some (Some c) -> p ∈ addrs c ->
  modify p f n = with_children n (<[i := Some (modify p f c)]> (children_ n)).
Proof.
  intros Hnd Hi Hp. rewrite modify_eq.
  destruct (Nat.eqb_spec (this_ n) p) as [<-|_].
  { by destruct (NoDup_this_child _ _ _ Hnd Hi). }
  rewrite addrs_eq in Hnd. apply NoDup_cons in Hnd as [_ Hnd].
  destruct (NoDup_caddrs_take _ _ _ _ Hnd Hi Hp) as [Ht Hd].
  f_equal. rewrite insert_take_drop by (by eapply lookup_lt_Some).
  rewrite <- (take_drop_middle _ _ _ Hi) at 1.
  rewrite map_app. simpl. by rewrite !modify_in_notin.
Qed.

(** Induction along the way from a root to the node an address names. *)
Lemma deref_induction (P : Node Value -> addr -> Node Value -> Prop) :
  (forall n, NoDup (addrs n) -> P n (this_ n) n) ->
  (forall r i c a n,
     NoDup (addrs r) -> children_ r !! i = Some (Some c) -> this_ r <> a ->
     deref a c = Some n -> P c a n -> P r a n) ->
  forall r a n, NoDup (addrs r) -> deref a r = Some n -> P r a n.
Proof.
  intros Hbase Hstep r. induction r as [r IH] using Node_induction.
  intros a n Hnd Hn.
  apply deref_step in Hn as [[<- ->] | (? & i & c & Hi & Hc)]; [by apply Hbase|].
  eapply Hstep; eauto. eapply IH; eauto using NoDup_child.
Qed.

Lemma deref_child r a n i c :
  NoDup (addrs r) -> deref a r = Some n -> children_ n !! i = Some (Some c) ->
  deref (this_ c) r = Some c.
Proof.
  intros Hnd Hn. revert i c. revert r a n Hnd Hn.
  apply (deref_induction (fun r a n => forall i c, children_ n !! i = Some (Some c) ->
                                                   deref (this_ c) r = Some c)).
  - intros n Hnd i c Hi. eapply deref_child_step; eauto using deref_self.
  - intros r j cj a n Hnd Hj Hne Hn IH i c Hi.
    eapply deref_child_step; eauto.
Qed.

(** What [modify] writes depends on the node at the address only. *)
Lemma modify_const r a n f :
  NoDup (addrs r) -> deref a r = Some n ->
  modify a f r = modify a (fun _ => f n) r.
Proof.
  intros Hnd Hn. revert r a n Hnd Hn.
  apply (deref_induction (fun r a n => modify a f r = modify a (fun _ => f n) r)).
  - intros n _. by rewrite !modify_self.
  - intros r i c a n Hnd Hi Hne Hn IH.
    rewrite !(modify_child_step a _ r i c) by eauto using deref_elem.
    by rewrite IH.
Qed.

Lemma modify_ext r a n f g :
  NoDup (addrs r) -> deref a r = Some n -> f n = g n ->
  modify a f r = modify a g r.
Proof.
  intros Hnd Hn Hfg.
  by rewrite (modify_const r a n f), (modify_const r a n g), Hfg.
Qed.

Lemma modify_id r a n f :
  NoDup (addrs r) -> deref a r = Some n -> f n = n -> modify a f r = r.
Proof.
  intros Hnd Hn Hf. revert r a n Hnd Hn Hf.
  apply (deref_induction (fun r a n => f n = n -> modify a f r = r)).
  - intros n _ Hf. by rewrite modify_self.
  - intros r i c a n Hnd Hi Hne Hn IH Hf.
    rewrite (modify_child_step a _ r i c) by eauto using deref_elem.
    rewrite IH by done. rewrite list_insert_id by done. apply with_children_id.
Qed.

(** A write at a child is a write at its parent. *)
Lemma modify_child r a n i c f :
  NoDup (addrs r) -> deref a r = Some n -> children_ n !! i = Some (Some c) ->
  modify (this_ c) f r =
  modify a (fun _ => with_children n (<[i := Some (f c)]> (children_ n))) r.
Proof.
  intros Hnd Hn. revert i c. revert r a n Hnd Hn.
  apply (deref_induction (fun r a n => forall i c, children_ n !! i = Some (Some c) ->
    modify (this_ c) f r =
    modify a (fun _ => with_children n (<[i := Some (f c)]> (children_ n))) r)).
  - intros n Hnd i c Hi. rewrite modify_self.
    rewrite (modify_child_step _ _ n i c) by eauto using this_in_addrs.
    by rewrite modify_self.
  - intros r j cj a n Hnd Hj Hne Hn IH i c Hi.
    assert (this_ c ∈ addrs cj).
    { destruct (deref_Some _ _ _ Hn) as [_ Hsub]. apply Hsub.
      eapply child_in_addrs; eauto using this_in_addrs. }
    rewrite (modify_child_step (this_ c) _ r j cj) by done.
    rewrite (modify_child_step a _ r j cj) by eauto using deref_elem.
    by rewrite (IH i c Hi).
Qed.

Lemma deref_in_insert p cs i c y :
  i < length cs -> p ∉ caddrs (take i cs) -> deref p c = Some y ->
  deref_in p (<[i := Some c]> cs) = Some y.
Proof.
  intros Hi Hp Hy. rewrite insert_take_drop, deref_in_middle by done.
  by rewrite Hy.
Qed.

Lemma deref_modify r a n f :
  NoDup (addrs r) -> deref a r = Some n -> this_ (f n) = a ->
  deref a (modify a f r) = Some (f n).
Proof.
  intros Hnd Hn Hf. revert r a n Hnd Hn Hf.
  apply (deref_induction (fun r a n => this_ (f n) = a -> deref a (modify a f r) = Some (f n))).
  - intros n _ Hf. rewrite modify_self. rewrite <- Hf at 1. apply deref_self.
  - intros r i c a n Hnd Hi Hne Hn IH Hf.
    rewrite (modify_child_step a _ r i c) by eauto using deref_elem.
    rewrite deref_eq. simpl. destruct (Nat.eqb_spec (this_ r) a); [done|].
    apply deref_in_insert; [by eapply lookup_lt_Some| |by apply IH].
    rewrite addrs_eq in Hnd. apply NoDup_cons in Hnd as [_ Hnd].
    eapply NoDup_caddrs_take; eauto using deref_elem.
Qed.

(** The addresses around the node at [a] stay; those of the node are replaced
    by those of what is written. *)
Lemma addrs_modify r a n :
  NoDup (addrs r) -> deref a r = Some n ->
  exists l1 l2, addrs r = l1 ++ addrs n ++ l2 /\
    forall f, addrs (modify a f r) = l1 ++ addrs (f n) ++ l2.
Proof.
  intros Hnd Hn. revert r a n Hnd Hn.
  apply (deref_induction (fun r a n => exists l1 l2, addrs r = l1 ++ addrs n ++ l2 /\
    forall f, addrs (modify a f r) = l1 ++ addrs (f n) ++ l2)).
  - intros n _. exists [], []. split; [by rewrite (right_id_L [] (++))|].
    intros f. by rewrite modify_self, (right_id_L [] (++)).
  - intros r i c a n Hnd Hi Hne Hn (l1 & l2 & E1 & E2).
    exists (this_ r :: caddrs (take i (children_ r)) ++ l1),
           (l2 ++ caddrs (drop (S i) (children_ r))). split.
    + rewrite addrs_eq, (caddrs_split _ _ _ Hi), caddrs_one, E1. simpl.
      f_equal. by rewrite <- !(assoc_L (++)).
    + intros f. rewrite (modify_child_step a _ r i c) by eauto using deref_elem.
      rewrite addrs_eq. simpl. rewrite caddrs_insert by (by eapply lookup_lt_Some).
      rewrite caddrs_one, E2. f_equal. by rewrite <- !(assoc_L (++)).
Qed.

Lemma modify_modify r a n f g :
  NoDup (addrs r) -> deref a r = Some n -> this_ (g n) = a ->
  modify a f (modify a g r) = modify a (fun x => f (g x)) r.
Proof.
  intros Hnd Hn Hg. revert r a n Hnd Hn Hg.
  apply (deref_induction (fun r a n => this_ (g n) = a ->
    modify a f (modify a g r) = modify a (fun x => f (g x)) r)).
  - intros n _ Hg. rewrite !modify_self. rewrite <- Hg at 1. by rewrite modify_self.
  - intros r i c a n Hnd Hi Hne Hn IH Hg.
    rewrite !(modify_child_step a _ r i c) by eauto using deref_elem.
    rewrite modify_eq. simpl. destruct (Nat.eqb_spec (this_ r) a); [done|].
    unfold with_children. simpl. f_equal.
    rewrite addrs_eq in Hnd. apply NoDup_cons in Hnd as [_ Hnd].
    destruct (NoDup_caddrs_take _ _ _ _ Hnd Hi (deref_elem _ _ _ Hn)) as [Ht Hd].
    rewrite !insert_take_drop by (by eapply lookup_lt_Some).
    rewrite map_app. simpl. rewrite !modify_in_notin by done.
    by rewrite IH.
Qed.

(** ** The monad *)

Lemma bind_Ok {A B} (f : M A) (k : A -> M B) m (r : A) m' :
  f m = Ok r m' -> bind f k m = k r m'.
Proof. unfold bind. by intros ->. Qed.

Lemma load_Ok p m n : deref p (root_ m) = Some n -> load p m = Ok n m.
Proof. unfold load. by intros ->. Qed.

Lemma update_Ok p f m n :
  deref p (root_ m) = Some n ->
  update p f m = Ok tt (mkMem (modify p f (root_ m)) (brk m)).
Proof. unfold update. by intros ->. Qed.

Lemma Mem_eta m : mkMem (root_ m) (brk m) = m.
Proof. by destruct m. Qed.

(** ** Letters and slots *)

Lemma isInAlphabet_true (c : ascii) : isInAlphabet c = true <-> Alphabet_ord c <> (-1)%Z.
Proof.
  unfold isInAlphabet. destruct (Z.eqb_spec (Alphabet_ord c) (-1)); simpl; split; congruence.
Qed.

Lemma isKeyCorrect_String (c : ascii) key :
  isKeyCorrect (String c key) = true <-> isInAlphabet c = true /\ isKeyCorrect key = true.
Proof. simpl. destruct (isInAlphabet c); intuition congruence. Qed.

Lemma scan_key_Some (c : ascii) cs x :
  scan_key c cs = Some x -> exists i, cs !! i = Some (Some x) /\ key_ x = c.
Proof.
  induction cs as [|[y|] cs IH]; simpl; [done| |].
  - destruct (Ascii.eqb_spec (key_ y) c).
    + intros [= <-]. by exists 0.
    + intros [i ?]%IH. by exists (S i).
  - intros [i ?]%IH. by exists (S i).
Qed.

Lemma scan_key_None (c : ascii) cs i x :
  scan_key c cs = None -> cs !! i = Some (Some x) -> key_ x <> c.
Proof.
  revert i. induction cs as [|[y|] cs IH]; intros i; simpl; [done| |].
  - destruct (Ascii.eqb_spec (key_ y) c); [done|].
    destruct i; simpl; [by intros _ [= <-] | eauto].
  - destruct i; simpl; [done | eauto].
Qed.

Lemma child_Ok a (c : ascii) m n :
  deref a (root_ m) = Some n -> isInAlphabet c = true ->
  child a c m = Ok (this_ <$> scan_key c (children_ n)) m.
Proof.
  intros Hn Hc%isInAlphabet_true. unfold child.
  destruct (Z.eqb_spec (Alphabet_ord c) (-1)); [done|].
  by rewrite (bind_Ok _ _ _ _ _ (load_Ok _ _ _ Hn)).
Qed.

(** ** Reading: paths, [search] and [at] *)

Lemma deref_scan_key r a n (c : ascii) x :
  NoDup (addrs r) -> deref a r = Some n -> scan_key c (children_ n) = Some x ->
  deref (this_ x) r = Some x.
Proof. intros Hnd Hn [i [Hi _]]%scan_key_Some. eauto using deref_child. Qed.

Lemma deref_descend r a n key x :
  NoDup (addrs r) -> deref a r = Some n -> descend n key = Some x ->
  deref (this_ x) r = Some x.
Proof.
  intros Hnd. revert a n. induction key as [|c key IH]; intros a n Hn; simpl.
  - intros [= <-]. destruct (deref_Some _ _ _ Hn) as [<- _]. done.
  - destruct (scan_key c (children_ n)) as [y|] eqn:E; [|done].
    eapply IH, deref_scan_key; eauto.
Qed.

Lemma getPath_from_walk m a n key :
  NoDup (addrs (root_ m)) -> deref a (root_ m) = Some n -> isKeyCorrect key = true ->
  getPath_from a key m = Ok (fmap (M:=list) (fmap this_) (walk n key)) m.
Proof.
  intros Hnd. revert a n. induction key as [|c key IH]; intros a n Hn; [done|].
  intros [Hc Hkey]%isKeyCorrect_String. simpl.
  rewrite (bind_Ok _ _ _ _ _ (child_Ok _ _ _ _ Hn Hc)).
  destruct (scan_key c (children_ n)) as [y|] eqn:E; simpl; [|done].
  by rewrite (bind_Ok _ _ _ _ _ (IH _ y (deref_scan_key _ _ _ _ _ Hnd Hn E) Hkey)).
Qed.

Lemma getPath_walk m a n key :
  NoDup (addrs (root_ m)) -> deref a (root_ m) = Some n -> isKeyCorrect key = true ->
  getPath a key m = Ok (fmap (M:=list) (fmap this_) (Some n :: walk n key)) m.
Proof.
  intros Hnd Hn Hkey. unfold getPath.
  rewrite (bind_Ok _ _ _ _ _ (getPath_from_walk _ _ _ _ Hnd Hn Hkey)). simpl.
  destruct (deref_Some _ _ _ Hn) as [-> _]. done.
Qed.

Lemma last_walk n key : last (Some n :: walk n key) = Some (descend n key).
Proof.
  revert n. induction key as [|c key IH]; intros n; [done|]. simpl.
  destruct (scan_key c (children_ n)) as [y|] eqn:E; [|done].
  rewrite <- IH. by destruct (walk y key).
Qed.

Lemma back_walk m n key :
  back (fmap (M:=list) (fmap this_) (Some n :: walk n key)) m = Ok (this_ <$> descend n key) m.
Proof. unfold back. by rewrite fmap_last, last_walk. Qed.

Lemma search_lookup m key :
  NoDup (addrs (root_ m)) -> isKeyCorrect key = true ->
  search key m = Ok (lookup (root_ m) key) m.
Proof.
  intros Hnd Hkey. unfold search. rewrite Hkey. unfold root_addr, bind at 1.
  rewrite (bind_Ok _ _ _ _ _ (getPath_walk _ _ _ _ Hnd (deref_self _) Hkey)).
  rewrite (bind_Ok _ _ _ _ _ (back_walk _ _ _)). unfold lookup.
  destruct (descend (root_ m) key) as [x|] eqn:E; simpl; [|done].
  by rewrite (bind_Ok _ _ _ _ _ (load_Ok _ _ _ (deref_descend _ _ _ _ _ Hnd (deref_self _) E))).
Qed.

Lemma at_lookup m key :
  NoDup (addrs (root_ m)) -> isKeyCorrect key = true ->
  at_ key m = match lookup (root_ m) key with
              | Some v => Ok v m
              | None => Throw (out_of_range "Key not found!") m
              end.
Proof.
  intros Hnd Hkey. unfold at_. rewrite Hkey. unfold root_addr, bind at 1.
  rewrite (bind_Ok _ _ _ _ _ (getPath_walk _ _ _ _ Hnd (deref_self _) Hkey)).
  rewrite (bind_Ok _ _ _ _ _ (back_walk _ _ _)). unfold lookup.
  destruct (descend (root_ m) key) as [x|] eqn:E; simpl; [|done].
  rewrite (bind_Ok _ _ _ _ _ (load_Ok _ _ _ (deref_descend _ _ _ _ _ Hnd (deref_self _) E))).
  unfold value. by destruct (value_ x).
Qed.

(** ** Well-formed nodes *)

Lemma wf_node_parent par n : wf_node par n -> parent_ n = par.
Proof. by inversion 1. Qed.

Lemma wf_node_length par n : wf_node par n -> length (children_ n) = Alphabet_size.
Proof. by inversion 1. Qed.

Lemma wf_node_slot par n i c :
  wf_node par n -> children_ n !! i = Some (Some c) -> Alphabet_ord (key_ c) = Z.of_nat i.
Proof. inversion 1; eauto. Qed.

Lemma wf_node_child par n i c :
  wf_node par n -> children_ n !! i = Some (Some c) -> wf_node (Some (this_ n)) c.
Proof. inversion 1; eauto. Qed.

Lemma scan_key_slot par n (c : ascii) x :
  wf_node par n -> scan_key c (children_ n) = Some x ->
  children_ n !! slot c = Some (Some x) /\ key_ x = c.
Proof.
  intros Hwf (i & Hi & Hk)%scan_key_Some. split; [|done].
  pose proof (wf_node_slot _ _ _ _ Hwf Hi) as Hs.
  unfold slot. rewrite <- Hk, Hs. by rewrite Nat2Z.id.
Qed.

Lemma slot_lt `{!AlphabetRange} par n (c : ascii) :
  wf_node par n -> isInAlphabet c = true -> slot c < length (children_ n).
Proof.
  intros Hwf Hc%isInAlphabet_true. rewrite (wf_node_length _ _ Hwf).
  unfold slot. destruct (ord_range c); lia.
Qed.

Lemma slot_ord `{!AlphabetRange} (c : ascii) :
  isInAlphabet c = true -> Z.of_nat (slot c) = Alphabet_ord c.
Proof. intros Hc%isInAlphabet_true. unfold slot. destruct (ord_range c); lia. Qed.

Lemma caddrs_replicate_None k : caddrs (replicate k (None : option (Node Value))) = [].
Proof. induction k; simpl; auto. Qed.

Lemma addrs_Node_new a par (c : ascii) :
  addrs (with_key (Node_new (Value:=Value) a par) c) = [a].
Proof. rewrite addrs_eq. simpl. by rewrite caddrs_replicate_None. Qed.

Lemma lookup_replicate_None k i (o : option (Node Value)) :
  replicate k None !! i = Some o -> o = None.
Proof. by intros [-> _]%lookup_replicate. Qed.

Lemma wf_node_new `{!AlphabetRange} a par (c : ascii) :
  wf_node par (with_key (Node_new (Value:=Value) a par) c).
Proof.
  constructor; simpl.
  - done.
  - apply length_replicate.
  - by intros i x ?%lookup_replicate_None.
  - by intros i x ?%lookup_replicate_None.
Qed.

(** Replacing one child. *)
Lemma wf_node_insert `{!AlphabetRange} par n (c : ascii) y :
  wf_node par n -> isInAlphabet c = true -> key_ y = c ->
  wf_node (Some (this_ n)) y ->
  wf_node par (with_children n (<[slot c := Some y]> (children_ n))).
Proof.
  intros Hwf Hc Hk Hy. pose proof (slot_lt _ _ _ Hwf Hc) as Hlt.
  constructor; simpl.
  - by apply wf_node_parent.
  - rewrite length_insert. by eapply wf_node_length.
  - intros i x. destruct (decide (i = slot c)) as [->|Hne].
    + rewrite list_lookup_insert_eq by done. intros [= <-].
      by rewrite slot_ord, Hk.
    + rewrite list_lookup_insert_ne by done. by eapply wf_node_slot.
  - intros i x. destruct (decide (i = slot c)) as [->|Hne].
    + rewrite list_lookup_insert_eq by done. by intros [= <-].
    + rewrite list_lookup_insert_ne by done. by eapply wf_node_child.
Qed.

Lemma wf_node_remove par n i :
  wf_node par n -> wf_node par (with_children n (<[i := None]> (children_ n))).
Proof.
  intros Hwf. constructor; simpl.
  - by apply wf_node_parent.
  - rewrite length_insert. by eapply wf_node_length.
  - intros j x. destruct (decide (j = i)) as [->|Hne].
    + intros Hj. pose proof (lookup_lt_Some _ _ _ Hj) as Hlt.
      rewrite length_insert in Hlt. by rewrite list_lookup_insert_eq in Hj.
    + rewrite list_lookup_insert_ne by done. by eapply wf_node_slot.
  - intros j x. destruct (decide (j = i)) as [->|Hne].
    + intros Hj. pose proof (lookup_lt_Some _ _ _ Hj) as Hlt.
      rewrite length_insert in Hlt. by rewrite list_lookup_insert_eq in Hj.
    + rewrite list_lookup_insert_ne by done. by eapply wf_node_child.
Qed.

Lemma wf_node_with_value par n v : wf_node par n -> wf_node par (with_value n v).
Proof. inversion 1; subst. by constructor. Qed.

(** ** Addresses after a write *)

Lemma elem_of_addrs_insert n i o a :
  i < length (children_ n) ->
  a ∈ addrs (with_children n (<[i := o]> (children_ n))) ->
  a ∈ addrs n \/ a ∈ caddrs [o].
Proof.
  intros Hi. destruct (lookup_lt_is_Some_2 _ _ Hi) as [o' Ho'].
  rewrite !addrs_eq. simpl. rewrite caddrs_insert, (caddrs_split _ _ _ Ho') by done.
  rewrite !elem_of_cons, !elem_of_app. tauto.
Qed.

Lemma NoDup_replace_middle (l1 lo lo' l2 : list addr) :
  NoDup (l1 ++ lo' ++ l2) -> NoDup lo ->
  (forall a, a ∈ lo -> a ∈ lo' \/ a ∉ l1 ++ lo' ++ l2) ->
  NoDup (l1 ++ lo ++ l2).
Proof.
  rewrite !NoDup_app.
  setoid_rewrite elem_of_app. setoid_rewrite elem_of_app.
  intros (Hl1 & H1 & Ho'' & H2 & Hl2) Ho Hfresh.
  repeat split; try done.
  - intros a Ha [Hin | Hin]; [|by apply (H1 a Ha); right].
    destruct (Hfresh _ Hin) as [? | Hf]; [by apply (H1 a Ha); left|].
    apply Hf. by left.
  - intros a Hin Ha. destruct (Hfresh _ Hin) as [? | Hf]; [by apply (H2 a)|].
    apply Hf. right. by right.
Qed.

Lemma NoDup_addrs_insert n i o o' :
  NoDup (addrs n) -> children_ n !! i = Some o' ->
  NoDup (caddrs [o]) ->
  (forall a, a ∈ caddrs [o] -> a ∈ caddrs [o'] \/ a ∉ addrs n) ->
  NoDup (addrs (with_children n (<[i := o]> (children_ n)))).
Proof.
  intros Hnd Ho' Ho Hfresh. pose proof (lookup_lt_Some _ _ _ Ho') as Hi.
  assert (addrs (with_children n (<[i := o]> (children_ n))) =
          (this_ n :: caddrs (take i (children_ n))) ++ caddrs [o] ++
                     caddrs (drop (S i) (children_ n))) as ->.
  { rewrite addrs_eq. cbn [with_children this_ children_]. by rewrite caddrs_insert. }
  rewrite addrs_eq, (caddrs_split _ _ _ Ho') in Hnd, Hfresh.
  by eapply NoDup_replace_middle.
Qed.

Lemma NoDup_modify r a n n' :
  NoDup (addrs r) -> deref a r = Some n -> NoDup (addrs n') ->
  (forall x : addr, x ∈ addrs n' -> x ∈ addrs n \/ x ∉ addrs r) ->
  NoDup (addrs (modify a (fun _ => n') r)).
Proof.
  intros Hnd Hn Hn' Hfresh.
  destruct (addrs_modify _ _ _ Hnd Hn) as (l1 & l2 & E1 & E2).
  rewrite E2. rewrite E1 in Hnd, Hfresh. by eapply NoDup_replace_middle.
Qed.

Lemma elem_of_modify r a n n' (x : addr) :
  NoDup (addrs r) -> deref a r = Some n ->
  x ∈ addrs (modify a (fun _ => n') r) -> x ∈ addrs r \/ x ∈ addrs n'.
Proof.
  intros Hnd Hn. destruct (addrs_modify _ _ _ Hnd Hn) as (l1 & l2 & E1 & E2).
  rewrite E2, E1, !elem_of_app. tauto.
Qed.

(** ** Insertion: the pointer code computes [insert_at] *)

Lemma deref_this r a n : deref a r = Some n -> this_ n = a.
Proof. by intros [? _]%deref_Some. Qed.

Lemma Forall_bound_modify r a n n' b b' :
  NoDup (addrs r) -> deref a r = Some n ->
  Forall (fun y : addr => y < b) (addrs r) -> Forall (fun y : addr => y < b') (addrs n') -> b <= b' ->
  Forall (fun y : addr => y < b') (addrs (modify a (fun _ => n') r)).
Proof.
  intros Hnd Hn Hb Hb' Hle. apply Forall_forall. intros x Hx.
  apply (elem_of_modify _ _ _ _ _ Hnd Hn) in Hx as [Hx | Hx].
  - rewrite Forall_forall in Hb. specialize (Hb x Hx). lia.
  - rewrite Forall_forall in Hb'. by apply Hb'.
Qed.

Lemma NoDup_deref r a n : NoDup (addrs r) -> deref a r = Some n -> NoDup (addrs n).
Proof.
  intros Hnd Hn. destruct (addrs_modify _ _ _ Hnd Hn) as (l1 & l2 & E1 & _).
  rewrite E1 in Hnd. by apply NoDup_app in Hnd as (_ & _ & (? & _)%NoDup_app).
Qed.

(** The state after [createChild]. *)
Lemma createChild_Ok `{!AlphabetRange} m a n par (c : ascii) :
  deref a (root_ m) = Some n -> wf_node par n -> isInAlphabet c = true ->
  createChild a c m =
  Ok (brk m)
     (mkMem (modify a (fun n => with_children n
               (<[slot c := Some (with_key (Node_new (brk m) (Some a)) c)]> (children_ n)))
               (root_ m))
            (S (brk m))).
Proof.
  intros Hn Hwf Hc. unfold createChild. unfold alloc, bind at 1.
  rewrite (bind_Ok _ _ _ _ _ (load_Ok a (mkMem (root_ m) (S (brk m))) n Hn)).
  pose proof (slot_ord c Hc) as Hs. pose proof (slot_lt _ _ c Hwf Hc) as Hlt.
  rewrite (wf_node_length _ _ Hwf) in Hlt.
  destruct (Z.leb_spec 0 (Alphabet_ord c)); [|lia].
  destruct (Z.ltb_spec (Alphabet_ord c) (Z.of_nat Alphabet_size)); [|lia].
  cbn [andb].
  by rewrite (bind_Ok _ _ _ _ _ (update_Ok a _ (mkMem (root_ m) (S (brk m))) n Hn)).
Qed.

Lemma insert_walk_at `{!AlphabetRange} key (v : Value) m a n par :
  NoDup (addrs (root_ m)) -> Forall (fun y : addr => y < brk m) (addrs (root_ m)) ->
  deref a (root_ m) = Some n -> wf_node par n -> isKeyCorrect key = true ->
  bind (insert_walk a key)
       (fun node => bind (load node) (fun t =>
          if hasValue t then ret false
          else bind (update node (setValue v)) (fun _ => ret true))) m =
  let '(n', r, b') := insert_at n key v (brk m) in
  Ok r (mkMem (modify a (fun _ => n') (root_ m)) b').
Proof.
  revert m a n par. induction key as [|c key IH]; intros m a n par Hnd Hb Hn Hwf Hkey.
  - cbn [insert_walk insert_at]. unfold bind at 1, ret at 1.
    rewrite (bind_Ok _ _ _ _ _ (load_Ok _ _ _ Hn)).
    destruct (hasValue n).
    + unfold ret. by rewrite (modify_id _ _ n), Mem_eta.
    + rewrite (bind_Ok _ _ _ _ _ (update_Ok _ _ _ _ Hn)). unfold ret.
      by rewrite (modify_const _ _ n).
  - apply isKeyCorrect_String in Hkey as [Hc Hkey].
    cbn [insert_walk insert_at]. unfold bind at 1.
    rewrite (bind_Ok _ _ _ _ _ (child_Ok _ _ _ _ Hn Hc)).
    destruct (scan_key c (children_ n)) as [x|] eqn:E; cbn [fmap option_fmap option_map].
    + destruct (scan_key_slot _ _ _ _ Hwf E) as [Hx Hk].
      specialize (IH m (this_ x) x (Some (this_ n)) Hnd Hb
                    (deref_child _ _ _ _ _ Hnd Hn Hx) (wf_node_child _ _ _ _ Hwf Hx) Hkey).
      unfold bind at 1 in IH. rewrite IH.
      destruct (insert_at x key v (brk m)) as [[x' r] b'].
      by rewrite (modify_child _ _ _ _ _ _ Hnd Hn Hx).
    + unfold bind at 1. rewrite (createChild_Ok _ _ _ _ _ Hn Hwf Hc).
      set (fresh := with_key (Node_new (brk m) (Some a)) c).
      set (F := fun n0 : Node Value => with_children n0 (<[slot c := Some fresh]> (children_ n0))).
      set (m2 := mkMem (modify a F (root_ m)) (S (brk m))).
      pose proof (slot_lt _ _ c Hwf Hc) as Hlt.
      pose proof (deref_this _ _ _ Hn) as Ha.
      assert (Hfr : brk m ∉ addrs (root_ m)).
      { intros Hin. rewrite Forall_forall in Hb. specialize (Hb _ Hin). lia. }
      assert (HndF : NoDup (addrs (F n))).
      { destruct (lookup_lt_is_Some_2 _ _ Hlt) as [o' Ho'].
        eapply NoDup_addrs_insert; eauto.
        - eauto using NoDup_deref.
        - rewrite caddrs_one. unfold fresh. rewrite addrs_Node_new. apply NoDup_singleton.
        - intros x. rewrite caddrs_one. unfold fresh. rewrite addrs_Node_new.
          intros ->%list_elem_of_singleton. right. intros Hin. apply Hfr.
          destruct (deref_Some _ _ _ Hn) as [_ Hsub]. by apply Hsub. }
      assert (HinF : forall y : addr, y ∈ addrs (F n) -> y ∈ addrs n \/ y = brk m).
      { intros y [Hy | Hy]%elem_of_addrs_insert; [by left | | done].
        rewrite caddrs_one in Hy. unfold fresh in Hy. rewrite addrs_Node_new in Hy.
        right. by apply list_elem_of_singleton. }
      assert (Hn2 : deref a (root_ m2) = Some (F n)) by (by apply deref_modify).
      assert (Hnd2 : NoDup (addrs (root_ m2))).
      { cbn [m2 root_]. rewrite (modify_const _ _ n) by done.
        eapply NoDup_modify; eauto. intros y [Hy | ->]%HinF; auto. }
      assert (Hb2 : Forall (fun y : addr => y < brk m2) (addrs (root_ m2))).
      { cbn [m2 root_ brk]. rewrite (modify_const _ _ n) by done.
        eapply Forall_bound_modify; eauto. apply Forall_forall.
        intros y [Hy | ->]%HinF; [|lia]. rewrite Forall_forall in Hb.
        destruct (deref_Some _ _ _ Hn) as [_ Hsub]. specialize (Hb y (Hsub _ Hy)). lia. }
      assert (Hfx : children_ (F n) !! slot c = Some (Some fresh)).
      { cbn [F with_children children_]. by apply list_lookup_insert_eq. }
      pose proof (deref_child _ _ _ _ _ Hnd2 Hn2 Hfx) as Hfd.
      specialize (IH m2 (brk m) fresh (Some a) Hnd2 Hb2 Hfd (wf_node_new _ _ _) Hkey).
      unfold bind at 1 in IH. rewrite IH. cbn [m2 brk root_]. rewrite Ha. fold fresh.
      destruct (insert_at fresh key v (S (brk m))) as [[x' r] b'].
      f_equal. f_equal.
      rewrite (modify_child _ _ _ _ _ _ Hnd2 Hn2 Hfx : modify (brk m) _ _ = _).
      cbn [m2 root_]. rewrite (modify_modify _ _ n) by done.
      apply (modify_ext _ _ n); [done..|].
      cbn [F with_children children_ this_ parent_ value_ key_].
      unfold with_children. by rewrite list_insert_insert_eq.
Qed.

Lemma insert_insert_at `{!AlphabetRange} key (v : Value) m :
  NoDup (addrs (root_ m)) -> Forall (fun y : addr => y < brk m) (addrs (root_ m)) ->
  wf_node None (root_ m) -> isKeyCorrect key = true ->
  insert key v m =
  let '(r', installed, b') := insert_at (root_ m) key v (brk m) in
  Ok installed (mkMem r' b').
Proof.
  intros Hnd Hb Hwf Hkey. unfold insert. rewrite Hkey. unfold root_addr, bind at 1.
  rewrite (insert_walk_at key v m _ _ None Hnd Hb (deref_self _) Hwf Hkey).
  destruct (insert_at (root_ m) key v (brk m)) as [[r' installed] b'].
  by rewrite modify_self.
Qed.

(** ** Removal: the pointer code computes [remove_spec] *)

Lemma remove_spec_this n key n' : remove_spec n key = Some n' -> this_ n' = this_ n.
Proof.
  destruct key as [|c key]; simpl; [by intros [= <-]|].
  destruct (scan_key c (children_ n)); [|done].
  destruct (remove_spec _ key) as [x'|]; [|done].
  by destruct (hasValue x' || hasChildren x'); intros [= <-].
Qed.

Lemma remove_spec_parent n key n' : remove_spec n key = Some n' -> parent_ n' = parent_ n.
Proof.
  destruct key as [|c key]; simpl; [by intros [= <-]|].
  destruct (scan_key c (children_ n)); [|done].
  destruct (remove_spec _ key) as [x'|]; [|done].
  by destruct (hasValue x' || hasChildren x'); intros [= <-].
Qed.

Lemma remove_spec_descend n key :
  remove_spec n key = None <-> descend n key = None.
Proof.
  revert n. induction key as [|c key IH]; intros n; simpl; [done|].
  destruct (scan_key c (children_ n)) as [x|]; [|done].
  rewrite <- IH. destruct (remove_spec x key) as [x'|]; [|done].
  by destruct (hasValue x' || hasChildren x').
Qed.

Lemma front_rev {A} (l : list A) m : front (rev l) m = back l m.
Proof.
  unfold front, back. destruct l as [|x l] using rev_ind; [done|].
  by rewrite rev_unit, last_snoc.
Qed.

Lemma any_child_lookup cs i x : cs !! i = Some (Some x) -> any_child cs = true.
Proof.
  revert i. induction cs as [|[y|] cs IH]; intros i; simpl; [done|done|].
  destruct i; simpl; [done | eauto].
Qed.

(** [removeChild] empties the first slot that holds the pointer. *)
Lemma release_first p cs i x :
  cs !! i = Some (Some x) -> this_ x = p ->
  (forall j y, j < i -> cs !! j = Some (Some y) -> this_ y <> p) ->
  release p cs = (<[i := None]> cs, true).
Proof.
  revert i. induction cs as [|[y|] cs IH]; intros i Hi Hp Hbefore; [done| |].
  - destruct i; simpl in *.
    + injection Hi as ->. by rewrite Hp, Nat.eqb_refl.
    + destruct (Nat.eqb_spec (this_ y) p) as [E|_].
      * destruct (Hbefore 0 y); [lia|done|done].
      * rewrite (IH i Hi Hp); [done|]. intros j z Hj. apply (Hbefore (S j)). lia.
  - destruct i; simpl in *; [done|].
    rewrite (IH i Hi Hp); [done|]. intros j z Hj. apply (Hbefore (S j)). lia.
Qed.

Lemma NoDup_before n i x j y :
  NoDup (addrs n) -> children_ n !! i = Some (Some x) ->
  j < i -> children_ n !! j = Some (Some y) -> this_ y <> this_ x.
Proof.
  rewrite addrs_eq. intros [_ Hnd]%NoDup_cons Hi Hlt Hj E.
  destruct (NoDup_caddrs_take _ _ _ _ Hnd Hi (this_in_addrs x)) as [Ht _].
  apply Ht, elem_of_caddrs. exists j, y. split.
  - by rewrite lookup_take_lt.
  - rewrite <- E. apply this_in_addrs.
Qed.

Lemma remove_loop_at `{!AlphabetRange} key m a n par t n' rest :
  NoDup (addrs (root_ m)) -> deref a (root_ m) = Some n -> wf_node par n ->
  descend n key = Some t -> remove_spec n key = Some n' ->
  remove_loop (rev (fmap (M:=list) (fmap this_) (walk n key)) ++ Some a :: rest)
    (mkMem (modify (this_ t) removeValue (root_ m)) (brk m)) =
  remove_loop (Some a :: rest) (mkMem (modify a (fun _ => n') (root_ m)) (brk m)).
Proof.
  intros Hnd. revert a n par n' rest.
  induction key as [|c key IH]; intros a n par n' rest Hn Hwf Ht Hn'.
  - simpl in *. injection Ht as <-. injection Hn' as <-.
    rewrite (deref_this _ _ _ Hn). by rewrite (modify_const _ _ n).
  - simpl in Ht, Hn'. cbn [walk].
    destruct (scan_key c (children_ n)) as [x|] eqn:E; [|done].
    destruct (remove_spec x key) as [x'|] eqn:Ex'; [|done].
    destruct (scan_key_slot _ _ _ _ Hwf E) as [Hx Hk].
    pose proof (deref_child _ _ _ _ _ Hnd Hn Hx) as Hdx.
    pose proof (wf_node_child _ _ _ _ Hwf Hx) as Hwx.
    pose proof (deref_this _ _ _ Hn) as Ha.
    rewrite fmap_cons. cbn [rev]. rewrite <- (assoc_L (++)). cbn [app].
    change (this_ <$> Some x) with (Some (this_ x)).
    rewrite (IH (this_ x) x _ x' (Some a :: rest) Hdx Hwx Ht Ex').
    set (n1 := with_children n (<[slot c := Some x']> (children_ n))).
    assert (E1 : modify (this_ x) (fun _ => x') (root_ m) = modify a (fun _ => n1) (root_ m)).
    { by rewrite (modify_child _ _ _ _ _ _ Hnd Hn Hx). }
    rewrite E1.
    assert (Hd1 : deref a (modify a (fun _ => n1) (root_ m)) = Some n1).
    { by apply (deref_modify _ _ n). }
    assert (Hx1 : children_ n1 !! slot c = Some (Some x')).
    { cbn [n1 with_children children_]. apply list_lookup_insert_eq. by eapply lookup_lt_Some. }
    assert (Hdx' : deref (this_ x) (modify a (fun _ => n1) (root_ m)) = Some x').
    { rewrite <- E1. apply (deref_modify _ _ x); [done..|]. by eapply remove_spec_this. }
    cbn [remove_loop].
    rewrite (bind_Ok _ _ _ _ _ (load_Ok _ (mkMem _ _) _ Hdx')).
    assert (Hpx : parent_ x' = Some a).
    { rewrite (remove_spec_parent _ _ _ Ex'), <- Ha. by eapply wf_node_parent. }
    unfold hasParent at 1. rewrite Hpx. cbn [negb]. rewrite orb_false_r.
    destruct (hasValue x' || hasChildren x') eqn:Ekeep.
    + injection Hn' as <-. fold n1.
      rewrite (bind_Ok _ _ _ _ _ (load_Ok _ (mkMem _ _) _ Hd1)).
      unfold hasChildren. rewrite (any_child_lookup _ _ _ Hx1).
      by rewrite orb_true_r.
    + injection Hn' as <-.
      rewrite (bind_Ok _ _ _ _ _ (update_Ok _ _ (mkMem _ _) _ Hd1)). cbn [root_ brk].
      rewrite (modify_modify _ _ n) by done.
      f_equal. f_equal. apply (modify_ext _ _ n); [done..|].
      unfold removeChild.
      rewrite (release_first (this_ x) (children_ n1) (slot c) x' Hx1).
      * cbn [fst n1 with_children children_ this_ parent_ value_ key_].
        unfold with_children. by rewrite list_insert_insert_eq.
      * by eapply remove_spec_this.
      * intros j y Hj. cbn [n1 with_children children_].
        rewrite list_lookup_insert_ne by lia.
        eapply NoDup_before; eauto using NoDup_deref.
Qed.

Lemma remove_remove_spec `{!AlphabetRange} key m :
  NoDup (addrs (root_ m)) -> wf_node None (root_ m) -> isKeyCorrect key = true ->
  remove key m =
  Ok tt (mkMem (default (root_ m) (remove_spec (root_ m) key)) (brk m)).
Proof.
  intros Hnd Hwf Hkey. unfold remove. rewrite Hkey. unfold root_addr, bind at 1.
  rewrite (bind_Ok _ _ _ _ _ (getPath_walk _ _ _ _ Hnd (deref_self _) Hkey)).
  rewrite (bind_Ok _ _ _ _ _ (eq_trans (front_rev _ _) (back_walk _ _ _))).
  destruct (descend (root_ m) key) as [t|] eqn:Et; cbn [fmap option_fmap option_map].
  - destruct (remove_spec (root_ m) key) as [r'|] eqn:Er.
    2:{ apply remove_spec_descend in Er. congruence. }
    pose proof (deref_descend _ _ _ _ _ Hnd (deref_self _) Et) as Hdt.
    rewrite (bind_Ok _ _ _ _ _ (update_Ok _ _ _ _ Hdt)).
    rewrite fmap_cons. cbn [rev].
    change (this_ <$> Some (root_ m)) with (Some (this_ (root_ m))).
    rewrite (remove_loop_at key m _ _ None t r' [] Hnd (deref_self _) Hwf Et Er).
    rewrite modify_self. cbn [remove_loop].
    assert (Hd : deref (this_ (root_ m)) r' = Some r').
    { rewrite <- (remove_spec_this _ _ _ Er). apply deref_self. }
    rewrite (bind_Ok _ _ _ _ _ (load_Ok _ (mkMem _ _) _ Hd)).
    unfold hasParent. rewrite (remove_spec_parent _ _ _ Er), (wf_node_parent _ _ Hwf).
    cbn [negb default]. by rewrite orb_true_r.
  - apply remove_spec_descend in Et. rewrite Et. cbn [default]. by rewrite Mem_eta.
Qed.

(** ** Children by letter *)

Lemma scan_key_at par n i x :
  wf_node par n -> children_ n !! i = Some (Some x) ->
  scan_key (key_ x) (children_ n) = Some x.
Proof.
  intros Hwf Hi. destruct (scan_key (key_ x) (children_ n)) as [y|] eqn:E.
  - apply scan_key_Some in E as (j & Hj & Hk).
    pose proof (wf_node_slot _ _ _ _ Hwf Hi) as Hsi.
    pose proof (wf_node_slot _ _ _ _ Hwf Hj) as Hsj.
    rewrite Hk, Hsi in Hsj. apply Nat2Z.inj in Hsj as ->. by simplify_eq.
  - by destruct (scan_key_None _ _ _ _ E Hi).
Qed.

(** Two arrays that differ in one slot, which holds the letter [c] or nothing,
    answer alike for every other letter. *)
Lemma scan_key_frame par n n2 i (c c' : ascii) :
  wf_node par n -> wf_node par n2 ->
  (forall j, j <> i -> children_ n2 !! j = children_ n !! j) ->
  (forall x, children_ n !! i = Some (Some x) -> key_ x = c) ->
  (forall x, children_ n2 !! i = Some (Some x) -> key_ x = c) ->
  c' <> c ->
  scan_key c' (children_ n2) = scan_key c' (children_ n).
Proof.
  intros Hwf Hwf2 Hsame Hi Hi2 Hne.
  assert (Hdir : forall n1 n2 par, wf_node par n1 -> wf_node par n2 ->
    (forall j, j <> i -> children_ n2 !! j = children_ n1 !! j) ->
    (forall x, children_ n1 !! i = Some (Some x) -> key_ x = c) ->
    forall z, scan_key c' (children_ n1) = Some z -> scan_key c' (children_ n2) = Some z).
  { clear - Hne. intros n1 n2 par Hwf1 Hwf2 Hsame Hi z (j & Hj & Hk)%scan_key_Some.
    rewrite <- Hk. eapply scan_key_at; [done|]. rewrite Hsame; [done|].
    intros ->. specialize (Hi _ Hj). congruence. }
  destruct (scan_key c' (children_ n)) as [z|] eqn:E.
  - eapply Hdir; eauto.
  - destruct (scan_key c' (children_ n2)) as [z|] eqn:E2; [|done].
    eapply (Hdir n2 n) in E2; eauto. { congruence. } intros j Hj. by rewrite Hsame.
Qed.

Lemma lookup_String n (c : ascii) key :
  lookup n (String c key) =
  match scan_key c (children_ n) with Some x => lookup x key | None => None end.
Proof. unfold lookup. simpl. by destruct (scan_key c (children_ n)). Qed.

Lemma scan_key_new a par (c c' : ascii) :
  scan_key c' (children_ (with_key (Node_new (Value:=Value) a par) c)) = None.
Proof.
  destruct (scan_key _ _) as [x|] eqn:E; [|done].
  apply scan_key_Some in E as (i & Hi & _). simpl in Hi.
  by apply lookup_replicate_None in Hi.
Qed.

Lemma lookup_new a par (c : ascii) key :
  lookup (with_key (Node_new (Value:=Value) a par) c) key = None.
Proof. destruct key as [|c' key]; [done|]. by rewrite lookup_String, scan_key_new. Qed.

(** ** Insertion, structurally *)

(** One letter of [insert_at]: the child the walk goes through, old or new. *)
Lemma insert_at_String `{!AlphabetRange} n par (c : ascii) key (v : Value) b n' r b' :
  wf_node par n -> isInAlphabet c = true ->
  insert_at n (String c key) v b = (n', r, b') ->
  exists x b1 x',
    insert_at x key v b1 = (x', r, b') /\
    n' = with_children n (<[slot c := Some x']> (children_ n)) /\
    wf_node (Some (this_ n)) x /\ key_ x = c /\
    ((scan_key c (children_ n) = Some x /\ children_ n !! slot c = Some (Some x) /\ b1 = b) \/
     (scan_key c (children_ n) = None /\
      x = with_key (Node_new b (Some (this_ n))) c /\ b1 = S b)).
Proof.
  intros Hwf Hc. cbn [insert_at].
  destruct (scan_key c (children_ n)) as [x|] eqn:E.
  - destruct (insert_at x key v b) as [[x' r0] b0] eqn:Ex. intros [= <- <- <-].
    destruct (scan_key_slot _ _ _ _ Hwf E) as [Hx Hk].
    exists x, b, x'. split; [done|]. split; [done|].
    split; [by eapply wf_node_child|]. split; [done|]. by left.
  - destruct (insert_at _ key v (S b)) as [[x' r0] b0] eqn:Ex. intros [= <- <- <-].
    eexists _, (S b), x'. split; [exact Ex|]. split; [done|].
    split; [apply wf_node_new|]. split; [done|]. by right.
Qed.

Lemma insert_at_shape key (v : Value) n b n' r b' :
  insert_at n key v b = (n', r, b') ->
  this_ n' = this_ n /\ key_ n' = key_ n /\ parent_ n' = parent_ n.
Proof.
  destruct key as [|c key]; cbn [insert_at].
  - by destruct (hasValue n); intros [= <- <- <-].
  - destruct (match scan_key c (children_ n) with Some x => _ | None => _ end) as [x b1].
    destruct (insert_at x key v b1) as [[x' r0] b0]. by intros [= <- <- <-].
Qed.

Lemma insert_at_wf `{!AlphabetRange} key (v : Value) n par b n' r b' :
  wf_node par n -> isKeyCorrect key = true ->
  insert_at n key v b = (n', r, b') -> wf_node par n'.
Proof.
  revert n par b n' r b'. induction key as [|c key IH]; intros n par b n' r b' Hwf Hkey.
  - cbn [insert_at]. destruct (hasValue n); intros [= <- <- <-]; [done|].
    by apply wf_node_with_value.
  - apply isKeyCorrect_String in Hkey as [Hc Hkey].
    intros (x & b1 & x' & Ex & -> & Hwx & Hk & _)%(insert_at_String _ par); [|done..].
    apply wf_node_insert; eauto.
    by destruct (insert_at_shape _ _ _ _ _ _ _ Ex) as (_ & -> & _).
Qed.

(** What the key maps to afterwards, and when a value was installed. *)
Lemma insert_at_lookup `{!AlphabetRange} key (v : Value) n par b n' r b' :
  wf_node par n -> isKeyCorrect key = true ->
  insert_at n key v b = (n', r, b') ->
  lookup n' key = Some (default v (lookup n key)) /\
  r = (if lookup n key is Some _ then false else true) /\
  (r = false -> n' = n /\ b' = b).
Proof.
  revert n par b n' r b'. induction key as [|c key IH]; intros n par b n' r b' Hwf Hkey.
  - cbn [insert_at]. unfold lookup, hasValue. cbn [descend].
    destruct (value_ n) eqn:E; intros [= <- <- <-]; by rewrite ?E.
  - apply isKeyCorrect_String in Hkey as [Hc Hkey]. intros Hins.
    pose proof (insert_at_wf _ _ _ _ _ _ _ _ Hwf
                  (proj2 (isKeyCorrect_String c key) (conj Hc Hkey)) Hins) as Hwf'.
    apply (insert_at_String _ par) in Hins
      as (x & b1 & x' & Ex & -> & Hwx & Hk & Hcase); [|done..].
    destruct (IH _ _ _ _ _ _ Hwx Hkey Ex) as (Hl & Hr & Hsame).
    destruct (insert_at_shape _ _ _ _ _ _ _ Ex) as (_ & Hk' & _).
    assert (Hs' : scan_key c (<[slot c := Some x']> (children_ n)) = Some x').
    { pose proof (scan_key_at _ _ (slot c) x' Hwf') as Hs.
      cbn [with_children children_] in Hs. rewrite Hk', Hk in Hs.
      apply Hs, list_lookup_insert_eq. by eapply slot_lt. }
    rewrite !lookup_String. cbn [with_children children_]. rewrite Hs'.
    destruct Hcase as [(Es & Hx & ->) | (Es & -> & ->)]; rewrite Es.
    + split; [done|]. split; [done|]. intros Hf.
      destruct (Hsame Hf) as [-> ->]. split; [|done].
      unfold with_children. rewrite list_insert_id by done. by destruct n.
    + rewrite lookup_new in Hl, Hr. split; [done|]. split; [done|]. by subst r.
Qed.

Lemma addrs_with_value n v : addrs (with_value n v) = addrs n.
Proof. by rewrite !addrs_eq. Qed.

Lemma insert_at_addrs `{!AlphabetRange} key (v : Value) n par b n' r b' :
  wf_node par n -> isKeyCorrect key = true ->
  insert_at n key v b = (n', r, b') ->
  NoDup (addrs n) -> Forall (fun y : addr => y < b) (addrs n) ->
  b <= b' /\ NoDup (addrs n') /\
  forall y : addr, y ∈ addrs n' -> y ∈ addrs n \/ b <= y < b'.
Proof.
  revert n par b n' r b'. induction key as [|c key IH]; intros n par b n' r b' Hwf Hkey.
  - cbn [insert_at]. destruct (hasValue n); intros [= <- <- <-] Hnd Hb.
    + auto.
    + unfold setValue. rewrite addrs_with_value. auto.
  - apply isKeyCorrect_String in Hkey as [Hc Hkey].
    intros (x & b1 & x' & Ex & -> & Hwx & Hk & Hcase)%(insert_at_String _ par) Hnd Hb;
      [|done..].
    rewrite Forall_forall in Hb.
    pose proof (slot_lt _ _ c Hwf Hc) as Hlt.
    destruct (lookup_lt_is_Some_2 _ _ Hlt) as [o' Ho'].
    assert (Hx : NoDup (addrs x) /\ Forall (fun y : addr => y < b1) (addrs x) /\ b <= b1 /\
                 forall y : addr, y ∈ addrs x -> y ∈ caddrs [o'] \/ y ∉ addrs n).
    { destruct Hcase as [(Es & Hx & ->) | (Es & -> & ->)].
      - split; [by eapply NoDup_child|]. split; [|split; [lia|]].
        + apply Forall_forall. intros y Hy. eapply Hb, child_in_addrs; eauto.
        + intros y Hy. left. rewrite Hx in Ho'. injection Ho' as <-. by rewrite caddrs_one.
      - rewrite addrs_Node_new. split; [apply NoDup_singleton|].
        split; [|split; [lia|]].
        + apply Forall_singleton. lia.
        + intros y ->%list_elem_of_singleton. right. intros Hin%Hb. lia. }
    destruct Hx as (Hndx & Hbx & Hle & Hfrx).
    destruct (IH _ _ _ _ _ _ Hwx Hkey Ex Hndx Hbx) as (Hle' & Hndx' & Hin').
    split; [lia|]. split.
    + eapply NoDup_addrs_insert; eauto.
      * by rewrite caddrs_one.
      * intros y. rewrite caddrs_one. intros [Hy | Hy]%Hin'; [by apply Hfrx|].
        right. intros Hin%Hb. lia.
    + intros y [Hy | Hy]%elem_of_addrs_insert; [by left | | done].
      rewrite caddrs_one in Hy. apply Hin' in Hy as [Hy | Hy]; [|right; lia].
      destruct (Hfrx _ Hy) as [Hy' | Hy'].
      * left. rewrite addrs_eq. apply elem_of_cons. right.
        rewrite (caddrs_split _ _ _ Ho'), !elem_of_app. auto.
      * destruct Hcase as [(Es & Hx & ->) | (Es & -> & ->)].
        -- left. eapply child_in_addrs; eauto.
        -- rewrite addrs_Node_new in Hy. apply list_elem_of_singleton in Hy. right. lia.
Qed.

(** ** The pruning invariant *)

Lemma pruned_kept n i x :
  pruned n -> children_ n !! i = Some (Some x) -> (hasValue x || hasChildren x)%bool = true.
Proof. inversion 1; eauto. Qed.

Lemma pruned_child n i x : pruned n -> children_ n !! i = Some (Some x) -> pruned x.
Proof. inversion 1; eauto. Qed.

Lemma pruned_with_value n v : pruned n -> pruned (with_value n v).
Proof. inversion 1; subst. by constructor. Qed.

Lemma pruned_new a par (c : ascii) : pruned (with_key (Node_new (Value:=Value) a par) c).
Proof. constructor; simpl; by intros i x ?%lookup_replicate_None. Qed.

Lemma pruned_insert n i x :
  pruned n -> pruned x -> (hasValue x || hasChildren x)%bool = true ->
  pruned (with_children n (<[i := Some x]> (children_ n))).
Proof.
  intros Hn Hx Hk. constructor; cbn [with_children children_]; intros j y Hj.
  - destruct (decide (j = i)) as [->|Hne].
    + pose proof (lookup_lt_Some _ _ _ Hj) as Hlt. rewrite length_insert in Hlt.
      rewrite list_lookup_insert_eq in Hj by done. by injection Hj as <-.
    + rewrite list_lookup_insert_ne in Hj by done. exact (pruned_kept _ _ _ Hn Hj).
  - destruct (decide (j = i)) as [->|Hne].
    + pose proof (lookup_lt_Some _ _ _ Hj) as Hlt. rewrite length_insert in Hlt.
      rewrite list_lookup_insert_eq in Hj by done. by injection Hj as <-.
    + rewrite list_lookup_insert_ne in Hj by done. exact (pruned_child _ _ _ Hn Hj).
Qed.

Lemma pruned_remove n i :
  pruned n -> pruned (with_children n (<[i := None]> (children_ n))).
Proof.
  intros Hn. constructor; cbn [with_children children_]; intros j y Hj.
  - destruct (decide (j = i)) as [->|Hne].
    + pose proof (lookup_lt_Some _ _ _ Hj) as Hlt. rewrite length_insert in Hlt.
      by rewrite list_lookup_insert_eq in Hj.
    + rewrite list_lookup_insert_ne in Hj by done. exact (pruned_kept _ _ _ Hn Hj).
  - destruct (decide (j = i)) as [->|Hne].
    + pose proof (lookup_lt_Some _ _ _ Hj) as Hlt. rewrite length_insert in Hlt.
      by rewrite list_lookup_insert_eq in Hj.
    + rewrite list_lookup_insert_ne in Hj by done. exact (pruned_child _ _ _ Hn Hj).
Qed.

Lemma insert_at_pruned `{!AlphabetRange} key (v : Value) n par b n' r b' :
  wf_node par n -> isKeyCorrect key = true ->
  insert_at n key v b = (n', r, b') -> pruned n ->
  pruned n' /\ (hasValue n' || hasChildren n')%bool = true.
Proof.
  revert n par b n' r b'. induction key as [|c key IH]; intros n par b n' r b' Hwf Hkey.
  - cbn [insert_at]. destruct (hasValue n) eqn:E; intros [= <- <- <-] Hp.
    + by rewrite E.
    + split; [by apply pruned_with_value | done].
  - apply isKeyCorrect_String in Hkey as [Hc Hkey].
    intros (x & b1 & x' & Ex & -> & Hwx & Hk & Hcase)%(insert_at_String _ par) Hp;
      [|done..].
    assert (Hpx : pruned x).
    { destruct Hcase as [(Es & Hx & ->) | (Es & -> & ->)];
        [by eapply pruned_child | apply pruned_new]. }
    destruct (IH _ _ _ _ _ _ Hwx Hkey Ex Hpx) as [Hpx' Hkx'].
    split; [by apply pruned_insert|].
    unfold hasChildren at 1. cbn [with_children children_].
    rewrite (any_child_lookup _ (slot c) x'); [apply orb_true_r|].
    apply list_lookup_insert_eq. by eapply slot_lt.
Qed.

(** Insertion gives no other key a value. *)
Lemma insert_at_other `{!AlphabetRange} key (v : Value) n par b n' r b' key' w :
  wf_node par n -> isKeyCorrect key = true ->
  insert_at n key v b = (n', r, b') ->
  key' <> key -> lookup n' key' = Some w -> lookup n key' = Some w.
Proof.
  revert n par b n' r b' key'.
  induction key as [|c key IH]; intros n par b n' r b' key' Hwf Hkey.
  - cbn [insert_at]. destruct key' as [|c' key']; [done|].
    by destruct (hasValue n); intros [= <- <- <-] _.
  - apply isKeyCorrect_String in Hkey as [Hc Hkey]. intros Hins.
    pose proof (insert_at_wf _ _ _ _ _ _ _ _ Hwf
                  (proj2 (isKeyCorrect_String c key) (conj Hc Hkey)) Hins) as Hwf'.
    apply (insert_at_String _ par) in Hins
      as (x & b1 & x' & Ex & -> & Hwx & Hk & Hcase); [|done..].
    destruct (insert_at_shape _ _ _ _ _ _ _ Ex) as (_ & Hk' & _).
    pose proof (slot_lt _ _ c Hwf Hc) as Hlt.
    assert (Hx' : children_ (with_children n (<[slot c := Some x']> (children_ n))) !! slot c
                  = Some (Some x')).
    { cbn [with_children children_]. by apply list_lookup_insert_eq. }
    destruct key' as [|c' key']; [done|]. intros Hne.
    rewrite !lookup_String.
    destruct (Ascii.eqb_spec c' c) as [->|Hcc].
    + pose proof (scan_key_at _ _ _ _ Hwf' Hx') as Hs. rewrite Hk', Hk in Hs. rewrite Hs.
      assert (Hne' : key' <> key) by (by intros ->).
      intros Hl. apply (IH _ _ _ _ _ _ _ Hwx Hkey Ex Hne') in Hl.
      destruct Hcase as [(Es & Hx & ->) | (Es & -> & ->)].
      * by rewrite Es.
      * by rewrite lookup_new in Hl.
    + destruct (scan_key c' (children_ (with_children n _))) as [z|] eqn:Ez; [|done].
      apply scan_key_Some in Ez as (j & Hj & Hkz). intros Hl.
      assert (j <> slot c).
      { intros ->. rewrite Hx' in Hj. injection Hj as <-. congruence. }
      cbn [with_children children_] in Hj. rewrite list_lookup_insert_ne in Hj by done.
      pose proof (scan_key_at _ _ _ _ Hwf Hj) as Hs. rewrite Hkz in Hs. by rewrite Hs.
Qed.

End Pointers.

Section Removal.

Context {Value : Type} `{Alphabet}.

Implicit Types (n x c : Node Value) (cs : list (option (Node Value))).
Implicit Types (a p b : addr) (m : Mem Value) (key : string).

(** ** Removal, structurally *)

Lemma remove_spec_key n key n' : remove_spec n key = Some n' -> key_ n' = key_ n.
Proof.
  destruct key as [|c key]; simpl; [by intros [= <-]|].
  destruct (scan_key c (children_ n)); [|done].
  destruct (remove_spec _ key) as [x'|]; [|done].
  by destruct (hasValue x' || hasChildren x'); intros [= <-].
Qed.

(** One letter of [remove_spec]. *)
Lemma remove_spec_String n par (c : ascii) key n' :
  wf_node par n -> remove_spec n (String c key) = Some n' ->
  exists x x',
    scan_key c (children_ n) = Some x /\ children_ n !! slot c = Some (Some x) /\
    key_ x = c /\ remove_spec x key = Some x' /\
    n' = with_children n
           (<[slot c := if (hasValue x' || hasChildren x')%bool then Some x' else None]>
              (children_ n)).
Proof.
  intros Hwf. cbn [remove_spec].
  destruct (scan_key c (children_ n)) as [x|] eqn:E; [|done].
  destruct (remove_spec x key) as [x'|] eqn:Ex; [|done].
  destruct (scan_key_slot _ _ _ _ Hwf E) as [Hx Hk]. intros Hn'.
  exists x, x'. split; [done|]. split; [done|]. split; [done|]. split; [done|].
  destruct (hasValue x' || hasChildren x'); by injection Hn' as <-.
Qed.

Lemma isInAlphabet_slot par n i x :
  wf_node par n -> children_ n !! i = Some (Some x) -> isInAlphabet (key_ x) = true.
Proof.
  intros Hwf Hi. apply isInAlphabet_true. rewrite (wf_node_slot _ _ _ _ Hwf Hi). lia.
Qed.

Lemma remove_spec_wf `{!AlphabetRange} key n par n' :
  wf_node par n -> remove_spec n key = Some n' -> wf_node par n'.
Proof.
  revert n par n'. induction key as [|c key IH]; intros n par n' Hwf.
  - intros [= <-]. by apply wf_node_with_value.
  - intros (x & x' & Es & Hx & Hk & Ex & ->)%(remove_spec_String _ par); [|done].
    destruct (hasValue x' || hasChildren x').
    + apply wf_node_insert; [done| | |].
      * rewrite <- Hk. by eapply isInAlphabet_slot.
      * by rewrite (remove_spec_key _ _ _ Ex).
      * exact (IH _ _ _ (wf_node_child _ _ _ _ Hwf Hx) Ex).
    + by apply wf_node_remove.
Qed.

Lemma lookup_leaf n key :
  hasValue n = false -> hasChildren n = false -> lookup n key = None.
Proof.
  intros Hv Hc. destruct key as [|c key].
  - unfold lookup, hasValue in *. simpl. by destruct (value_ n).
  - rewrite lookup_String. destruct (scan_key c (children_ n)) as [x|] eqn:E; [|done].
    apply scan_key_Some in E as (i & Hi & _).
    unfold hasChildren in Hc. by rewrite (any_child_lookup _ _ _ Hi) in Hc.
Qed.

(** The removed key maps to nothing; every other key maps to what it mapped
    to. *)
Lemma remove_spec_lookup `{!AlphabetRange} key n par n' key' :
  wf_node par n -> remove_spec n key = Some n' ->
  lookup n' key' = if String.eqb key' key then None else lookup n key'.
Proof.
  revert n par n' key'. induction key as [|c key IH]; intros n par n' key' Hwf.
  - intros [= <-]. destruct key' as [|c' key']; [done|].
    cbn [String.eqb]. by rewrite !lookup_String.
  - intros Hrem. pose proof (remove_spec_wf _ _ _ _ Hwf Hrem) as Hwf'.
    apply (remove_spec_String _ par) in Hrem as (x & x' & Es & Hx & Hk & Ex & ->); [|done].
    pose proof (wf_node_child _ _ _ _ Hwf Hx) as Hwx.
    pose proof (lookup_lt_Some _ _ _ Hx) as Hlt.
    destruct key' as [|c' key']; [done|].
    rewrite !lookup_String. cbn [String.eqb].
    destruct (Ascii.eqb_spec c' c) as [->|Hcc].
    + rewrite Es. specialize (IH _ _ _ key' Hwx Ex).
      destruct (hasValue x' || hasChildren x') eqn:Ekeep.
      * assert (Hs : scan_key c (children_ (with_children n (<[slot c := Some x']> (children_ n))))
                     = Some x').
        { pose proof (scan_key_at _ _ (slot c) x' Hwf') as Hs.
          rewrite (remove_spec_key _ _ _ Ex), Hk in Hs. apply Hs.
          cbn [with_children children_]. by apply list_lookup_insert_eq. }
        cbn [with_children children_] in Hs |- *. by rewrite Hs, IH.
      * apply orb_false_elim in Ekeep as [Hv Hc].
        rewrite (lookup_leaf _ _ Hv Hc) in IH.
        destruct (scan_key c (children_ (with_children n _))) as [z|] eqn:Ez.
        { apply scan_key_Some in Ez as (j & Hj & Hkz).
          pose proof (wf_node_slot _ _ _ _ Hwf' Hj) as Hsj.
          assert (j = slot c) as ->.
          { unfold slot. rewrite <- Hkz, Hsj. by rewrite Nat2Z.id. }
          cbn [with_children children_] in Hj. by rewrite list_lookup_insert_eq in Hj. }
        by destruct (String.eqb key' key).
    + rewrite (scan_key_frame par n _ (slot c) c c'); [done|done|done| | | |done].
      * intros j Hj. cbn [with_children children_]. by rewrite list_lookup_insert_ne.
      * intros z Hz. rewrite Hx in Hz. by injection Hz as <-.
      * intros z. cbn [with_children children_]. rewrite list_lookup_insert_eq by done.
        destruct (hasValue x' || hasChildren x'); [|done].
        intros [= <-]. by rewrite (remove_spec_key _ _ _ Ex).
Qed.

Lemma remove_spec_addrs key n par n' :
  wf_node par n -> remove_spec n key = Some n' -> NoDup (addrs n) ->
  NoDup (addrs n') /\ forall y : addr, y ∈ addrs n' -> y ∈ addrs n.
Proof.
  revert n par n'. induction key as [|c key IH]; intros n par n' Hwf.
  - intros [= <-] Hnd. unfold removeValue. by rewrite addrs_with_value.
  - intros (x & x' & Es & Hx & Hk & Ex & ->)%(remove_spec_String _ par) Hnd; [|done].
    destruct (IH _ _ _ (wf_node_child _ _ _ _ Hwf Hx) Ex (NoDup_child _ _ _ Hnd Hx))
      as [Hndx Hsub].
    pose proof (lookup_lt_Some _ _ _ Hx) as Hlt.
    assert (Hin : forall y : addr,
              y ∈ caddrs [if (hasValue x' || hasChildren x')%bool then Some x' else None] ->
              y ∈ addrs x).
    { intros y. destruct (hasValue x' || hasChildren x').
      - rewrite caddrs_one. apply Hsub.
      - by intros ?%elem_of_nil. }
    split.
    + eapply NoDup_addrs_insert; eauto.
      * destruct (hasValue x' || hasChildren x'); [by rewrite caddrs_one | apply NoDup_nil_2].
      * intros y Hy%Hin. left. by rewrite caddrs_one.
    + intros y [Hy | Hy%Hin]%elem_of_addrs_insert; [done | | done].
      eapply child_in_addrs; eauto.
Qed.

Lemma remove_spec_pruned key n par n' :
  wf_node par n -> remove_spec n key = Some n' -> pruned n -> pruned n'.
Proof.
  revert n par n'. induction key as [|c key IH]; intros n par n' Hwf.
  - intros [= <-] Hp. by apply pruned_with_value.
  - intros (x & x' & Es & Hx & Hk & Ex & ->)%(remove_spec_String _ par) Hp; [|done].
    destruct (hasValue x' || hasChildren x') eqn:Ekeep.
    + apply pruned_insert; [done| |done].
      exact (IH _ _ _ (wf_node_child _ _ _ _ Hwf Hx) Ex (pruned_child _ _ _ Hp Hx)).
    + by apply pruned_remove.
Qed.

Lemma with_value_id n : with_value n (value_ n) = n.
Proof. by destruct n. Qed.

(** On a pruned trie, removing a key that maps to nothing changes nothing. *)
Lemma remove_spec_noop key n par n' :
  wf_node par n -> pruned n -> lookup n key = None ->
  remove_spec n key = Some n' -> n' = n.
Proof.
  revert n par n'. induction key as [|c key IH]; intros n par n' Hwf Hp.
  - unfold lookup. cbn [descend]. intros Hv [= <-].
    unfold removeValue. rewrite <- Hv. apply with_value_id.
  - rewrite lookup_String.
    intros Hl (x & x' & Es & Hx & Hk & Ex & ->)%(remove_spec_String _ par); [|done].
    rewrite Es in Hl.
    rewrite (IH _ _ _ (wf_node_child _ _ _ _ Hwf Hx) (pruned_child _ _ _ Hp Hx) Hl Ex).
    rewrite (pruned_kept _ _ _ Hp Hx), list_insert_id by done.
    apply with_children_id.
Qed.

(** ** States *)

Lemma wf_Trie_new `{!AlphabetRange} a : wf (Trie_new (Value:=Value) a).
Proof.
  pose proof (addrs_Node_new (Value:=Value) a None zero) as Ha.
  change (with_key (Node_new a None) zero) with (Node_new (Value:=Value) a None) in Ha.
  split; cbn [Trie_new root_ brk]; rewrite ?Ha.
  - apply (wf_node_new (Value:=Value) a None zero).
  - apply NoDup_singleton.
  - apply Forall_singleton. lia.
  - apply (pruned_new (Value:=Value) a None zero).
Qed.

Lemma insert_Ok `{!AlphabetRange} key (v : Value) m :
  wf m -> isKeyCorrect key = true ->
  exists r' b',
    insert_at (root_ m) key v (brk m) =
      (r', if lookup (root_ m) key is Some _ then false else true, b') /\
    insert key v m = Ok (if lookup (root_ m) key is Some _ then false else true)
                        (mkMem r' b') /\
    wf (mkMem r' b') /\
    lookup r' key = Some (default v (lookup (root_ m) key)) /\
    (is_Some (lookup (root_ m) key) -> mkMem r' b' = m).
Proof.
  intros [Hwf Hnd Hb Hp] Hkey.
  rewrite (insert_insert_at key v m Hnd Hb Hwf Hkey).
  destruct (insert_at (root_ m) key v (brk m)) as [[r' installed] b'] eqn:E.
  destruct (insert_at_lookup _ _ _ _ _ _ _ _ Hwf Hkey E) as (Hl & -> & Hsame).
  destruct (insert_at_addrs _ _ _ _ _ _ _ _ Hwf Hkey E Hnd Hb) as (Hle & Hnd' & Hin).
  exists r', b'. split; [done|]. split; [done|]. split; [|split; [done|]].
  - split; cbn [root_ brk].
    + by eapply insert_at_wf.
    + done.
    + apply Forall_forall. intros y [Hy | Hy]%Hin; [|lia].
      rewrite Forall_forall in Hb. specialize (Hb y Hy). lia.
    + by eapply insert_at_pruned.
  - intros [w Hw]. rewrite Hw in Hsame. destruct (Hsame eq_refl) as [-> ->].
    apply Mem_eta.
Qed.

Lemma remove_Ok `{!AlphabetRange} key m :
  wf m -> isKeyCorrect key = true ->
  remove key m = Ok tt (mkMem (default (root_ m) (remove_spec (root_ m) key)) (brk m)) /\
  wf (mkMem (default (root_ m) (remove_spec (root_ m) key)) (brk m)).
Proof.
  intros [Hwf Hnd Hb Hp] Hkey. split; [by apply remove_remove_spec|].
  destruct (remove_spec (root_ m) key) as [r'|] eqn:E; cbn [default]; [|done].
  destruct (remove_spec_addrs _ _ _ _ Hwf E Hnd) as [Hnd' Hsub].
  split; cbn [root_ brk].
  - by eapply remove_spec_wf.
  - done.
  - apply Forall_forall. intros y Hy%Hsub. rewrite Forall_forall in Hb. by apply Hb.
  - by eapply remove_spec_pruned.
Qed.

End Removal.

Section Reading.

Context {Value : Type} `{Alphabet}.

Implicit Types (n x c : Node Value) (cs : list (option (Node Value))).
Implicit Types (a p b : addr) (m : Mem Value) (key : string).

(** ** Enumeration *)

Lemma getItems_eq n (acc : ItemList Value * string) :
  getItems n acc =
  bind (getItems_in (children_ n)
          (match value n with
           | Some v => fst acc ++ [(if hasParent n
                                    then String.append (snd acc) (String (key_ n) EmptyString)
                                    else snd acc, v)]
           | None => fst acc
           end,
           if hasParent n then String.append (snd acc) (String (key_ n) EmptyString)
           else snd acc))
       (fun acc' => match pop_back (snd acc') with
                    | Some key' => ret (fst acc', key')
                    | None => undef pop_back_empty
                    end).
Proof. destruct n; reflexivity. Qed.

Lemma pop_back_snoc (s : string) (c : ascii) :
  pop_back (String.append s (String c EmptyString)) = Some s.
Proof.
  induction s as [|a s IH]; [done|]. cbn [String.append pop_back]. rewrite IH.
  by destruct s.
Qed.

Lemma getItems_in_Ok cs m :
  (forall i c, cs !! i = Some (Some c) ->
     forall its key, exists its', getItems c (its, key) m = Ok (its', key) m) ->
  forall its key, exists its', getItems_in cs (its, key) m = Ok (its', key) m.
Proof.
  induction cs as [|[c|] cs IH]; intros Hc its key; cbn [getItems_in].
  - by exists its.
  - destruct (Hc 0 c eq_refl its key) as [its1 E1]. rewrite (bind_Ok _ _ _ _ _ E1).
    apply IH. intros i. apply (Hc (S i)).
  - apply IH. intros i. apply (Hc (S i)).
Qed.

(** Below the root every call leaves the accumulator as it found it. *)
Lemma getItems_child n par m :
  wf_node (Some par) n ->
  forall its key, exists its', getItems n (its, key) m = Ok (its', key) m.
Proof.
  revert par. induction n as [n IH] using Node_induction. intros par Hwf its key.
  rewrite getItems_eq. unfold hasParent. rewrite (wf_node_parent _ _ Hwf). cbn [fst snd].
  edestruct (getItems_in_Ok (children_ n) m) as [its' E].
  { intros i c Hi. eapply IH; eauto using wf_node_child. }
  rewrite (bind_Ok _ _ _ _ _ E). cbn [fst snd]. rewrite pop_back_snoc. by eexists.
Qed.

(** ** Paths *)

Lemma walk_length n key : length (walk n key) <= String.length key.
Proof.
  revert n. induction key as [|c key IH]; intros n; cbn [walk String.length length]; [lia|].
  destruct (scan_key c (children_ n)) as [x|]; cbn [length]; [|lia].
  specialize (IH x). lia.
Qed.

Lemma walk_descend_Some n key x :
  descend n key = Some x -> length (walk n key) = String.length key.
Proof.
  revert n. induction key as [|c key IH]; intros n; cbn [walk descend String.length]; [done|].
  destruct (scan_key c (children_ n)) as [y|]; [|done].
  intros Hx. cbn [length]. by rewrite (IH _ Hx).
Qed.

(** ** Nodes and the keys below them *)

Lemma descend_app n key key' :
  descend n (String.append key key') =
  match descend n key with Some x => descend x key' | None => None end.
Proof.
  revert n. induction key as [|c key IH]; intros n; [done|].
  cbn [String.append descend]. by destruct (scan_key c (children_ n)).
Qed.

Lemma lookup_app n key key' x :
  descend n key = Some x -> lookup n (String.append key key') = lookup x key'.
Proof. intros Hx. unfold lookup. by rewrite descend_app, Hx. Qed.

Lemma descend_kept n par key x :
  wf_node par n -> pruned n -> descend n key = Some x -> key <> EmptyString ->
  (hasValue x || hasChildren x)%bool = true /\ pruned x /\ exists q, wf_node q x.
Proof.
  revert n par. induction key as [|c key IH]; intros n par Hwf Hp; [done|].
  cbn [descend]. destruct (scan_key c (children_ n)) as [y|] eqn:E; [|done].
  destruct (scan_key_slot _ _ _ _ Hwf E) as [Hy _]. intros Hx _.
  pose proof (wf_node_child _ _ _ _ Hwf Hy) as Hwy.
  pose proof (pruned_child _ _ _ Hp Hy) as Hpy.
  destruct key as [|c' key].
  - injection Hx as <-. split; [exact (pruned_kept _ _ _ Hp Hy)|]. split; [done|].
    by eexists.
  - by apply (IH y _ Hwy Hpy Hx).
Qed.

Lemma any_child_true cs : any_child cs = true -> exists i x, cs !! i = Some (Some x).
Proof.
  induction cs as [|[y|] cs IH]; cbn [any_child]; [done| |].
  - intros _. by exists 0, y.
  - intros (i & x & Hi)%IH. by exists (S i), x.
Qed.

(** On a pruned trie a node that is kept has a key with a value below it. *)
Lemma valued_below n par :
  wf_node par n -> pruned n -> (hasValue n || hasChildren n)%bool = true ->
  exists key w, lookup n key = Some w.
Proof.
  revert par. induction n as [n IH] using Node_induction. intros par Hwf Hp Hk.
  destruct (value_ n) as [w|] eqn:Ev.
  - exists EmptyString, w. unfold lookup. by cbn [descend].
  - unfold hasValue in Hk. rewrite Ev in Hk. cbn [orb] in Hk.
    apply any_child_true in Hk as (i & x & Hi).
    destruct (IH i x Hi _ (wf_node_child _ _ _ _ Hwf Hi) (pruned_child _ _ _ Hp Hi)
                (pruned_kept _ _ _ Hp Hi)) as (key & w & Hl).
    exists (String (key_ x) key), w.
    by rewrite lookup_String, (scan_key_at _ _ _ _ Hwf Hi).
Qed.

(** A pruned trie in which no key has a value is empty. *)
Lemma no_value_no_child n par :
  wf_node par n -> pruned n -> (forall key, lookup n key = None) ->
  hasValue n = false /\ hasChildren n = false.
Proof.
  intros Hwf Hp Hnone. split.
  - specialize (Hnone EmptyString). unfold lookup in Hnone. cbn [descend] in Hnone.
    unfold hasValue. by rewrite Hnone.
  - destruct (hasChildren n) eqn:E; [|done].
    destruct (valued_below _ _ Hwf Hp) as (key & w & Hl); [by rewrite E, orb_true_r|].
    by rewrite Hnone in Hl.
Qed.

Lemma empty_Ok m :
  empty m = Ok (negb (hasValue (root_ m) || hasChildren (root_ m))) m.
Proof.
  unfold empty, root_addr, bind at 1.
  by rewrite (bind_Ok _ _ _ _ _ (load_Ok _ _ _ (deref_self _))).
Qed.

End Reading.

(** ** The public mutators keep the invariants *)

Section Invariant.

Context {Value : Type} `{Alphabet}.

Implicit Types (m : Mem Value) (key : string) (v : Value).

Lemma caddrs_all_None (cs : list (option (Node Value))) :
  caddrs (map (fun _ : option (Node Value) => @None (Node Value)) cs) = [].
Proof. induction cs; simpl; auto. Qed.

Lemma lookup_all_None (cs : list (option (Node Value))) i (x : Node Value) :
  map (fun _ : option (Node Value) => @None (Node Value)) cs !! i <> Some (Some x).
Proof.
  revert i. induction cs as [|o cs IH]; intros i; [by destruct i|].
  destruct i; simpl; [done | apply IH].
Qed.

Lemma insert_preserves_wf `{!AlphabetRange} m key v installed m' :
  wf m -> isKeyCorrect key = true -> insert key v m = Ok installed m' -> wf m'.
Proof.
  intros Hwf Hkey Hins.
  destruct (insert_Ok key v m Hwf Hkey) as (r' & b' & _ & Hins' & Hwf' & _).
  rewrite Hins in Hins'. by injection Hins' as _ ->.
Qed.

Lemma remove_preserves_wf `{!AlphabetRange} m key m' :
  wf m -> isKeyCorrect key = true -> remove key m = Ok tt m' -> wf m'.
Proof.
  intros Hwf Hkey Hrem. destruct (remove_Ok key m Hwf Hkey) as [Hrem' Hwf'].
  rewrite Hrem in Hrem'. by injection Hrem' as ->.
Qed.

Lemma clear_preserves_wf m :
  wf m -> exists m', clear m = Ok tt m' /\ wf m'.
Proof.
  intros [Hwf Hnd Hb Hp]. unfold clear, root_addr, bind at 1.
  rewrite (bind_Ok _ _ _ _ _ (update_Ok _ _ _ _ (deref_self _))).
  cbn [root_ brk]. rewrite modify_self.
  rewrite (update_Ok _ _ (mkMem _ _) (removeChildren (root_ m)) (deref_self _)).
  cbn [root_ brk]. rewrite (modify_self removeValue (removeChildren (root_ m))).
  eexists. split; [done|].
  assert (Ha : addrs (removeValue (removeChildren (root_ m))) = [this_ (root_ m)]).
  { rewrite addrs_eq. cbn. by rewrite caddrs_all_None. }
  split; cbn [root_ brk]; rewrite ?Ha.
  - constructor; cbn.
    + by eapply wf_node_parent.
    + rewrite length_map. by eapply wf_node_length.
    + intros i c Hi. by destruct (lookup_all_None _ _ _ Hi).
    + intros i c Hi. by destruct (lookup_all_None _ _ _ Hi).
  - apply NoDup_singleton.
  - apply Forall_singleton. rewrite addrs_eq in Hb. by apply Forall_cons in Hb as [? _].
  - constructor; cbn; intros i c Hi; by destruct (lookup_all_None _ _ _ Hi).
Qed.

End Invariant.

(** * The claims *)

Section Claims.

Context {Value : Type} `{Alphabet}.

Implicit Types (m : Mem Value) (key : string) (v : Value).

Lemma search_wf m key :
  wf m -> isKeyCorrect key = true -> search key m = Ok (lookup (root_ m) key) m.
Proof. intros Hwf Hkey. apply search_lookup; [apply Hwf | done]. Qed.

Lemma at_wf m key :
  wf m -> isKeyCorrect key = true ->
  at_ key m = match lookup (root_ m) key with
              | Some v => Ok v m
              | None => Throw (out_of_range "Key not found!") m
              end.
Proof. intros Hwf Hkey. apply at_lookup; [apply Hwf | done]. Qed.

Lemma isKeyCorrect_false key (c : ascii) :
  In c (list_ascii_of_string key) -> Alphabet_ord c = (-1)%Z -> isKeyCorrect key = false.
Proof.
  induction key as [|c' key IH]; cbn [list_ascii_of_string In isKeyCorrect]; [done|].
  intros [-> | Hin] Hc.
  - unfold isInAlphabet. by rewrite Hc.
  - rewrite (IH Hin Hc). by destruct (isInAlphabet c').
Qed.

(** C1 (as amended).  For an alphabet-valid key on a trie state, [insert]
    returns; if the key mapped to no value before, [search] afterwards yields
    the inserted value, and if it already mapped to a value, [search] still
    yields that value. *)
Theorem insert_then_search `{!AlphabetRange} m key v :
  wf m -> isKeyCorrect key = true ->
  exists installed m',
    insert key v m = Ok installed m' /\ wf m' /\
    (search key m = Ok None m -> search key m' = Ok (Some v) m') /\
    (forall v0, search key m = Ok (Some v0) m -> search key m' = Ok (Some v0) m').
Proof.
  intros Hwf Hkey.
  destruct (insert_Ok key v m Hwf Hkey) as (r' & b' & _ & Hins & Hwf' & Hl & _).
  eexists _, _. split; [exact Hins|]. split; [done|].
  rewrite (search_wf _ _ Hwf Hkey), (search_wf _ _ Hwf' Hkey). cbn [root_]. rewrite Hl.
  split; intros; simplify_eq; destruct (lookup (root_ m) key); by simplify_eq.
Qed.

(** C2.  After [insert] has installed a value at a key, a second [insert]
    at that key returns false and changes nothing, and [search] yields the
    first value; [insert] returns true exactly when the key mapped to no
    value, and leaves the state as it was when the key mapped to one. *)
Theorem insert_no_overwrite `{!AlphabetRange} m key v1 v2 :
  wf m -> isKeyCorrect key = true ->
  exists installed m1,
    insert key v1 m = Ok installed m1 /\
    (installed = true <-> search key m = Ok None m) /\
    (forall v0, search key m = Ok (Some v0) m ->
       installed = false /\ m1 = m /\ search key m1 = Ok (Some v0) m1) /\
    (installed = true ->
       insert key v2 m1 = Ok false m1 /\
       search key m1 = Ok (Some v1) m1).
Proof.
  intros Hwf Hkey.
  destruct (insert_Ok key v1 m Hwf Hkey) as (r' & b' & _ & Hins & Hwf' & Hl & Hsame).
  destruct (insert_Ok key v2 _ Hwf' Hkey) as (r2 & b2 & _ & Hins2 & _ & _ & Hsame2).
  cbn [root_] in Hins2, Hsame2. rewrite Hl in Hins2.
  rewrite (Hsame2 (mk_is_Some _ _ Hl)) in Hins2.
  eexists _, _. split; [exact Hins|].
  rewrite (search_wf _ _ Hwf Hkey), (search_wf _ _ Hwf' Hkey). cbn [root_]. rewrite Hl.
  destruct (lookup (root_ m) key) as [v0|] eqn:E.
  - split; [split; [done | intros ?; simplify_eq]|]. split; [|done].
    intros w [= <-]. split; [done|]. split; [by apply Hsame | done].
  - split; [done|]. split; [intros w ?; simplify_eq|]. done.
Qed.

(** C4.  Removing an alphabet-valid key that maps to no value, because its
    path is missing or because its node holds no value, returns normally
    and leaves the state exactly as it was. *)
Theorem remove_absent_is_noop `{!AlphabetRange} m key :
  wf m -> isKeyCorrect key = true ->
  (descend (root_ m) key = None \/
   exists x, descend (root_ m) key = Some x /\ value_ x = None) ->
  remove key m = Ok tt m.
Proof.
  intros Hwf Hkey Habs. destruct (remove_Ok key m Hwf Hkey) as [-> _].
  assert (Hl : lookup (root_ m) key = None).
  { unfold lookup. by destruct Habs as [-> | (x & -> & ?)]. }
  destruct (remove_spec (root_ m) key) as [r'|] eqn:E; simpl.
  - rewrite (remove_spec_noop _ _ _ _ (wf_root _ Hwf) (wf_pruned _ Hwf) Hl E).
    by rewrite Mem_eta.
  - by rewrite Mem_eta.
Qed.

(** C5.  A key with a symbol outside the alphabet makes [search], [at],
    [insert], [remove] and [operator[]] throw the alphabet violation, and
    the state that comes with the exception is the state before the call. *)
Theorem invalid_key_throws `{!DefaultConstructible Value} m key v (c : ascii) :
  In c (list_ascii_of_string key) -> Alphabet_ord c = (-1)%Z ->
  search key m = Throw (out_of_range "Incorrect key") m /\
  at_ key m = Throw (out_of_range "Incorrect key") m /\
  insert key v m = Throw (out_of_range "Incorrect key") m /\
  remove key m = Throw (out_of_range "Incorrect key") m /\
  subscript key m = Throw (out_of_range "Incorrect key") m.
Proof.
  intros Hin Hc. pose proof (isKeyCorrect_false _ _ Hin Hc) as Hkey.
  unfold search, at_, insert, remove, subscript. by rewrite Hkey.
Qed.

(** C6.  For an alphabet-valid key, [at] throws "Key not found!" exactly
    when the key's path does not end in a node that holds a value, and
    returns the value otherwise; [search] returns null in the first case
    (and the value in the second) and does not throw. *)
Theorem at_throws_search_returns m key :
  wf m -> isKeyCorrect key = true ->
  (at_ key m = Throw (out_of_range "Key not found!") m <->
   ~ exists x v, descend (root_ m) key = Some x /\ value_ x = Some v) /\
  (forall x v, descend (root_ m) key = Some x -> value_ x = Some v ->
     at_ key m = Ok v m /\ search key m = Ok (Some v) m) /\
  ((~ exists x v, descend (root_ m) key = Some x /\ value_ x = Some v) ->
     search key m = Ok None m).
Proof.
  intros Hwf Hkey. rewrite (at_wf _ _ Hwf Hkey), (search_wf _ _ Hwf Hkey).
  unfold lookup. destruct (descend (root_ m) key) as [x|] eqn:E.
  - destruct (value_ x) as [v|] eqn:Ev.
    + split; [split; [done | intros []; eauto]|].
      split; [intros ? ? [= <-] ?; by simplify_eq | intros []; eauto].
    + split; [split; [intros _ (? & ? & [= <-] & ?); congruence | done]|].
      split; [intros ? ? [= <-] ?; congruence | done].
  - split; [split; [by intros _ (? & ? & ? & ?) | done]|]. split; [done | done].
Qed.

(** C7.  For an alphabet-valid key that maps to no value, [operator[]]
    installs a default-constructed value, returns it, and [search] then
    yields it; for a key that maps to a value it returns that value and
    leaves the state as it was. *)
Theorem subscript_inserts_default `{!AlphabetRange} `{!DefaultConstructible Value} m key :
  wf m -> isKeyCorrect key = true ->
  (search key m = Ok None m ->
     exists m', subscript key m = Ok Value_default m' /\
                search key m' = Ok (Some Value_default) m') /\
  (forall v, search key m = Ok (Some v) m -> subscript key m = Ok v m).
Proof.
  intros Hwf Hkey. unfold subscript. rewrite Hkey.
  rewrite (search_wf _ _ Hwf Hkey). unfold bind at 1 3.
  rewrite (search_wf _ _ Hwf Hkey).
  destruct (lookup (root_ m) key) as [v0|] eqn:E.
  - split; [done|]. by intros v [= <-].
  - split; [|done]. intros _.
    destruct (insert_Ok key Value_default m Hwf Hkey) as (r' & b' & _ & Hins & Hwf' & Hl & _).
    rewrite E in Hins, Hl. cbn [default] in Hl.
    rewrite (bind_Ok _ _ _ _ _ Hins). exists (mkMem r' b').
    rewrite (at_wf _ _ Hwf' Hkey), (search_wf _ _ Hwf' Hkey). cbn [root_]. by rewrite Hl.
Qed.

(** C9 (as amended).  [getPath] on a node of the trie returns the nodes
    visited, the receiver first.  The sequence never has more than
    [key.length()+1] elements; it ends in the null marker exactly when the
    key's node does not exist, and it has [key.length()+1] elements with a
    non-null last one exactly when the node exists.  A sequence shorter than
    [key.length()+1] means the node does not exist, but so does one of full
    length that ends in the marker. *)
Theorem getPath_shape m (a : addr) (n : Node Value) key :
  wf m -> deref a (root_ m) = Some n -> isKeyCorrect key = true ->
  exists path,
    getPath a key m = Ok path m /\
    path = fmap (M:=list) (fmap this_) (Some n :: walk n key) /\
    head path = Some (Some a) /\
    length path <= String.length key + 1 /\
    (last path = Some None <-> descend n key = None) /\
    (is_Some (descend n key) <->
     length path = String.length key + 1 /\ exists p, last path = Some (Some p)) /\
    (forall x, descend n key = Some x -> last path = Some (Some (this_ x))) /\
    (length path < String.length key + 1 -> descend n key = None).
Proof.
  intros Hwf Hn Hkey. eexists. split; [by apply getPath_walk; [apply Hwf|..]|].
  split; [done|]. rewrite fmap_last, last_walk, length_fmap. cbn [length].
  split; [simpl; by rewrite (deref_this _ _ _ Hn)|].
  pose proof (walk_length n key) as Hlen. split; [lia|].
  destruct (descend n key) as [x|] eqn:E; cbn [fmap option_fmap option_map].
  - rewrite (walk_descend_Some _ _ _ E). split; [split; intros; simplify_eq|].
    split; [split; [intros _; split; [lia | by eexists] | by eexists]|].
    split; [by intros ? [= <-] | lia].
  - split; [done|]. split; [split; [by intros [] | by intros [_ []]]|]. done.
Qed.

(** C3.  From the empty trie, after [insert("cat")] and [insert("car")],
    [remove("cat")] leaves "car" retrievable, leaves no node for "cat" (every
    node that remains lies on the path of "car") and keeps the nodes of "c"
    and "ca"; [remove("car")] then leaves the trie empty.  In general,
    [remove] on a trie state computes [remove_spec]: the value of the key's
    node is cleared and, going back up, every node left with neither value
    nor child is detached, up to the first node that keeps a value or a
    child, or the root. *)
Theorem remove_cascade `{!AlphabetRange} (v1 v2 : Value) (a0 : addr) :
  isKeyCorrect "cat" = true -> isKeyCorrect "car" = true ->
  (exists m1 m2 m3 m4,
     insert "cat" v1 (Trie_new a0) = Ok true m1 /\
     insert "car" v2 m1 = Ok true m2 /\
     remove "cat" m2 = Ok tt m3 /\
     search "car" m3 = Ok (Some v2) m3 /\
     descend (root_ m3) "cat" = None /\
     (forall key x, descend (root_ m3) key = Some x ->
        exists rest, String.append key rest = "car"%string) /\
     is_Some (descend (root_ m3) "c") /\
     is_Some (descend (root_ m3) "ca") /\
     remove "car" m3 = Ok tt m4 /\
     empty m4 = Ok true m4) /\
  (forall m key, wf m -> isKeyCorrect key = true ->
     remove key m =
     Ok tt (mkMem (default (root_ m) (remove_spec (root_ m) key)) (brk m))).
Proof.
  intros Hcat Hcar. split; [|intros m key Hwf Hkey; by apply remove_Ok].
  pose proof (wf_Trie_new (Value:=Value) a0) as Hwf0.
  assert (Hl0 : forall key, lookup (root_ (Trie_new (Value:=Value) a0)) key = None).
  { intros key. apply (lookup_new a0 None zero). }
  destruct (insert_Ok "cat" v1 _ Hwf0 Hcat) as (r1 & b1 & E1 & Hins1 & Hwf1 & Hl1 & _).
  rewrite Hl0 in E1, Hins1, Hl1.
  assert (Hl1' : forall key w, lookup r1 key = Some w -> key = "cat"%string).
  { intros key w Hw. destruct (String.eqb_spec key "cat") as [|Hne]; [done|].
    apply (insert_at_other _ _ _ _ _ _ _ _ _ _ (wf_root _ Hwf0) Hcat E1 Hne) in Hw.
    by rewrite Hl0 in Hw. }
  assert (Hl1car : lookup r1 "car" = None).
  { destruct (lookup r1 "car") as [w|] eqn:E; [|done]. by apply Hl1' in E. }
  destruct (insert_Ok "car" v2 _ Hwf1 Hcar) as (r2 & b2 & E2 & Hins2 & Hwf2 & Hl2 & _).
  cbn [root_ brk] in E2, Hins2, Hl2. rewrite Hl1car in E2, Hins2, Hl2.
  assert (Hl2' : forall key w, lookup r2 key = Some w ->
                               key = "car"%string \/ key = "cat"%string).
  { intros key w Hw. destruct (String.eqb_spec key "car") as [|Hne]; [by left|]. right.
    apply (insert_at_other _ _ _ _ _ _ _ _ _ _ (wf_root _ Hwf1) Hcar E2 Hne) in Hw.
    by apply Hl1' in Hw. }
  destruct (remove_Ok "cat" _ Hwf2 Hcat) as [Hrem3 Hwf3]. cbn [root_ brk] in Hrem3, Hwf3.
  set (r3 := default r2 (remove_spec r2 "cat")) in *.
  assert (Hl3 : lookup r3 "car" = Some v2 /\
                forall key w, lookup r3 key = Some w -> key = "car"%string).
  { unfold r3. destruct (remove_spec r2 "cat") as [r|] eqn:E3; simpl.
    - split.
      + by rewrite (remove_spec_lookup _ _ _ _ _ (wf_root _ Hwf2) E3).
      + intros key w. rewrite (remove_spec_lookup _ _ _ _ _ (wf_root _ Hwf2) E3).
        destruct (String.eqb_spec key "cat") as [|Hne]; [done|].
        intros [|]%Hl2'; done.
    - split; [done|]. intros key w Hw. destruct (Hl2' _ _ Hw) as [? | ->]; [done|].
      apply remove_spec_descend in E3. unfold lookup in Hw. by rewrite E3 in Hw. }
  destruct Hl3 as [Hl3car Hl3'].
  assert (Hnodes3 : forall key x, descend r3 key = Some x ->
                                  exists rest, String.append key rest = "car"%string).
  { intros key x Hx. destruct key as [|c key]; [by exists "car"%string|].
    destruct (descend_kept _ _ _ _ (wf_root _ Hwf3) (wf_pruned _ Hwf3) Hx)
      as (Hk & Hp & q & Hq); [done|].
    destruct (valued_below _ _ Hq Hp Hk) as (rest & w & Hw).
    exists rest. eapply Hl3'. by rewrite (lookup_app _ _ _ _ Hx). }
  destruct (remove_Ok "car" _ Hwf3 Hcar) as [Hrem4 Hwf4]. cbn [root_ brk] in Hrem4, Hwf4.
  set (r4 := default r3 (remove_spec r3 "car")) in *.
  assert (Hl4 : forall key, lookup r4 key = None).
  { intros key. unfold r4. destruct (remove_spec r3 "car") as [r|] eqn:E4; simpl.
    - rewrite (remove_spec_lookup _ _ _ _ _ (wf_root _ Hwf3) E4).
      destruct (String.eqb_spec key "car") as [|Hne]; [done|].
      destruct (lookup r3 key) as [w|] eqn:E; [|done]. by apply Hl3' in E.
    - apply remove_spec_descend in E4. unfold lookup in Hl3car. by rewrite E4 in Hl3car. }
  exists (mkMem r1 b1), (mkMem r2 b2), (mkMem r3 b2), (mkMem r4 b2).
  split; [done|]. split; [done|]. split; [done|].
  split; [rewrite (search_wf _ _ Hwf3 Hcar); cbn [root_]; by rewrite Hl3car|]. cbn [root_].
  split.
  { destruct (descend r3 "cat") as [x|] eqn:E; [|done].
    by destruct (Hnodes3 _ _ E) as [rest ?]. }
  split; [done|].
  assert (Hd : is_Some (descend r3 "c") /\ is_Some (descend r3 "ca")).
  { unfold lookup in Hl3car. cbn [descend] in Hl3car |- *.
    destruct (scan_key "c" (children_ r3)) as [n1|]; [|done].
    destruct (scan_key "a" (children_ n1)) as [n2|]; [|done]. by split. }
  split; [apply Hd|]. split; [apply Hd|]. split; [done|].
  rewrite empty_Ok. cbn [root_].
  by destruct (no_value_no_child r4 None (wf_root _ Hwf4) (wf_pruned _ Hwf4) Hl4) as [-> ->].
Qed.

(** C10 (the code fails it).  On every trie state [items] pops the key
    accumulator while it is empty: the call of [getItems] on the root
    appends no letter and still ends in [key.pop_back()].  The calls on the
    nodes below the root are not at fault: each returns with the accumulator
    as it found it. *)
Theorem items_pops_empty_string m :
  wf m ->
  items m = Undefined pop_back_empty /\
  (forall i c its key, children_ (root_ m) !! i = Some (Some c) ->
     exists its', getItems c (its, key) m = Ok (its', key) m).
Proof.
  intros [Hwf _ _ _].
  assert (Hbelow : forall i c, children_ (root_ m) !! i = Some (Some c) ->
            forall its key, exists its', getItems c (its, key) m = Ok (its', key) m).
  { intros i c Hi. eapply getItems_child, wf_node_child; eauto. }
  split; [|intros i c its key Hi; by eapply Hbelow].
  unfold items. unfold bind at 1. rewrite getItems_eq.
  unfold hasParent. rewrite (wf_node_parent _ _ Hwf). cbn [fst snd].
  destruct (getItems_in_Ok (children_ (root_ m)) m Hbelow
              match value (root_ m) with Some v => [(EmptyString, v)] | None => [] end
              EmptyString) as [its' E].
  by rewrite (bind_Ok _ _ _ _ _ E).
Qed.

End Claims.

(** * The claims on the lowercase alphabet *)

Section Examples.

#[local] Existing Instance Lowercase.

Lemma Lowercase_range : AlphabetRange.
Proof.
  intros c. cbn [Alphabet_ord Alphabet_size Lowercase]. unfold lowercase_ord.
  destruct (Z.leb_spec 97 (Z.of_N (N_of_ascii c))), (Z.leb_spec (Z.of_N (N_of_ascii c)) 122);
    cbn [andb]; lia.
Qed.

#[local] Existing Instance Lowercase_range.

Lemma trie_0_wf : wf trie_0.
Proof. apply (wf_Trie_new 0). Qed.

Lemma trie_a_insert : insert "a" 1 trie_0 = Ok true trie_a.
Proof. by vm_compute. Qed.

Lemma trie_a_wf : wf trie_a.
Proof.
  assert (Hkey : isKeyCorrect "a" = true) by reflexivity.
  destruct (insert_Ok "a" 1 trie_0 trie_0_wf Hkey)
    as (r' & b' & _ & Hins & Hwf & _).
  rewrite trie_a_insert in Hins.
  assert (E : trie_a = mkMem r' b') by congruence. by rewrite E.
Qed.

(** C1 as stated fails: on a trie where "a" maps to 1, [insert("a", 2)]
    followed by [search("a")] yields 1. *)
Lemma insert_then_search_counterexample :
  ~ (forall (m : Mem nat) (key : string) (v : nat),
       wf m -> isKeyCorrect key = true ->
       forall installed m', insert key v m = Ok installed m' ->
                            search key m' = Ok (Some v) m').
Proof.
  intros Hc.
  assert (Hkey : isKeyCorrect "a" = true) by reflexivity.
  assert (Hins : insert "a" 2 trie_a = Ok false trie_a) by (by vm_compute).
  specialize (Hc trie_a "a"%string 2 trie_a_wf Hkey false trie_a Hins).
  vm_compute in Hc. discriminate Hc.
Qed.

Lemma insert_then_search_witness :
  wf (trie_0) /\ isKeyCorrect "ab" = true /\
  exists installed m',
    insert "ab" 7 trie_0 = Ok installed m' /\ wf m' /\
    (search "ab" trie_0 = Ok None trie_0 -> search "ab" m' = Ok (Some 7) m') /\
    (forall v0, search "ab" trie_0 = Ok (Some v0) trie_0 ->
                search "ab" m' = Ok (Some v0) m').
Proof.
  split; [apply trie_0_wf|]. split; [reflexivity|].
  apply (insert_then_search trie_0 "ab" 7); [apply trie_0_wf | reflexivity].
Defined.

Lemma insert_no_overwrite_witness :
  wf (trie_0) /\ isKeyCorrect "ab" = true /\
  exists installed m1,
    insert "ab" 7 trie_0 = Ok installed m1 /\
    (installed = true <-> search "ab" trie_0 = Ok None trie_0) /\
    (forall v0, search "ab" trie_0 = Ok (Some v0) trie_0 ->
       installed = false /\ m1 = trie_0 /\ search "ab" m1 = Ok (Some v0) m1) /\
    (installed = true ->
       insert "ab" 8 m1 = Ok false m1 /\
       search "ab" m1 = Ok (Some 7) m1).
Proof.
  split; [apply trie_0_wf|]. split; [reflexivity|].
  apply (insert_no_overwrite trie_0 "ab" 7 8); [apply trie_0_wf | reflexivity].
Defined.

Lemma remove_absent_is_noop_witness :
  wf trie_a /\ isKeyCorrect "ab" = true /\
  (descend (root_ trie_a) "ab" = None \/
   exists x, descend (root_ trie_a) "ab" = Some x /\ value_ x = None) /\
  remove "ab" trie_a = Ok tt trie_a.
Proof.
  split; [apply trie_a_wf|]. split; [reflexivity|]. split; [left; reflexivity|].
  apply (remove_absent_is_noop trie_a "ab"); [apply trie_a_wf | reflexivity | left; reflexivity].
Defined.

Lemma invalid_key_throws_witness :
  In "!"%char (list_ascii_of_string "a!") /\ Alphabet_ord "!"%char = (-1)%Z /\
  search "a!" trie_a = Throw (out_of_range "Incorrect key") trie_a /\
  at_ "a!" trie_a = Throw (out_of_range "Incorrect key") trie_a /\
  insert "a!" 5 trie_a = Throw (out_of_range "Incorrect key") trie_a /\
  remove "a!" trie_a = Throw (out_of_range "Incorrect key") trie_a /\
  subscript (H0:=0) "a!" trie_a = Throw (out_of_range "Incorrect key") trie_a.
Proof.
  split; [simpl; tauto|]. split; [reflexivity|].
  apply (invalid_key_throws (DefaultConstructible0:=0) trie_a "a!" 5 "!"%char);
    [simpl; tauto | reflexivity].
Defined.

Lemma at_throws_search_returns_witness :
  wf trie_a /\ isKeyCorrect "a" = true /\
  (at_ "a" trie_a = Throw (out_of_range "Key not found!") trie_a <->
   ~ exists x v, descend (root_ trie_a) "a" = Some x /\ value_ x = Some v) /\
  (forall x v, descend (root_ trie_a) "a" = Some x -> value_ x = Some v ->
     at_ "a" trie_a = Ok v trie_a /\ search "a" trie_a = Ok (Some v) trie_a) /\
  ((~ exists x v, descend (root_ trie_a) "a" = Some x /\ value_ x = Some v) ->
     search "a" trie_a = Ok None trie_a).
Proof.
  split; [apply trie_a_wf|]. split; [reflexivity|].
  apply (at_throws_search_returns trie_a "a"); [apply trie_a_wf | reflexivity].
Defined.

Lemma subscript_inserts_default_witness :
  wf trie_a /\ isKeyCorrect "b" = true /\
  (search "b" trie_a = Ok None trie_a ->
     exists m', subscript (H0:=0) "b" trie_a = Ok 0 m' /\ search "b" m' = Ok (Some 0) m') /\
  (forall v, search "b" trie_a = Ok (Some v) trie_a -> subscript (H0:=0) "b" trie_a = Ok v trie_a).
Proof.
  split; [apply trie_a_wf|]. split; [reflexivity|].
  apply (subscript_inserts_default (DefaultConstructible0:=0) trie_a "b");
    [apply trie_a_wf | reflexivity].
Defined.

(** C9 as stated fails: on the empty trie the path of "a" has
    [key.length()+1] elements, not fewer, and the key's node does not
    exist. *)
Lemma getPath_shape_counterexample :
  ~ (forall path, getPath 0 "a" trie_0 = Ok path trie_0 ->
       (length path < String.length "a" + 1 <-> descend (root_ trie_0) "a" = None)).
Proof.
  intros Hc.
  assert (Hp : getPath 0 "a" trie_0 = Ok [Some 0; None] trie_0) by (by vm_compute).
  destruct (Hc _ Hp) as [_ Hlt]. specialize (Hlt eq_refl). simpl in Hlt. lia.
Qed.

Lemma getPath_shape_witness :
  wf trie_a /\ deref 0 (root_ trie_a) = Some (root_ trie_a) /\ isKeyCorrect "ab" = true /\
  exists path,
    getPath 0 "ab" trie_a = Ok path trie_a /\
    path = fmap (M:=list) (fmap this_) (Some (root_ trie_a) :: walk (root_ trie_a) "ab") /\
    head path = Some (Some 0) /\
    length path <= String.length "ab" + 1 /\
    (last path = Some None <-> descend (root_ trie_a) "ab" = None) /\
    (is_Some (descend (root_ trie_a) "ab") <->
     length path = String.length "ab" + 1 /\ exists p, last path = Some (Some p)) /\
    (forall x, descend (root_ trie_a) "ab" = Some x -> last path = Some (Some (this_ x))) /\
    (length path < String.length "ab" + 1 -> descend (root_ trie_a) "ab" = None).
Proof.
  split; [apply trie_a_wf|]. split; [reflexivity|]. split; [reflexivity|].
  apply (getPath_shape trie_a 0 (root_ trie_a) "ab");
    [apply trie_a_wf | reflexivity | reflexivity].
Defined.

Lemma remove_cascade_witness :
  isKeyCorrect "cat" = true /\ isKeyCorrect "car" = true /\
  ((exists m1 m2 m3 m4 : Mem nat,
      insert "cat" 1 (Trie_new 0) = Ok true m1 /\
      insert "car" 2 m1 = Ok true m2 /\
      remove "cat" m2 = Ok tt m3 /\
      search "car" m3 = Ok (Some 2) m3 /\
      descend (root_ m3) "cat" = None /\
      (forall key x, descend (root_ m3) key = Some x ->
         exists rest, String.append key rest = "car"%string) /\
      is_Some (descend (root_ m3) "c") /\
      is_Some (descend (root_ m3) "ca") /\
      remove "car" m3 = Ok tt m4 /\
      empty m4 = Ok true m4) /\
   (forall (m : Mem nat) key, wf m -> isKeyCorrect key = true ->
      remove key m =
      Ok tt (mkMem (default (root_ m) (remove_spec (root_ m) key)) (brk m)))).
Proof.
  split; [reflexivity|]. split; [reflexivity|].
  apply (remove_cascade 1 2 0); reflexivity.
Defined.

Lemma items_pops_empty_string_witness :
  wf trie_a /\
  items trie_a = Undefined pop_back_empty /\
  (forall i c its key, children_ (root_ trie_a) !! i = Some (Some c) ->
     exists its', getItems c (its, key) trie_a = Ok (its', key) trie_a).
Proof.
  split; [apply trie_a_wf|]. apply (items_pops_empty_string trie_a), trie_a_wf.
Defined.

(** C8 (the code fails it).  [this] is an empty trie at address 2 and the
    by-value parameter of [operator=] lives at address 3.  After
    [this = trie_a] the node of "a" is owned by [this], but its parent
    pointer still names the parameter, which is gone: the pointer names no
    node of [this] nor of [trie_a], the state is not well formed, and
    [remove("a")] follows the pointer. *)
Theorem assign_leaves_dangling_parent :
  exists m' c,
    assign 3 (root_ trie_a) (mkMem (Node_new 2 None) 4) = Ok tt m' /\
    this_ (root_ m') = 2 /\
    children_ (root_ m') !! 0 = Some (Some c) /\
    key_ c = "a"%char /\ value_ c = Some 1 /\
    parent_ c = Some 3 /\
    deref 3 (root_ m') = None /\ deref 3 (root_ trie_a) = None /\
    ~ wf m' /\
    remove "a" m' = Undefined dangling_pointer.
Proof.
  eexists _, _. split; [by vm_compute|]. split; [reflexivity|].
  split; [reflexivity|]. split; [reflexivity|]. split; [reflexivity|].
  split; [reflexivity|]. split; [reflexivity|]. split; [reflexivity|].
  split; [|by vm_compute].
  intros [Hroot _ _ _].
  pose proof (wf_node_child _ _ 0 _ Hroot eq_refl) as Hc.
  apply wf_node_parent in Hc. vm_compute in Hc. discriminate Hc.
Qed.

(** The copy constructor, for comparison, names the new root in the copied
    node, and [remove("a")] on the copy prunes it. *)
Lemma copy_constructor_parent :
  exists m' c,
    Trie_copy 3 4 (root_ trie_a) = Ok tt m' /\
    this_ (root_ m') = 3 /\
    children_ (root_ m') !! 0 = Some (Some c) /\
    parent_ c = Some 3 /\
    remove "a" m' = Ok tt (mkMem (Node_new 3 None) (brk m')).
Proof.
  eexists _, _. split; [by vm_compute|]. split; [reflexivity|].
  split; [reflexivity|]. split; [reflexivity|]. by vm_compute.
Qed.

End Examples.

(** * Further properties of the code *)

Section Mapping.

Context {Value : Type} `{Alphabet}.

Implicit Types (n x : Node Value) (m : Mem Value) (key : string) (v : Value).
Implicit Types (a p b : addr).

(** ** The trie as a finite map *)

Lemma slot_free `{!AlphabetRange} `{!AlphabetInjective} n par (c : ascii) y :
  wf_node par n -> isInAlphabet c = true -> scan_key c (children_ n) = None ->
  children_ n !! slot c <> Some (Some y).
Proof.
  intros Hwf Hc Hs Hy. pose proof (wf_node_slot _ _ _ _ Hwf Hy) as Hord.
  assert (Hk : key_ y = c).
  { symmetry. apply ord_inj; [by apply isInAlphabet_true|].
    by rewrite Hord, slot_ord. }
  pose proof (scan_key_at _ _ _ _ Hwf Hy) as Hs'. rewrite Hk in Hs'. congruence.
Qed.

Lemma insert_at_frame `{!AlphabetRange} `{!AlphabetInjective}
    key v n par b n' (r : bool) b' key' :
  wf_node par n -> isKeyCorrect key = true ->
  insert_at n key v b = (n', r, b') ->
  key' <> key -> lookup n' key' = lookup n key'.
Proof.
  revert n par b n' r b' key'.
  induction key as [|c key IH]; intros n par b n' r b' key' Hwf Hkey.
  - cbn [insert_at]. destruct key' as [|c' key']; [done|].
    destruct (hasValue n); intros [= <- <- <-] _; by rewrite !lookup_String.
  - apply isKeyCorrect_String in Hkey as [Hc Hkey]. intros Hins.
    pose proof (insert_at_wf _ _ _ _ _ _ _ _ Hwf
                  (proj2 (isKeyCorrect_String c key) (conj Hc Hkey)) Hins) as Hwf'.
    apply (insert_at_String _ par) in Hins
      as (x & b1 & x' & Ex & -> & Hwx & Hk & Hcase); [|done..].
    destruct (insert_at_shape _ _ _ _ _ _ _ Ex) as (_ & Hk' & _).
    pose proof (slot_lt _ _ c Hwf Hc) as Hlt.
    assert (Hx' : children_ (with_children n (<[slot c := Some x']> (children_ n))) !! slot c
                  = Some (Some x')).
    { cbn [with_children children_]. by apply list_lookup_insert_eq. }
    destruct key' as [|c' key']; [done|]. intros Hne.
    rewrite !lookup_String.
    destruct (Ascii.eqb_spec c' c) as [->|Hcc].
    + pose proof (scan_key_at _ _ _ _ Hwf' Hx') as Hs. rewrite Hk', Hk in Hs. rewrite Hs.
      assert (Hne' : key' <> key) by (by intros ->).
      rewrite (IH _ _ _ _ _ _ _ Hwx Hkey Ex Hne').
      destruct Hcase as [(Es & Hx & ->) | (Es & -> & ->)]; rewrite Es; [done|].
      apply lookup_new.
    + rewrite (scan_key_frame par n _ (slot c) c c'); [done|done|done| | | |done].
      * intros j Hj. cbn [with_children children_]. by rewrite list_lookup_insert_ne.
      * intros z Hz. destruct Hcase as [(Es & Hx & ->) | (Es & -> & ->)].
        -- rewrite Hx in Hz. by injection Hz as <-.
        -- by destruct (slot_free _ _ _ _ Hwf Hc Es Hz).
      * intros z Hz. rewrite Hx' in Hz. injection Hz as <-. congruence.
Qed.

(** X1.  [insert] is insertion-if-absent on the mapping [search] reads: the key
    maps to what it mapped to, or to the new value if it mapped to nothing,
    and every other key maps to what it mapped to. *)
Theorem insert_updates_mapping `{!AlphabetRange} `{!AlphabetInjective} m key v :
  wf m -> isKeyCorrect key = true ->
  exists installed m',
    insert key v m = Ok installed m' /\
    forall key' w, isKeyCorrect key' = true -> search key' m = Ok w m ->
      search key' m' =
      Ok (if String.eqb key' key then Some (default v w) else w) m'.
Proof.
  intros Hwf Hkey.
  destruct (insert_Ok key v m Hwf Hkey) as (r' & b' & E & Hins & Hwf' & Hl & _).
  eexists _, _. split; [exact Hins|]. intros key' w Hkey'.
  rewrite (search_lookup _ _ (wf_nodup _ Hwf) Hkey'),
          (search_lookup _ _ (wf_nodup _ Hwf') Hkey'). cbn [root_].
  intros [= <-]. destruct (String.eqb_spec key' key) as [->|Hne].
  - by rewrite Hl.
  - by rewrite (insert_at_frame _ _ _ _ _ _ _ _ _ (wf_root _ Hwf) Hkey E Hne).
Qed.

(** X2.  [remove] is deletion on the mapping [search] reads: the key maps to
    nothing afterwards and every other key maps to what it mapped to. *)
Theorem remove_updates_mapping `{!AlphabetRange} m key :
  wf m -> isKeyCorrect key = true ->
  exists m',
    remove key m = Ok tt m' /\
    forall key' w, isKeyCorrect key' = true -> search key' m = Ok w m ->
      search key' m' = Ok (if String.eqb key' key then None else w) m'.
Proof.
  intros Hwf Hkey. destruct (remove_Ok key m Hwf Hkey) as [Hrem Hwf'].
  eexists. split; [exact Hrem|]. intros key' w Hkey'.
  rewrite (search_lookup _ _ (wf_nodup _ Hwf) Hkey'),
          (search_lookup _ _ (wf_nodup _ Hwf') Hkey'). cbn [root_].
  intros [= <-]. destruct (remove_spec (root_ m) key) as [r'|] eqn:E; simpl.
  - by rewrite (remove_spec_lookup _ _ _ _ _ (wf_root _ Hwf) E).
  - destruct (String.eqb_spec key' key) as [->|Hne]; [|done].
    apply remove_spec_descend in E. unfold lookup. by rewrite E.
Qed.

(** X3.  Removing a key twice is removing it once. *)
Theorem remove_idempotent `{!AlphabetRange} m key :
  wf m -> isKeyCorrect key = true ->
  exists m', remove key m = Ok tt m' /\ remove key m' = Ok tt m'.
Proof.
  intros Hwf Hkey. destruct (remove_Ok key m Hwf Hkey) as [Hrem Hwf'].
  eexists. split; [exact Hrem|].
  destruct (remove_Ok key _ Hwf' Hkey) as [-> _]. cbn [root_ brk].
  set (r1 := default (root_ m) (remove_spec (root_ m) key)) in *.
  assert (Hl : lookup r1 key = None).
  { unfold r1. destruct (remove_spec (root_ m) key) as [r'|] eqn:E; simpl.
    - rewrite (remove_spec_lookup _ _ _ _ _ (wf_root _ Hwf) E). by rewrite String.eqb_refl.
    - apply remove_spec_descend in E. unfold lookup. by rewrite E. }
  destruct (remove_spec r1 key) as [r2|] eqn:E2; simpl; [|done].
  by rewrite (remove_spec_noop _ _ _ _ (wf_root _ Hwf') (wf_pruned _ Hwf') Hl E2).
Qed.

Lemma any_child_replicate_None k : any_child (replicate k (@None (Node Value))) = false.
Proof. induction k; simpl; auto. Qed.

Lemma remove_spec_insert_at `{!AlphabetRange} `{!AlphabetInjective}
    key v n par b n' (r : bool) b' :
  wf_node par n -> pruned n -> isKeyCorrect key = true -> lookup n key = None ->
  insert_at n key v b = (n', r, b') -> remove_spec n' key = Some n.
Proof.
  revert n par b n' r b'. induction key as [|c key IH]; intros n par b n' r b' Hwf Hp Hkey.
  - cbn [insert_at]. unfold lookup, hasValue. cbn [descend]. intros Hv.
    rewrite Hv. intros [= <- <- <-]. cbn [remove_spec]. unfold removeValue, setValue.
    destruct n; simpl in *; by subst.
  - apply isKeyCorrect_String in Hkey as [Hc Hkey]. rewrite lookup_String. intros Hl Hins.
    pose proof (insert_at_wf _ _ _ _ _ _ _ _ Hwf
                  (proj2 (isKeyCorrect_String c key) (conj Hc Hkey)) Hins) as Hwf'.
    apply (insert_at_String _ par) in Hins
      as (x & b1 & x' & Ex & -> & Hwx & Hk & Hcase); [|done..].
    destruct (insert_at_shape _ _ _ _ _ _ _ Ex) as (_ & Hk' & _).
    pose proof (slot_lt _ _ c Hwf Hc) as Hlt.
    assert (Hx' : children_ (with_children n (<[slot c := Some x']> (children_ n))) !! slot c
                  = Some (Some x')).
    { cbn [with_children children_]. by apply list_lookup_insert_eq. }
    pose proof (scan_key_at _ _ _ _ Hwf' Hx') as Hs. rewrite Hk', Hk in Hs.
    cbn [remove_spec]. rewrite Hs. cbn [with_children children_ this_ parent_ value_ key_].
    destruct Hcase as [(Es & Hx & ->) | (Es & -> & ->)].
    + rewrite Es in Hl.
      rewrite (IH _ _ _ _ _ _ Hwx (pruned_child _ _ _ Hp Hx) Hkey Hl Ex).
      rewrite (pruned_kept _ _ _ Hp Hx). unfold with_children. cbn.
      rewrite list_insert_insert_eq, (list_insert_id _ _ _ Hx). by destruct n.
    + rewrite (IH _ _ _ _ _ _ Hwx (pruned_new _ _ _) Hkey (lookup_new _ _ _ _) Ex).
      unfold hasValue, hasChildren. cbn. rewrite any_child_replicate_None. cbn.
      destruct (lookup_lt_is_Some_2 _ _ Hlt) as [[y|] Hy];
        [by destruct (slot_free _ _ _ _ Hwf Hc Es Hy)|].
      rewrite list_insert_insert_eq, (list_insert_id _ _ _ Hy). by destruct n.
Qed.

(** X4.  Inserting a key that maps to nothing and removing it again gives back
    the tree as it was, node for node; only the allocator has moved on. *)
Theorem insert_then_remove_restores `{!AlphabetRange} `{!AlphabetInjective} m key v :
  wf m -> isKeyCorrect key = true -> search key m = Ok None m ->
  exists m1,
    insert key v m = Ok true m1 /\
    remove key m1 = Ok tt (mkMem (root_ m) (brk m1)).
Proof.
  intros Hwf Hkey. rewrite (search_lookup _ _ (wf_nodup _ Hwf) Hkey). intros [= Hl].
  destruct (insert_Ok key v m Hwf Hkey) as (r' & b' & E & Hins & Hwf' & _).
  rewrite Hl in E, Hins. eexists. split; [exact Hins|].
  destruct (remove_Ok key _ Hwf' Hkey) as [-> _]. cbn [root_ brk].
  by rewrite (remove_spec_insert_at _ _ _ _ _ _ _ _ (wf_root _ Hwf) (wf_pruned _ Hwf) Hkey Hl E).
Qed.

End Mapping.

Section Housekeeping.

Context {Value : Type} `{Alphabet}.

Implicit Types (n x : Node Value) (m : Mem Value) (key : string) (v : Value).
Implicit Types (a p b : addr).

(** ** States the mutators produce *)

Lemma subscript_Ok `{!AlphabetRange} `{!DefaultConstructible Value} m key :
  wf m -> isKeyCorrect key = true ->
  exists w m', subscript key m = Ok w m' /\ wf m' /\ search key m' = Ok (Some w) m'.
Proof.
  intros Hwf Hkey. unfold subscript. rewrite Hkey. unfold bind at 1.
  rewrite (search_lookup _ _ (wf_nodup _ Hwf) Hkey).
  destruct (lookup (root_ m) key) as [v0|] eqn:E.
  - exists v0, m. split; [done|]. split; [done|].
    by rewrite (search_lookup _ _ (wf_nodup _ Hwf) Hkey), E.
  - destruct (insert_Ok key Value_default m Hwf Hkey) as (r' & b' & _ & Hins & Hwf' & Hl & _).
    rewrite E in Hins, Hl. rewrite (bind_Ok _ _ _ _ _ Hins).
    rewrite (at_lookup _ _ (wf_nodup _ Hwf') Hkey). cbn [root_]. rewrite Hl.
    eexists _, _. split; [done|]. split; [done|].
    rewrite (search_lookup _ _ (wf_nodup _ Hwf') Hkey). cbn [root_]. by rewrite Hl.
Qed.

Lemma clear_Ok m :
  clear m = Ok tt (mkMem (removeValue (removeChildren (root_ m))) (brk m)).
Proof.
  unfold clear, root_addr, bind at 1.
  rewrite (bind_Ok _ _ _ _ _ (update_Ok _ _ _ _ (deref_self _))).
  cbn [root_ brk]. rewrite modify_self.
  rewrite (update_Ok _ _ (mkMem _ _) (removeChildren (root_ m)) (deref_self _)).
  cbn [root_ brk]. by rewrite (modify_self removeValue (removeChildren (root_ m))).
Qed.

(** X5.  On a trie state and an alphabet-valid key, [insert], [remove],
    [operator[]] and [clear] return normally, without a throw and without
    undefined behaviour, and the state they leave satisfies the invariants
    again: parent pointers name the owner, children sit in the slot of their
    letter, addresses are unique, and no node below the root is left without
    both value and children. *)
Theorem mutators_keep_invariants `{!AlphabetRange} `{!DefaultConstructible Value} m key v :
  wf m -> isKeyCorrect key = true ->
  (exists installed m1, insert key v m = Ok installed m1 /\ wf m1) /\
  (exists m2, remove key m = Ok tt m2 /\ wf m2) /\
  (exists w m3, subscript key m = Ok w m3 /\ wf m3) /\
  (exists m4, clear m = Ok tt m4 /\ wf m4).
Proof.
  intros Hwf Hkey. split; [|split; [|split]].
  - destruct (insert_Ok key v m Hwf Hkey) as (r' & b' & _ & Hins & Hwf' & _). eauto.
  - destruct (remove_Ok key m Hwf Hkey) as [Hrem Hwf']. eauto.
  - destruct (subscript_Ok m key Hwf Hkey) as (w & m' & Hs & Hwf' & _). eauto.
  - apply clear_preserves_wf, Hwf.
Qed.

Lemma any_child_all_None (cs : list (option (Node Value))) :
  any_child (map (fun _ : option (Node Value) => @None (Node Value)) cs) = false.
Proof. induction cs; simpl; auto. Qed.

(** X6.  After [clear] the trie is empty and every alphabet-valid key maps to
    nothing; the root object stays where it is and nothing is allocated. *)
Theorem clear_empties m :
  wf m ->
  exists m',
    clear m = Ok tt m' /\
    empty m' = Ok true m' /\
    (forall key, isKeyCorrect key = true -> search key m' = Ok None m') /\
    this_ (root_ m') = this_ (root_ m) /\ brk m' = brk m.
Proof.
  intros Hwf. destruct (clear_preserves_wf m Hwf) as (m' & Hc & Hwf').
  exists m'. split; [done|]. rewrite clear_Ok in Hc. injection Hc as <-.
  assert (Hv : hasValue (removeValue (removeChildren (root_ m))) = false) by done.
  assert (Hch : hasChildren (removeValue (removeChildren (root_ m))) = false).
  { unfold hasChildren. cbn. apply any_child_all_None. }
  split; [by rewrite empty_Ok; cbn [root_]; rewrite Hv, Hch|].
  split; [|done]. intros key Hkey.
  rewrite (search_lookup _ _ (wf_nodup _ Hwf') Hkey). cbn [root_].
  by rewrite (lookup_leaf _ _ Hv Hch).
Qed.

Lemma valued_below_valid n par :
  wf_node par n -> pruned n -> (hasValue n || hasChildren n)%bool = true ->
  exists key w, isKeyCorrect key = true /\ lookup n key = Some w.
Proof.
  revert par. induction n as [n IH] using Node_induction. intros par Hwf Hp Hk.
  destruct (value_ n) as [w|] eqn:Ev.
  - exists EmptyString, w. split; [done|]. unfold lookup. by cbn [descend].
  - unfold hasValue in Hk. rewrite Ev in Hk. cbn [orb] in Hk.
    apply any_child_true in Hk as (i & x & Hi).
    destruct (IH i x Hi _ (wf_node_child _ _ _ _ Hwf Hi) (pruned_child _ _ _ Hp Hi)
                (pruned_kept _ _ _ Hp Hi)) as (key & w & Hkey & Hl).
    exists (String (key_ x) key), w. split.
    + apply isKeyCorrect_String. split; [by eapply isInAlphabet_slot | done].
    + by rewrite lookup_String, (scan_key_at _ _ _ _ Hwf Hi).
Qed.

(** X7.  [empty] answers true exactly when no alphabet-valid key maps to a
    value. *)
Theorem empty_iff_no_key m :
  wf m ->
  exists e, empty m = Ok e m /\
    (e = true <-> forall key, isKeyCorrect key = true -> search key m = Ok None m).
Proof.
  intros Hwf. eexists. split; [apply empty_Ok|]. split.
  - intros He key Hkey. rewrite (search_lookup _ _ (wf_nodup _ Hwf) Hkey).
    apply negb_true_iff, orb_false_elim in He as [Hv Hc].
    by rewrite (lookup_leaf _ _ Hv Hc).
  - intros Hnone. apply negb_true_iff.
    destruct (hasValue (root_ m) || hasChildren (root_ m)) eqn:E; [|done].
    destruct (valued_below_valid _ _ (wf_root _ Hwf) (wf_pruned _ Hwf) E)
      as (key & w & Hkey & Hl).
    specialize (Hnone key Hkey).
    rewrite (search_lookup _ _ (wf_nodup _ Hwf) Hkey), Hl in Hnone. discriminate Hnone.
Qed.

(** ** Lazy insertion *)

Lemma matched_new a par (c : ascii) key :
  matched (with_key (Node_new (Value:=Value) a par) c) key = 0.
Proof. destruct key as [|c' key]; [done|]. cbn [matched]. by rewrite scan_key_new. Qed.

Lemma matched_le n key : matched n key <= String.length key.
Proof.
  revert n. induction key as [|c key IH]; intros n; cbn [matched String.length]; [lia|].
  destruct (scan_key c (children_ n)) as [x|]; [|lia]. specialize (IH x). lia.
Qed.

Lemma matched_descend n key x : descend n key = Some x -> matched n key = String.length key.
Proof.
  revert n. induction key as [|c key IH]; intros n; cbn [matched descend String.length]; [done|].
  destruct (scan_key c (children_ n)) as [y|]; [|done]. intros Hx. by rewrite (IH _ Hx).
Qed.

Lemma insert_at_brk key v n b n' (r : bool) b' :
  insert_at n key v b = (n', r, b') ->
  b' = b + (String.length key - matched n key).
Proof.
  revert n b n' r b'. induction key as [|c key IH]; intros n b n' r b'.
  - cbn [insert_at]. destruct (hasValue n); intros [= <- <- <-]; simpl; lia.
  - cbn [insert_at matched String.length].
    destruct (scan_key c (children_ n)) as [x|].
    + destruct (insert_at x key v b) as [[x' r0] b0] eqn:Ex. intros [= <- <- <-].
      rewrite (IH _ _ _ _ _ Ex). lia.
    + destruct (insert_at _ key v (S b)) as [[x' r0] b0] eqn:Ex. intros [= <- <- <-].
      rewrite (IH _ _ _ _ _ Ex), matched_new. lia.
Qed.

(** X8.  [insert] allocates one node for every letter of the key that has
    no node yet, and none for a key whose path exists. *)
Theorem insert_allocates_missing_nodes `{!AlphabetRange} m key v :
  wf m -> isKeyCorrect key = true ->
  exists installed m',
    insert key v m = Ok installed m' /\
    brk m' = brk m + (String.length key - matched (root_ m) key) /\
    (is_Some (descend (root_ m) key) -> brk m' = brk m).
Proof.
  intros Hwf Hkey.
  destruct (insert_Ok key v m Hwf Hkey) as (r' & b' & E & Hins & _).
  eexists _, _. split; [exact Hins|]. cbn [brk].
  pose proof (insert_at_brk _ _ _ _ _ _ _ E) as Hb. split; [done|].
  intros [x Hx]. rewrite (matched_descend _ _ _ Hx) in Hb. lia.
Qed.

(** ** Node methods *)

(** X9.  On a node whose children sit in the slots of their letters, the scan of
    [child] finds what the slot [ord(letter)] holds; a letter outside the
    alphabet makes it throw. *)
Theorem child_reads_slot `{!AlphabetRange} `{!AlphabetInjective} m a n par (c : ascii) :
  deref a (root_ m) = Some n -> wf_node par n ->
  child a c m =
  if isInAlphabet c then
    Ok (match children_ n !! slot c with
        | Some (Some x) => Some (this_ x)
        | _ => None
        end) m
  else Throw (out_of_range "Letter is not member of alphabet") m.
Proof.
  intros Hn Hwf. destruct (isInAlphabet c) eqn:Hc.
  - rewrite (child_Ok _ _ _ _ Hn Hc). f_equal.
    destruct (scan_key c (children_ n)) as [x|] eqn:E.
    + destruct (scan_key_slot _ _ _ _ Hwf E) as [-> _]. done.
    + destruct (children_ n !! slot c) as [[y|]|] eqn:Ey; [|done..].
      by destruct (slot_free _ _ _ _ Hwf Hc E Ey).
  - unfold child. unfold isInAlphabet in Hc. apply negb_false_iff in Hc. by rewrite Hc.
Qed.



End Housekeeping.

Section Lifetime.

Context {Value : Type} `{Alphabet}.

Implicit Types (n x : Node Value) (m : Mem Value) (key : string) (v : Value).
Implicit Types (a p b : addr) (cs : list (option (Node Value))).

(** ** Which nodes live on *)

Lemma isKeyCorrect_app key key' :
  isKeyCorrect (String.append key key') = (isKeyCorrect key && isKeyCorrect key')%bool.
Proof.
  induction key as [|c key IH]; [done|]. cbn [String.append isKeyCorrect].
  by destruct (isInAlphabet c).
Qed.

Lemma descend_valid n par key x :
  wf_node par n -> descend n key = Some x -> isKeyCorrect key = true.
Proof.
  revert n par. induction key as [|c key IH]; intros n par Hwf; [done|].
  cbn [descend]. destruct (scan_key c (children_ n)) as [y|] eqn:E; [|done].
  destruct (scan_key_slot _ _ _ _ Hwf E) as [Hy Hk]. intros Hx.
  apply isKeyCorrect_String. split.
  - rewrite <- Hk. exact (isInAlphabet_slot _ _ _ _ Hwf Hy).
  - exact (IH _ _ (wf_node_child _ _ _ _ Hwf Hy) Hx).
Qed.

Lemma elem_of_addrs_split n i o (y : addr) :
  children_ n !! i = Some o ->
  y ∈ addrs n <->
  y = this_ n \/ y ∈ caddrs (take i (children_ n)) \/ y ∈ caddrs [o] \/
  y ∈ caddrs (drop (S i) (children_ n)).
Proof.
  intros Hi. rewrite addrs_eq, (caddrs_split _ _ _ Hi), elem_of_cons, !elem_of_app. tauto.
Qed.

Lemma elem_of_addrs_insert_iff n i o (y : addr) :
  i < length (children_ n) ->
  y ∈ addrs (with_children n (<[i := o]> (children_ n))) <->
  y = this_ n \/ y ∈ caddrs (take i (children_ n)) \/ y ∈ caddrs [o] \/
  y ∈ caddrs (drop (S i) (children_ n)).
Proof.
  intros Hi. rewrite addrs_eq. cbn [with_children children_ this_].
  rewrite (caddrs_insert _ _ _ Hi), elem_of_cons, !elem_of_app. tauto.
Qed.

Lemma insert_at_keeps `{!AlphabetRange} `{!AlphabetInjective} key v n par b n' (r : bool) b' :
  wf_node par n -> isKeyCorrect key = true ->
  insert_at n key v b = (n', r, b') ->
  forall y : addr, y ∈ addrs n \/ b <= y < b' -> y ∈ addrs n'.
Proof.
  revert n par b n' r b'. induction key as [|c key IH]; intros n par b n' r b' Hwf Hkey.
  - cbn [insert_at]. destruct (hasValue n); intros [= <- <- <-] y [Hy | Hy]; try lia.
    + done.
    + unfold setValue. by rewrite addrs_with_value.
  - apply isKeyCorrect_String in Hkey as [Hc Hkey].
    intros (x & b1 & x' & Ex & -> & Hwx & Hk & Hcase)%(insert_at_String _ par) y Hy;
      [|done..].
    pose proof (slot_lt _ _ c Hwf Hc) as Hlt.
    pose proof (IH _ _ _ _ _ _ Hwx Hkey Ex) as IHx.
    apply (elem_of_addrs_insert_iff _ _ _ _ Hlt). rewrite caddrs_one.
    destruct Hcase as [(Es & Hx & ->) | (Es & -> & ->)].
    + destruct Hy as [Hy | Hy].
      * apply (elem_of_addrs_split _ _ _ _ Hx) in Hy. rewrite caddrs_one in Hy.
        destruct Hy as [? | [? | [Hy | ?]]]; [by left | by right; left | | by right; right; right].
        right; right; left. apply IHx. by left.
      * right; right; left. apply IHx. by right.
    + destruct (lookup_lt_is_Some_2 _ _ Hlt) as [[z|] Hz];
        [by destruct (slot_free _ _ _ _ Hwf Hc Es Hz)|].
      destruct Hy as [Hy | Hy].
      * apply (elem_of_addrs_split _ _ _ _ Hz) in Hy.
        destruct Hy as [? | [? | [Hy | ?]]];
          [by left | by right; left | by apply elem_of_nil in Hy | by right; right; right].
      * right; right; left. apply IHx.
        destruct (decide (y = b)) as [-> | Hne].
        -- left. rewrite addrs_Node_new. by apply list_elem_of_singleton.
        -- right. lia.
Qed.

(** X11.  [insert] destroys no node and leaks no allocation: the nodes of
    the trie afterwards are the nodes it had, at their addresses, and the
    nodes allocated by the call. *)
Theorem insert_keeps_nodes `{!AlphabetRange} `{!AlphabetInjective} m key v :
  wf m -> isKeyCorrect key = true ->
  exists installed m',
    insert key v m = Ok installed m' /\
    forall y : addr,
      y ∈ addrs (root_ m') <-> y ∈ addrs (root_ m) \/ brk m <= y < brk m'.
Proof.
  intros Hwf Hkey.
  destruct (insert_Ok key v m Hwf Hkey) as (r' & b' & E & Hins & _).
  eexists _, _. split; [exact Hins|]. cbn [root_ brk]. intros y. split.
  - apply (insert_at_addrs _ _ _ _ _ _ _ _ (wf_root _ Hwf) Hkey E
             (wf_nodup _ Hwf) (wf_brk _ Hwf)).
  - exact (insert_at_keeps _ _ _ _ _ _ _ _ (wf_root _ Hwf) Hkey E y).
Qed.

(** X12.  [remove] allocates nothing, keeps only nodes the trie had, and
    leaves no dead branch: every node below the root that is still there
    lies on the path of a key that maps to a value. *)
Theorem remove_leaves_no_dead_branch `{!AlphabetRange} m key :
  wf m -> isKeyCorrect key = true ->
  exists m',
    remove key m = Ok tt m' /\ brk m' = brk m /\
    (forall y : addr, y ∈ addrs (root_ m') -> y ∈ addrs (root_ m)) /\
    forall key' x, key' <> EmptyString -> descend (root_ m') key' = Some x ->
      exists s w, search (String.append key' s) m' = Ok (Some w) m'.
Proof.
  intros Hwf Hkey. destruct (remove_Ok key m Hwf Hkey) as [Hrem Hwf'].
  eexists. split; [exact Hrem|]. cbn [root_ brk]. split; [reflexivity|]. split.
  - destruct (remove_spec (root_ m) key) as [r'|] eqn:E; cbn [default]; [|done].
    exact (proj2 (remove_spec_addrs _ _ _ _ (wf_root _ Hwf) E (wf_nodup _ Hwf))).
  - set (m' := mkMem (default (root_ m) (remove_spec (root_ m) key)) (brk m)) in *.
    change (default (root_ m) (remove_spec (root_ m) key)) with (root_ m').
    intros key' x Hne Hx.
    destruct (descend_kept _ _ _ _ (wf_root _ Hwf') (wf_pruned _ Hwf') Hx Hne)
      as (Hk & Hp & q & Hwx).
    destruct (valued_below_valid _ _ Hwx Hp Hk) as (s & w & Hs & Hl).
    exists s, w. rewrite (search_lookup _ _ (wf_nodup _ Hwf')).
    + by rewrite (lookup_app _ _ _ _ Hx), Hl.
    + by rewrite isKeyCorrect_app, (descend_valid _ _ _ _ (wf_root _ Hwf') Hx), Hs.
Qed.

End Lifetime.

Section Copying.

Context {Value : Type} `{Alphabet}.

Implicit Types (n x o : Node Value) (m : Mem Value) (key : string) (v : Value).
Implicit Types (a p b : addr) (cs : list (option (Node Value))).

(** ** The copy, structurally *)

Lemma copy_into_eq o n b :
  copy_into o n b =
  copy_children (children_ o)
    (if (negb (hasValue n) && hasValue o)%bool then with_value n (value_ o) else n) b.
Proof.
  destruct o as [a cs q w k]. cbn [copy_into children_].
  generalize (if (negb (hasValue n) && hasValue (mkNode a cs q w k))%bool
              then with_value n (value_ (mkNode a cs q w k)) else n).
  clear n. revert b. induction cs as [|[c|] cs IH]; intros b n; cbn [copy_children]; [done| |].
  - destruct (copy_into c _ (S b)) as [x' b']. apply IH.
  - apply IH.
Qed.

Lemma hasChildren_insert n i x :
  i < length (children_ n) ->
  hasChildren (with_children n (<[i := Some x]> (children_ n))) = true.
Proof.
  intros Hi. unfold hasChildren. cbn. eapply any_child_lookup.
  by apply list_lookup_insert_eq.
Qed.

(** The loop over the children of the other node, given what is known of
    the copy of each child. *)
Lemma copy_children_ok `{!AlphabetRange} cs par :
  (forall i c, cs !! i = Some (Some c) ->
     isInAlphabet (key_ c) = true /\
     forall n b n' b' par0,
       wf_node par0 n -> NoDup (addrs n) -> Forall (fun y : addr => y < b) (addrs n) ->
       copy_into c n b = (n', b') ->
       copy_ok par0 n b n' b' /\
       (hasValue c = true -> hasValue n' = true) /\
       (hasChildren c = true -> hasChildren n' = true) /\
       (pruned c -> pruned n -> pruned n')) ->
  forall n b n' b',
    wf_node par n -> NoDup (addrs n) -> Forall (fun y : addr => y < b) (addrs n) ->
    copy_children cs n b = (n', b') ->
    copy_ok par n b n' b' /\ value_ n' = value_ n /\
    (hasChildren n = true \/ any_child cs = true -> hasChildren n' = true) /\
    ((forall i c, cs !! i = Some (Some c) ->
        (hasValue c || hasChildren c)%bool = true /\ pruned c) ->
     pruned n -> pruned n').
Proof.
  induction cs as [|[c|] cs IH]; intros Hcs n b n' b' Hwf Hnd Hb; cbn [copy_children].
  - intros [= <- <-]. split; [|split; [done|split; [|done]]].
    + unfold copy_ok. split; [reflexivity|]. split; [reflexivity|].
      split; [assumption|]. split; [lia|]. split; [assumption|]. auto.
    + by intros [|].
  - destruct (Hcs 0 c eq_refl) as [Hin Hc].
    set (fresh := with_key (Node_new b (Some (this_ n))) (key_ c)).
    destruct (copy_into c fresh (S b)) as [x' b1] eqn:Ex. intros Hrest.
    destruct (Hc fresh (S b) x' b1 (Some (this_ n)) (wf_node_new _ _ _))
      as ((Ht & Hk & Hwx & Hle & Hndx & Hinx) & Hvx & Hcx & Hprx).
    { unfold fresh. rewrite addrs_Node_new. apply NoDup_singleton. }
    { unfold fresh. rewrite addrs_Node_new. apply Forall_singleton. lia. }
    { exact Ex. }
    unfold fresh in Hinx. rewrite addrs_Node_new in Hinx.
    assert (Hinx' : forall y : addr, y ∈ addrs x' -> b <= y < b1).
    { intros y [->%list_elem_of_singleton | ?]%Hinx; lia. }
    pose proof (slot_lt _ _ _ Hwf Hin) as Hlt.
    destruct (lookup_lt_is_Some_2 _ _ Hlt) as [o' Ho'].
    set (n2 := with_children n (<[slot (key_ c) := Some x']> (children_ n))) in *.
    rewrite Forall_forall in Hb.
    assert (Hwf2 : wf_node par n2) by (by apply wf_node_insert).
    assert (Hnd2 : NoDup (addrs n2)).
    { eapply NoDup_addrs_insert; eauto; [by rewrite caddrs_one|].
      intros y. rewrite caddrs_one. intros Hy%Hinx'. right. intros Hy'%Hb. lia. }
    assert (Hin2 : forall y : addr, y ∈ addrs n2 -> y ∈ addrs n \/ b <= y < b1).
    { intros y [Hy | Hy]%elem_of_addrs_insert; [by left | | done].
      rewrite caddrs_one in Hy. right. by apply Hinx'. }
    assert (Hb2 : Forall (fun y : addr => y < b1) (addrs n2)).
    { apply Forall_forall. intros y [Hy%Hb | Hy]%Hin2; lia. }
    destruct (IH (fun i => Hcs (S i)) _ _ _ _ Hwf2 Hnd2 Hb2 Hrest)
      as ((Ht' & Hk' & Hw' & Hle' & Hnd' & Hin') & Hv' & Hch' & Hpr').
    split; [|split; [done|split]].
    + unfold copy_ok. split; [done|]. split; [done|]. split; [done|]. split; [lia|].
      split; [done|].
      intros y [[Hy | Hy]%Hin2 | Hy]%Hin'; [by left | right; lia | right; lia].
    + intros _. apply Hch'. left. by apply hasChildren_insert.
    + intros Hk0 Hp. apply Hpr'; [intros i; apply (Hk0 (S i))|].
      destruct (Hk0 0 c eq_refl) as [Hkc Hpc]. unfold n2. apply pruned_insert; [done| |].
      * apply Hprx; [done | apply pruned_new].
      * apply orb_true_iff in Hkc as [Hv | Hch].
        -- by rewrite (Hvx Hv).
        -- by rewrite (Hcx Hch), orb_true_r.
  - intros Hrest. apply (IH (fun i => Hcs (S i)) _ _ _ _ Hwf Hnd Hb) in Hrest.
    destruct Hrest as (Hok & Hv & Hch & Hpr). split; [done|]. split; [done|].
    split; [|intros Hk; apply Hpr; intros i; apply (Hk (S i))].
    intros [|]; auto.
Qed.

Lemma copy_into_ok `{!AlphabetRange} o q :
  wf_node q o ->
  forall n b n' b' par0,
    wf_node par0 n -> NoDup (addrs n) -> Forall (fun y : addr => y < b) (addrs n) ->
    copy_into o n b = (n', b') ->
    copy_ok par0 n b n' b' /\
    (hasValue o = true -> hasValue n' = true) /\
    (hasChildren o = true -> hasChildren n' = true) /\
    (pruned o -> pruned n -> pruned n').
Proof.
  revert q. induction o as [o IH] using Node_induction.
  intros q Hwo n b n' b' par0 Hwf Hnd Hb. rewrite copy_into_eq.
  set (n1 := if (negb (hasValue n) && hasValue o)%bool then with_value n (value_ o) else n).
  assert (Hn1 : this_ n1 = this_ n /\ key_ n1 = key_ n /\ addrs n1 = addrs n /\
                wf_node par0 n1 /\ (pruned n -> pruned n1) /\
                (hasValue o = true -> hasValue n1 = true)).
  { unfold n1. destruct (hasValue n) eqn:Hv; cbn [negb andb]; [done|].
    destruct (hasValue o) eqn:Hvo; [|done]. rewrite addrs_with_value.
    split; [reflexivity|]. split; [reflexivity|]. split; [reflexivity|].
    split; [by apply wf_node_with_value|].
    split; [by apply pruned_with_value|]. intros _. unfold hasValue in *. cbn.
    by destruct (value_ o). }
  destruct Hn1 as (Ht1 & Hk1 & Ha1 & Hw1 & Hp1 & Hv1). intros E.
  rewrite <- Ha1 in Hnd, Hb.
  destruct (copy_children_ok (children_ o) par0) with (n := n1) (b := b) (n' := n') (b' := b')
    as ((Ht & Hk & Hw & Hle & Hnd' & Hin) & Hv & Hch & Hpr);
    [|assumption|assumption|assumption|exact E|].
  { intros i c Hi. split; [exact (isInAlphabet_slot _ _ _ _ Hwo Hi)|].
    intros n0 b0 n0' b0' par1.
    exact (IH i c Hi (Some (this_ o)) (wf_node_child _ _ _ _ Hwo Hi) n0 b0 n0' b0' par1). }
  split; [|split; [|split]].
  - unfold copy_ok. rewrite Ht, Hk, Ht1, Hk1.
    split; [reflexivity|]. split; [reflexivity|]. split; [assumption|].
    split; [assumption|]. split; [assumption|].
    intros y Hy. rewrite <- Ha1. by apply Hin.
  - intros Hvo. specialize (Hv1 Hvo). unfold hasValue in *. by rewrite Hv.
  - intros Hco. apply Hch. by right.
  - intros Hpo Hpn. apply Hpr; [|by apply Hp1].
    intros i c Hi. split; [exact (pruned_kept _ _ _ Hpo Hi) | exact (pruned_child _ _ _ Hpo Hi)].
Qed.

(** ** The pointer code computes the copy *)

Lemma copyTrieRec_eq a o :
  copyTrieRec a o =
  bind (load a) (fun n =>
    bind (if (negb (hasValue n) && hasValue o)%bool then
            match value o with
            | Some v => update a (setValue v)
            | None => undef null_pointer
            end
          else ret tt)
         (fun _ => copyTrieRec_in a (children_ o))).
Proof.
  destruct o as [a0 cs q w k]. cbn [copyTrieRec children_]. f_equal.
  assert (E : forall cs,
    (fix each (cs : list (option (Node Value))) : M unit :=
       match cs with
       | [] => ret tt
       | None :: cs' => each cs'
       | Some c :: cs' =>
           bind (createChild a (key_ c))
                (fun thisChild => bind (copyTrieRec thisChild c) (fun _ => each cs'))
       end) cs = copyTrieRec_in a cs).
  { clear. induction cs as [|[c|] cs IH]; cbn [copyTrieRec_in]; [done| |done].
    by rewrite <- IH. }
  by rewrite E.
Qed.

(** The state after [createChild], and what a later write at the new child
    amounts to. *)
Lemma createChild_then `{!AlphabetRange} m a n par (c : ascii) :
  NoDup (addrs (root_ m)) -> Forall (fun y : addr => y < brk m) (addrs (root_ m)) ->
  deref a (root_ m) = Some n -> wf_node par n -> isInAlphabet c = true ->
  exists m2,
    createChild a c m = Ok (brk m) m2 /\ brk m2 = S (brk m) /\
    NoDup (addrs (root_ m2)) /\
    Forall (fun y : addr => y < brk m2) (addrs (root_ m2)) /\
    deref (brk m) (root_ m2) = Some (with_key (Node_new (brk m) (Some a)) c) /\
    forall x',
      modify (brk m) (fun _ => x') (root_ m2) =
      modify a (fun _ => with_children n (<[slot c := Some x']> (children_ n))) (root_ m).
Proof.
  intros Hnd Hb Hn Hwf Hc. rewrite (createChild_Ok _ _ _ _ _ Hn Hwf Hc).
  set (fresh := with_key (Node_new (brk m) (Some a)) c).
  set (F := fun n0 : Node Value => with_children n0 (<[slot c := Some fresh]> (children_ n0))).
  eexists. split; [reflexivity|]. cbn [root_ brk]. split; [reflexivity|].
  pose proof (slot_lt _ _ c Hwf Hc) as Hlt.
  pose proof (deref_this _ _ _ Hn) as Ha.
  assert (Hfr : brk m ∉ addrs (root_ m)).
  { intros Hin. rewrite Forall_forall in Hb. specialize (Hb _ Hin). lia. }
  assert (HinF : forall y : addr, y ∈ addrs (F n) -> y ∈ addrs n \/ y = brk m).
  { intros y [Hy | Hy]%elem_of_addrs_insert; [by left | | done].
    rewrite caddrs_one in Hy. unfold fresh in Hy. rewrite addrs_Node_new in Hy.
    right. by apply list_elem_of_singleton. }
  assert (HndF : NoDup (addrs (F n))).
  { destruct (lookup_lt_is_Some_2 _ _ Hlt) as [o' Ho'].
    eapply NoDup_addrs_insert; eauto.
    - eauto using NoDup_deref.
    - rewrite caddrs_one. unfold fresh. rewrite addrs_Node_new. apply NoDup_singleton.
    - intros y. rewrite caddrs_one. unfold fresh. rewrite addrs_Node_new.
      intros ->%list_elem_of_singleton. right. intros Hin. apply Hfr.
      destruct (deref_Some _ _ _ Hn) as [_ Hsub]. by apply Hsub. }
  assert (Hn2 : deref a (modify a F (root_ m)) = Some (F n)) by (by apply deref_modify).
  assert (Hnd2 : NoDup (addrs (modify a F (root_ m)))).
  { rewrite (modify_const _ _ n) by done.
    eapply NoDup_modify; eauto. intros y [Hy | ->]%HinF; auto. }
  assert (Hfx : children_ (F n) !! slot c = Some (Some fresh)).
  { cbn [F with_children children_]. by apply list_lookup_insert_eq. }
  split; [exact Hnd2|]. split; [|split].
  - rewrite (modify_const _ _ n) by done.
    eapply Forall_bound_modify; eauto. apply Forall_forall.
    intros y [Hy | ->]%HinF; [|lia]. rewrite Forall_forall in Hb.
    destruct (deref_Some _ _ _ Hn) as [_ Hsub]. specialize (Hb y (Hsub _ Hy)). lia.
  - exact (deref_child _ _ _ _ _ Hnd2 Hn2 Hfx).
  - intros x'.
    rewrite (modify_child _ _ _ _ _ _ Hnd2 Hn2 Hfx : modify (brk m) _ _ = _).
    rewrite (modify_modify _ _ n) by done.
    apply (modify_ext _ _ n); [done..|].
    cbn [F with_children children_ this_ parent_ value_ key_].
    unfold with_children. by rewrite list_insert_insert_eq.
Qed.

(** A node with one child replaced by a tree of new nodes. *)
Lemma insert_child_ok `{!AlphabetRange} n par b b1 x' :
  wf_node par n -> NoDup (addrs n) -> Forall (fun y : addr => y < b) (addrs n) ->
  isInAlphabet (key_ x') = true -> wf_node (Some (this_ n)) x' ->
  NoDup (addrs x') -> (forall y : addr, y ∈ addrs x' -> b <= y < b1) ->
  wf_node par (with_children n (<[slot (key_ x') := Some x']> (children_ n))) /\
  NoDup (addrs (with_children n (<[slot (key_ x') := Some x']> (children_ n)))) /\
  forall y : addr,
    y ∈ addrs (with_children n (<[slot (key_ x') := Some x']> (children_ n))) ->
    y ∈ addrs n \/ b <= y < b1.
Proof.
  intros Hwf Hnd Hb Hin Hwx Hndx Hinx.
  pose proof (slot_lt _ _ _ Hwf Hin) as Hlt.
  destruct (lookup_lt_is_Some_2 _ _ Hlt) as [o' Ho'].
  rewrite Forall_forall in Hb. split; [by apply wf_node_insert|]. split.
  - eapply NoDup_addrs_insert; eauto; [by rewrite caddrs_one|].
    intros y. rewrite caddrs_one. intros Hy%Hinx. right. intros Hy'%Hb. lia.
  - intros y [Hy | Hy]%elem_of_addrs_insert; [by left | | done].
    rewrite caddrs_one in Hy. right. by apply Hinx.
Qed.

(** The loop of [copyTrieRec], given that the recursive calls compute the
    copy of each child. *)
Lemma copyTrieRec_in_at `{!AlphabetRange} cs q :
  (forall i c, cs !! i = Some (Some c) ->
     wf_node q c /\ isInAlphabet (key_ c) = true /\
     forall m a n par n' b',
       NoDup (addrs (root_ m)) -> Forall (fun y : addr => y < brk m) (addrs (root_ m)) ->
       deref a (root_ m) = Some n -> wf_node par n ->
       copy_into c n (brk m) = (n', b') ->
       copyTrieRec a c m = Ok tt (mkMem (modify a (fun _ => n') (root_ m)) b')) ->
  forall m a n par n' b',
    NoDup (addrs (root_ m)) -> Forall (fun y : addr => y < brk m) (addrs (root_ m)) ->
    deref a (root_ m) = Some n -> wf_node par n ->
    copy_children cs n (brk m) = (n', b') ->
    copyTrieRec_in a cs m = Ok tt (mkMem (modify a (fun _ => n') (root_ m)) b').
Proof.
  induction cs as [|[c|] cs IH]; intros Hcs m a n par n' b' Hnd Hb Hn Hwf;
    cbn [copy_children copyTrieRec_in].
  - intros [= <- <-]. rewrite (modify_id _ _ n) by done. by destruct m.
  - destruct (Hcs 0 c eq_refl) as (Hwc & Hin & Hc).
    pose proof (deref_this _ _ _ Hn) as Ha. rewrite Ha.
    set (fresh := with_key (Node_new (brk m) (Some a)) (key_ c)).
    destruct (copy_into c fresh (S (brk m))) as [x' b1] eqn:Ex. intros Hrest.
    destruct (createChild_then m a n par (key_ c) Hnd Hb Hn Hwf Hin)
      as (m2 & Ecc & Hbrk2 & Hnd2 & Hb2 & Hfr & Hmod).
    rewrite (bind_Ok _ _ _ _ _ Ecc).
    rewrite <- Hbrk2 in Ex.
    rewrite (bind_Ok _ _ _ _ _ (Hc m2 (brk m) fresh (Some a) x' b1 Hnd2 Hb2 Hfr
                                    (wf_node_new _ _ _) Ex)).
    rewrite Hmod. rewrite Hbrk2 in Ex.
    destruct (copy_into_ok c q Hwc fresh (S (brk m)) x' b1 (Some a) (wf_node_new _ _ _))
      as ((Ht & Hk & Hwx & Hle & Hndx & Hinx) & _).
    { unfold fresh. rewrite addrs_Node_new. apply NoDup_singleton. }
    { unfold fresh. rewrite addrs_Node_new. apply Forall_singleton. lia. }
    { exact Ex. }
    unfold fresh in Hinx. rewrite addrs_Node_new in Hinx.
    assert (Hinx' : forall y : addr, y ∈ addrs x' -> brk m <= y < b1).
    { intros y [->%list_elem_of_singleton | ?]%Hinx; lia. }
    assert (Hkx : key_ x' = key_ c) by (by rewrite Hk).
    pose proof (NoDup_deref _ _ _ Hnd Hn) as Hndn.
    assert (Hbn : Forall (fun y : addr => y < brk m) (addrs n)).
    { apply Forall_forall. intros y Hy. rewrite Forall_forall in Hb.
      destruct (deref_Some _ _ _ Hn) as [_ Hsub]. by apply Hb, Hsub. }
    rewrite <- Hkx in Hin. rewrite <- Ha in Hwx.
    destruct (insert_child_ok n par (brk m) b1 x' Hwf Hndn Hbn Hin Hwx Hndx Hinx')
      as (Hwf2 & Hndn2 & Hin2).
    rewrite Hkx in Hwf2, Hndn2, Hin2.
    set (n2 := with_children n (<[slot (key_ c) := Some x']> (children_ n))) in *.
    assert (Hnd3 : NoDup (addrs (modify a (fun _ => n2) (root_ m)))).
    { eapply NoDup_modify; eauto. intros y [Hy | Hy]%Hin2; [by left|]. right.
      intros Hy'. rewrite Forall_forall in Hb. specialize (Hb _ Hy'). lia. }
    assert (Hb3 : Forall (fun y : addr => y < b1) (addrs (modify a (fun _ => n2) (root_ m)))).
    { eapply Forall_bound_modify; eauto; [|lia]. apply Forall_forall.
      intros y [Hy | Hy]%Hin2; [|lia]. rewrite Forall_forall in Hbn.
      specialize (Hbn _ Hy). lia. }
    assert (Hn3 : deref a (modify a (fun _ => n2) (root_ m)) = Some n2).
    { by apply (deref_modify _ _ n). }
    rewrite (IH (fun i => Hcs (S i)) (mkMem (modify a (fun _ => n2) (root_ m)) b1)
               a n2 par n' b' Hnd3 Hb3 Hn3 Hwf2 Hrest).
    cbn [root_ brk]. by rewrite (modify_modify _ _ n).
  - exact (IH (fun i => Hcs (S i)) m a n par n' b' Hnd Hb Hn Hwf).
Qed.

(** [copyTrieRec] builds [copy_into] at the node it is given. *)
Lemma copyTrieRec_at `{!AlphabetRange} o q :
  wf_node q o ->
  forall m a n par n' b',
    NoDup (addrs (root_ m)) -> Forall (fun y : addr => y < brk m) (addrs (root_ m)) ->
    deref a (root_ m) = Some n -> wf_node par n ->
    copy_into o n (brk m) = (n', b') ->
    copyTrieRec a o m = Ok tt (mkMem (modify a (fun _ => n') (root_ m)) b').
Proof.
  revert q. induction o as [o IH] using Node_induction.
  intros q Hwo m a n par n' b' Hnd Hb Hn Hwf. rewrite copy_into_eq, copyTrieRec_eq.
  rewrite (bind_Ok _ _ _ _ _ (load_Ok _ _ _ Hn)).
  pose proof (deref_this _ _ _ Hn) as Ha.
  assert (Hloop : forall i c, children_ o !! i = Some (Some c) ->
     wf_node (Some (this_ o)) c /\ isInAlphabet (key_ c) = true /\
     forall m a n par n' b',
       NoDup (addrs (root_ m)) -> Forall (fun y : addr => y < brk m) (addrs (root_ m)) ->
       deref a (root_ m) = Some n -> wf_node par n ->
       copy_into c n (brk m) = (n', b') ->
       copyTrieRec a c m = Ok tt (mkMem (modify a (fun _ => n') (root_ m)) b')).
  { intros i c Hi. split; [exact (wf_node_child _ _ _ _ Hwo Hi)|].
    split; [exact (isInAlphabet_slot _ _ _ _ Hwo Hi)|].
    exact (IH i c Hi (Some (this_ o)) (wf_node_child _ _ _ _ Hwo Hi)). }
  destruct (negb (hasValue n) && hasValue o)%bool eqn:Ev.
  - apply andb_true_iff in Ev as [_ Hvo]. unfold hasValue in Hvo. unfold value.
    destruct (value_ o) as [w|] eqn:Ew; [|done]. intros E.
    assert (Eu : update a (setValue w) m =
                 Ok tt (mkMem (modify a (setValue w) (root_ m)) (brk m))).
    { unfold update. by rewrite Hn. }
    rewrite (bind_Ok _ _ _ _ _ Eu).
    assert (Hnd1 : NoDup (addrs (modify a (setValue w) (root_ m)))).
    { rewrite (modify_const _ _ n) by done. eapply NoDup_modify; eauto.
      - unfold setValue. rewrite addrs_with_value. eauto using NoDup_deref.
      - intros y. unfold setValue. rewrite addrs_with_value. by left. }
    assert (Hb1 : Forall (fun y : addr => y < brk m) (addrs (modify a (setValue w) (root_ m)))).
    { rewrite (modify_const _ _ n) by done. eapply Forall_bound_modify; eauto.
      unfold setValue. rewrite addrs_with_value. apply Forall_forall. intros y Hy.
      rewrite Forall_forall in Hb. destruct (deref_Some _ _ _ Hn) as [_ Hsub].
      by apply Hb, Hsub. }
    assert (Hn1 : deref a (modify a (setValue w) (root_ m)) = Some (setValue w n)).
    { by apply deref_modify. }
    rewrite (copyTrieRec_in_at (children_ o) (Some (this_ o)) Hloop
               (mkMem (modify a (setValue w) (root_ m)) (brk m)) a (setValue w n) par n' b'
               Hnd1 Hb1 Hn1 (wf_node_with_value _ _ _ Hwf) E).
    cbn [root_ brk]. by rewrite (modify_modify _ _ n).
  - intros E. unfold bind at 1, ret.
    exact (copyTrieRec_in_at (children_ o) (Some (this_ o)) Hloop m a n par n' b'
             Hnd Hb Hn Hwf E).
Qed.

(** ** The copy holds the same mapping *)

(** Which slots the loop fills: the slot of every child of the other node
    receives the copy of that child, every other slot is left alone. *)
Lemma copy_children_slots cs : forall k n b n' b',
  (forall i c, cs !! i = Some (Some c) ->
     slot (key_ c) = k + i /\ k + i < length (children_ n) /\
     forall b0 (q : option addr) x' b1,
       copy_into c (with_key (Node_new b0 q) (key_ c)) (S b0) = (x', b1) ->
       key_ x' = key_ c /\ forall key, lookup x' key = lookup c key) ->
  copy_children cs n b = (n', b') ->
  (forall i c, cs !! i = Some (Some c) ->
     exists x', children_ n' !! (k + i) = Some (Some x') /\ key_ x' = key_ c /\
                forall key, lookup x' key = lookup c key) /\
  (forall j, (forall i c, cs !! i = Some (Some c) -> j <> k + i) ->
     children_ n' !! j = children_ n !! j).
Proof.
  induction cs as [|[c|] cs IH]; intros k n b n' b' Hcs; cbn [copy_children].
  - intros [= <- <-]. split; [by intros i c ?|done].
  - destruct (Hcs 0 c eq_refl) as (Hs & Hlt & Hc). rewrite Nat.add_0_r in Hs, Hlt.
    destruct (copy_into c _ (S b)) as [x' b1] eqn:Ex. intros Hrest.
    destruct (Hc _ _ _ _ Ex) as [Hk Hl]. rewrite Hs in Hrest.
    assert (Hcs' : forall i c', cs !! i = Some (Some c') ->
       slot (key_ c') = S k + i /\
       S k + i < length (children_ (with_children n (<[k := Some x']> (children_ n)))) /\
       forall b0 (q : option addr) x' b1,
         copy_into c' (with_key (Node_new b0 q) (key_ c')) (S b0) = (x', b1) ->
         key_ x' = key_ c' /\ forall key, lookup x' key = lookup c' key).
    { intros i c' Hi. destruct (Hcs (S i) c' Hi) as (H1 & H2 & H3).
      cbn [with_children children_]. rewrite length_insert.
      split; [lia|]. split; [lia|exact H3]. }
    destruct (IH (S k) _ _ _ _ Hcs' Hrest) as [HA HB].
    split.
    + intros [|i] c' Hi.
      * injection Hi as <-. exists x'. rewrite Nat.add_0_r.
        rewrite HB by (intros; lia). cbn [with_children children_].
        split; [by apply list_lookup_insert_eq|done].
      * rewrite Nat.add_succ_r. exact (HA i c' Hi).
    + intros j Hj. rewrite HB.
      * cbn [with_children children_]. apply list_lookup_insert_ne.
        specialize (Hj 0 c eq_refl). lia.
      * intros i c' Hi. specialize (Hj (S i) c' Hi). lia.
  - intros Hrest.
    assert (Hcs' : forall i c', cs !! i = Some (Some c') ->
       slot (key_ c') = S k + i /\ S k + i < length (children_ n) /\
       forall b0 (q : option addr) x' b1,
         copy_into c' (with_key (Node_new b0 q) (key_ c')) (S b0) = (x', b1) ->
         key_ x' = key_ c' /\ forall key, lookup x' key = lookup c' key).
    { intros i c' Hi. destruct (Hcs (S i) c' Hi) as (H1 & H2 & H3).
      split; [lia|]. split; [lia|exact H3]. }
    destruct (IH (S k) _ _ _ _ Hcs' Hrest) as [HA HB].
    split.
    + intros [|i] c' Hi; [done|]. rewrite Nat.add_succ_r. exact (HA i c' Hi).
    + intros j Hj. apply HB. intros i c' Hi. specialize (Hj (S i) c' Hi). lia.
Qed.

(** A copy built into a new node maps every key as the node it copies. *)
Lemma copy_into_lookup `{!AlphabetRange} o q :
  wf_node q o ->
  forall a (par : option addr) (k : ascii) b n' b',
    a < b -> copy_into o (with_key (Node_new a par) k) b = (n', b') ->
    forall key, lookup n' key = lookup o key.
Proof.
  revert q. induction o as [o IH] using Node_induction.
  intros q Hwo a par k b n' b' Hab E.
  set (n := with_key (Node_new a par) k) in *.
  assert (Hwn : wf_node par n) by apply wf_node_new.
  assert (Hndn : NoDup (addrs n)).
  { unfold n. rewrite addrs_Node_new. apply NoDup_singleton. }
  assert (Hbn : Forall (fun y : addr => y < b) (addrs n)).
  { unfold n. rewrite addrs_Node_new. by apply Forall_singleton. }
  destruct (copy_into_ok o q Hwo n b n' b' par Hwn Hndn Hbn E)
    as ((_ & _ & Hw' & _) & _).
  rewrite copy_into_eq in E.
  set (n1 := if (negb (hasValue n) && hasValue o)%bool then with_value n (value_ o) else n) in *.
  assert (Hc1 : children_ n1 = replicate Alphabet_size None).
  { unfold n1. by destruct (negb (hasValue n) && hasValue o)%bool. }
  assert (Hv1 : value_ n1 = value_ o).
  { unfold n1, hasValue. cbn. by destruct (value_ o). }
  assert (Hw1 : wf_node par n1).
  { unfold n1. destruct (negb (hasValue n) && hasValue o)%bool; [|done].
    by apply wf_node_with_value. }
  destruct (copy_children_ok (children_ o) par) with (n := n1) (b := b) (n' := n') (b' := b')
    as (_ & Hv & _); [|assumption| | |exact E|].
  { intros i c Hi. split; [exact (isInAlphabet_slot _ _ _ _ Hwo Hi)|].
    intros n0 b0 n0' b0' par1.
    exact (copy_into_ok c (Some (this_ o)) (wf_node_child _ _ _ _ Hwo Hi) n0 b0 n0' b0' par1). }
  { unfold n1. destruct (negb (hasValue n) && hasValue o)%bool; [|done].
    by rewrite addrs_with_value. }
  { unfold n1. destruct (negb (hasValue n) && hasValue o)%bool; [|done].
    by rewrite addrs_with_value. }
  destruct (copy_children_slots (children_ o) 0 n1 b n' b') as [HA HB]; [|exact E|].
  { intros i c Hi. cbn [Nat.add].
    pose proof (wf_node_slot _ _ _ _ Hwo Hi) as Hs.
    split; [unfold slot; rewrite Hs; apply Nat2Z.id|].
    split.
    { rewrite Hc1, length_replicate, <- (wf_node_length _ _ Hwo).
      by apply lookup_lt_is_Some_1; eexists. }
    intros b0 q0 x' b1 Ex.
    split; [|exact (IH i c Hi (Some (this_ o)) (wf_node_child _ _ _ _ Hwo Hi)
                      b0 q0 (key_ c) (S b0) x' b1 (Nat.lt_succ_diag_r b0) Ex)].
    destruct (copy_into_ok c (Some (this_ o)) (wf_node_child _ _ _ _ Hwo Hi)
                (with_key (Node_new b0 q0) (key_ c)) (S b0) x' b1 q0 (wf_node_new _ _ _))
      as ((_ & Hk & _) & _); [| |exact Ex|exact Hk].
    - rewrite addrs_Node_new. apply NoDup_singleton.
    - rewrite addrs_Node_new. apply Forall_singleton. lia. }
  intros [|c key].
  - unfold lookup. cbn [descend]. by rewrite Hv, Hv1.
  - rewrite !lookup_String.
    destruct (scan_key c (children_ o)) as [x|] eqn:Eo.
    + apply scan_key_Some in Eo as (i & Hi & Hkx).
      destruct (HA i x Hi) as (x' & Hi' & Hkx' & Hl). cbn [Nat.add] in Hi'.
      pose proof (scan_key_at _ _ _ _ Hw' Hi') as Es. rewrite Hkx', Hkx in Es.
      by rewrite Es.
    + destruct (scan_key c (children_ n')) as [x'|] eqn:En; [|done]. exfalso.
      apply scan_key_Some in En as (i & Hi' & Hkx').
      destruct (children_ o !! i) as [[x|]|] eqn:Hi.
      * destruct (HA i x Hi) as (x2 & Hi2 & Hkx2 & _). cbn [Nat.add] in Hi2.
        rewrite Hi' in Hi2. injection Hi2 as <-.
        apply (scan_key_None _ _ _ _ Eo Hi). by rewrite <- Hkx2.
      * rewrite HB in Hi'.
        -- rewrite Hc1 in Hi'. by apply lookup_replicate_None in Hi'.
        -- intros i0 c0 Hi0 ->. cbn [Nat.add] in Hi. by rewrite Hi0 in Hi.
      * rewrite HB in Hi'.
        -- rewrite Hc1 in Hi'. by apply lookup_replicate_None in Hi'.
        -- intros i0 c0 Hi0 ->. cbn [Nat.add] in Hi. by rewrite Hi0 in Hi.
Qed.

(** ** The copy constructor and the assignment *)

Lemma Trie_copy_Ok `{!AlphabetRange} other q a from :
  wf_node q other -> a <> this_ other -> a < from ->
  exists n' b',
    Trie_copy a from other = Ok tt (mkMem n' b') /\
    copy_ok None (Node_new a None) from n' b' /\
    (pruned other -> pruned n') /\
    forall key, lookup n' key = lookup other key.
Proof.
  intros Hwo Hne Hlt. unfold Trie_copy, copyTrie, root_addr, bind at 1. cbn [root_].
  change (this_ (Node_new (Value:=Value) a None)) with a.
  destruct (Nat.eqb_spec a (this_ other)) as [|_]; [done|].
  set (n := with_key (Node_new (Value:=Value) a None) zero).
  change (Node_new (Value:=Value) a None) with n.
  destruct (copy_into other n from) as [n' b'] eqn:E. exists n', b'.
  assert (Hwn : wf_node None n) by apply wf_node_new.
  assert (Hndn : NoDup (addrs n)).
  { unfold n. rewrite addrs_Node_new. apply NoDup_singleton. }
  assert (Hbn : Forall (fun y : addr => y < from) (addrs n)).
  { unfold n. rewrite addrs_Node_new. by apply Forall_singleton. }
  split.
  - rewrite (copyTrieRec_at other q Hwo (mkMem n from) a n None n' b' Hndn Hbn
               (deref_self n) Hwn E).
    cbn [root_]. by rewrite (modify_self _ n : modify a _ n = _).
  - destruct (copy_into_ok other q Hwo n from n' b' None Hwn Hndn Hbn E)
      as (Hok & _ & _ & Hpr).
    split; [exact Hok|]. split; [intros Hpo; apply Hpr; [done|apply pruned_new]|].
    exact (copy_into_lookup other q Hwo a None zero from n' b' Hlt E).
Qed.

(** X13.  The copy constructor makes a deep copy.  For a trie [mo] that
    satisfies the invariants and a new object at an address [a] outside of it, with
    the allocator at [from] beyond both: the constructor returns, the new
    trie satisfies the invariants, its root is the object at [a], every
    valid key is found with the value it has in [mo], and no node of the
    new trie is a node of [mo]. *)
Theorem copy_constructor_deep_copy `{!AlphabetRange} mo a from :
  wf mo -> a ∉ addrs (root_ mo) -> a < from -> brk mo <= from ->
  exists m',
    Trie_copy a from (root_ mo) = Ok tt m' /\
    wf m' /\ this_ (root_ m') = a /\ from <= brk m' /\
    (forall key w, isKeyCorrect key = true ->
       search key mo = Ok w mo -> search key m' = Ok w m') /\
    (forall y : addr, y ∈ addrs (root_ m') -> y ∉ addrs (root_ mo)).
Proof.
  intros [Hwo Hndo Hbo Hpo] Ha Hlt Hle.
  assert (Hne : a <> this_ (root_ mo)).
  { intros ->. apply Ha, this_in_addrs. }
  destruct (Trie_copy_Ok (root_ mo) None a from Hwo Hne Hlt)
    as (n' & b' & E & (Ht & _ & Hw & Hfb & Hnd & Hin) & Hpr & Hl).
  change (addrs (Node_new (Value:=Value) a None))
    with (addrs (with_key (Node_new (Value:=Value) a None) zero)) in Hin.
  rewrite addrs_Node_new in Hin.
  exists (mkMem n' b'). split; [exact E|]. cbn [root_ brk]. split.
  { constructor; cbn [root_ brk].
    - exact Hw.
    - exact Hnd.
    - apply Forall_forall. intros y [->%list_elem_of_singleton | Hy]%Hin; lia.
    - exact (Hpr Hpo). }
  split; [exact Ht|]. split; [exact Hfb|]. split.
  - intros key w Hkey. rewrite (search_lookup mo key Hndo Hkey).
    intros [= <-]. rewrite (search_lookup (mkMem n' b') key Hnd Hkey). cbn [root_].
    by rewrite Hl.
  - intros y [->%list_elem_of_singleton | Hy]%Hin; [done|].
    intros Hy'. rewrite Forall_forall in Hbo. specialize (Hbo _ Hy'). lia.
Qed.

Lemma lookup_members n n2 key :
  children_ n2 = children_ n -> value_ n2 = value_ n -> lookup n2 key = lookup n key.
Proof.
  intros Hc Hv. destruct key as [|c key].
  - unfold lookup. cbn [descend]. exact Hv.
  - by rewrite !lookup_String, Hc.
Qed.

(** X14.  The assignment [*this = arg], with the by-value parameter at [param].
    For tries that satisfy the invariants and a parameter object that is
    neither [*this] nor a node of the argument: the call returns, [*this]
    stays the object it was, and every valid key is found with the value it
    has in the argument.  But the nodes directly below the root were built
    below the parameter and keep it as their parent: each parent pointer
    there names an object that is not a node of the trie any more, and as
    soon as there is such a node the invariants are lost. *)
Theorem assign_copies_mapping_keeps_parent `{!AlphabetRange} m ma param :
  wf m -> wf ma -> param ∉ addrs (root_ ma) -> param < brk m ->
  param <> this_ (root_ m) ->
  exists m',
    assign param (root_ ma) m = Ok tt m' /\
    this_ (root_ m') = this_ (root_ m) /\
    (forall key w, isKeyCorrect key = true ->
       search key ma = Ok w ma -> search key m' = Ok w m') /\
    deref param (root_ m') = None /\
    (forall i c, children_ (root_ m') !! i = Some (Some c) ->
       parent_ c = Some param /\ ~ wf m').
Proof.
  intros [_ _ Hbm _] [Hwo Hndo _ _] Ha Hlt Hpar.
  assert (Hne : param <> this_ (root_ ma)).
  { intros ->. apply Ha, this_in_addrs. }
  destruct (Trie_copy_Ok (root_ ma) None param (brk m) Hwo Hne Hlt)
    as (n' & b' & E & (Ht & _ & Hw & Hfb & Hnd & Hin) & _ & Hl).
  change (addrs (Node_new (Value:=Value) param None))
    with (addrs (with_key (Node_new (Value:=Value) param None) zero)) in Hin.
  rewrite addrs_Node_new in Hin.
  change (this_ (Node_new (Value:=Value) param None)) with param in Ht.
  unfold assign. rewrite E. cbn [root_ brk swap fst].
  set (r' := mkNode (this_ (root_ m)) (children_ n') (parent_ n') (value_ n') (key_ n')).
  exists (mkMem r' b'). split; [reflexivity|]. cbn [root_ brk].
  split; [reflexivity|].
  assert (Hthis : this_ (root_ m) < brk m).
  { rewrite Forall_forall in Hbm. apply Hbm, this_in_addrs. }
  assert (Hc : forall y : addr, y ∈ caddrs (children_ n') -> brk m <= y < b').
  { intros y Hy. rewrite addrs_eq in Hnd, Hin. apply NoDup_cons in Hnd as [Hn0 _].
    destruct (Hin y) as [->%list_elem_of_singleton | ?]; [by apply elem_of_cons; right| |done].
    by rewrite Ht in Hn0. }
  assert (Hnd' : NoDup (addrs r')).
  { rewrite addrs_eq. cbn [this_ children_ r']. apply NoDup_cons. split.
    - intros Hy%Hc. lia.
    - rewrite addrs_eq in Hnd. by apply NoDup_cons in Hnd as [_ ?]. }
  split; [|split].
  - intros key w Hkey. rewrite (search_lookup ma key Hndo Hkey).
    intros [= <-]. rewrite (search_lookup (mkMem r' b') key Hnd' Hkey). cbn [root_].
    by rewrite (lookup_members n' r'), Hl.
  - apply deref_None. rewrite addrs_eq. cbn [this_ children_ r'].
    intros [? | Hy%Hc]%elem_of_cons; [done | lia].
  - intros i c Hi. cbn [children_ r'] in Hi.
    pose proof (wf_node_parent _ _ (wf_node_child _ _ _ _ Hw Hi)) as Hp.
    rewrite Ht in Hp. split; [exact Hp|].
    intros [Hroot _ _ _]. cbn [root_] in Hroot.
    pose proof (wf_node_parent _ _ (wf_node_child _ r' i c Hroot Hi)) as Hp'.
    cbn [this_ r'] in Hp'. congruence.
Qed.

End Copying.

Section Enumeration.

Context {Value : Type} `{Alphabet}.

Implicit Types (n x c : Node Value) (cs : list (option (Node Value))).
Implicit Types (m : Mem Value) (key : string) (its : ItemList Value).

Lemma append_nil_r (s : string) : String.append s EmptyString = s.
Proof. induction s as [|a s IH]; [done|]. cbn [String.append]. by rewrite IH. Qed.

Lemma append_snoc (s : string) (a : ascii) (t : string) :
  String.append (String.append s (String a EmptyString)) t = String.append s (String a t).
Proof. induction s as [|a' s IH]; [done|]. cbn [String.append]. by rewrite IH. Qed.

Lemma append_inj_l (s t1 t2 : string) :
  String.append s t1 = String.append s t2 -> t1 = t2.
Proof. induction s as [|a s IH]; [done|]. cbn [String.append]. intros [= E]. by apply IH. Qed.

Lemma entries_eq n key :
  entries n key =
  match value_ n with Some v => [(key, v)] | None => [] end ++ entries_in (children_ n) key.
Proof.
  destruct n as [a cs q w k]. cbn [entries children_ value_]. f_equal.
  induction cs as [|[c|] cs IH]; cbn [entries_in]; [done| |done]. by rewrite IH.
Qed.

Lemma elem_of_entries_in cs key (e : string * Value) :
  e ∈ entries_in cs key <->
  exists i c, cs !! i = Some (Some c) /\
              e ∈ entries c (String.append key (String (key_ c) EmptyString)).
Proof.
  induction cs as [|[c|] cs IH]; cbn [entries_in].
  - split; [by intros ?%elem_of_nil | by intros (i & c & Hi & _)].
  - rewrite elem_of_app, IH. split.
    + intros [He | (i & c' & Hi & He)]; [by exists 0, c | by exists (S i), c'].
    + intros ([|i] & c' & Hi & He); [injection Hi as <-; by left | right; by exists i, c'].
  - rewrite IH. split.
    + intros (i & c' & Hi & He). by exists (S i), c'.
    + intros ([|i] & c' & Hi & He); [done | by exists i, c'].
Qed.

(** The loop of [getItems] over the children, given what each call adds. *)
Lemma getItems_in_entries cs m :
  (forall i c, cs !! i = Some (Some c) ->
     forall its key,
       getItems c (its, key) m =
       Ok (its ++ entries c (String.append key (String (key_ c) EmptyString)), key) m) ->
  forall its key, getItems_in cs (its, key) m = Ok (its ++ entries_in cs key, key) m.
Proof.
  induction cs as [|[c|] cs IH]; intros Hc its key; cbn [getItems_in entries_in].
  - by rewrite (right_id_L [] (++)).
  - rewrite (bind_Ok _ _ _ _ _ (Hc 0 c eq_refl its key)).
    rewrite (IH (fun i => Hc (S i))). by rewrite (assoc_L (++)).
  - apply (IH (fun i => Hc (S i))).
Qed.

Lemma getItems_entries n (par : addr) m :
  wf_node (Some par) n ->
  forall its key,
    getItems n (its, key) m =
    Ok (its ++ entries n (String.append key (String (key_ n) EmptyString)), key) m.
Proof.
  revert par. induction n as [n IH] using Node_induction. intros par Hwf its key.
  rewrite getItems_eq. unfold hasParent. rewrite (wf_node_parent _ _ Hwf). cbn [fst snd].
  rewrite (bind_Ok _ _ _ _ _
    (getItems_in_entries (children_ n) m
       (fun i c Hi => IH i c Hi (this_ n) (wf_node_child _ _ _ _ Hwf Hi)) _ _)).
  cbn [fst snd]. rewrite pop_back_snoc. rewrite entries_eq. unfold value.
  destruct (value_ n); unfold ret; by rewrite <- ?(assoc_L (++)), ?app_nil_l.
Qed.

(** The entries of a subtree are the keys that lead to a value in it. *)
Lemma elem_of_entries n (par : option addr) :
  wf_node par n ->
  forall key k (v : Value),
    (k, v) ∈ entries n key <-> exists s, k = String.append key s /\ lookup n s = Some v.
Proof.
  revert par. induction n as [n IH] using Node_induction. intros par Hwf key k v.
  rewrite entries_eq, elem_of_app, elem_of_entries_in. split.
  - intros [Hown | (i & c & Hi & He)].
    + exists EmptyString. rewrite append_nil_r. unfold lookup. cbn [descend].
      destruct (value_ n) as [w|]; [|by apply elem_of_nil in Hown].
      apply list_elem_of_singleton in Hown. by injection Hown as -> ->.
    + apply (IH i c Hi _ (wf_node_child _ _ _ _ Hwf Hi)) in He as (s & -> & Hl).
      exists (String (key_ c) s). split; [by rewrite append_snoc|].
      by rewrite lookup_String, (scan_key_at _ _ _ _ Hwf Hi).
  - intros ([|a s] & -> & Hl).
    + left. rewrite append_nil_r. unfold lookup in Hl. cbn [descend] in Hl. rewrite Hl.
      by apply list_elem_of_singleton.
    + right. rewrite lookup_String in Hl.
      destruct (scan_key a (children_ n)) as [x|] eqn:Ex; [|done].
      apply scan_key_Some in Ex as (i & Hi & <-). exists i, x. split; [done|].
      apply (IH i x Hi _ (wf_node_child _ _ _ _ Hwf Hi)). exists s.
      by rewrite append_snoc.
Qed.

Lemma NoDup_entries_in cs key :
  (forall i c, cs !! i = Some (Some c) ->
     NoDup (entries c (String.append key (String (key_ c) EmptyString))).*1 /\
     forall k, k ∈ (entries c (String.append key (String (key_ c) EmptyString))).*1 ->
               exists s, k = String.append key (String (key_ c) s)) ->
  (forall i j ci cj, cs !! i = Some (Some ci) -> cs !! j = Some (Some cj) ->
     key_ ci = key_ cj -> i = j) ->
  NoDup (entries_in cs key).*1.
Proof.
  induction cs as [|[c|] cs IH]; intros Hc Hinj; cbn [entries_in].
  - apply NoDup_nil_2.
  - rewrite fmap_app. apply NoDup_app. destruct (Hc 0 c eq_refl) as [Hnd Hform].
    split; [exact Hnd|]. split.
    + intros k (s & ->)%Hform (e & Hk & (j & cj & Hj & He)%elem_of_entries_in)%list_elem_of_fmap.
      destruct (Hc (S j) cj Hj) as [_ Hformj].
      destruct (Hformj e.1) as (s' & Es'); [by apply list_elem_of_fmap_2|].
      rewrite Es' in Hk. apply append_inj_l in Hk. injection Hk as Hk _.
      by specialize (Hinj 0 (S j) c cj eq_refl Hj Hk).
    + apply IH; [intros i; apply (Hc (S i))|].
      intros i j ci cj Hi Hj Hk. by injection (Hinj (S i) (S j) ci cj Hi Hj Hk).
  - apply IH; [intros i; apply (Hc (S i))|].
    intros i j ci cj Hi Hj Hk. by injection (Hinj (S i) (S j) ci cj Hi Hj Hk).
Qed.

Lemma NoDup_entries n (par : option addr) :
  wf_node par n -> forall key, NoDup (entries n key).*1.
Proof.
  revert par. induction n as [n IH] using Node_induction. intros par Hwf key.
  rewrite entries_eq, fmap_app. apply NoDup_app.
  split; [destruct (value_ n); [apply NoDup_singleton | apply NoDup_nil_2]|]. split.
  - intros k Hk (e & -> & (i & c & Hi & He)%elem_of_entries_in)%list_elem_of_fmap.
    destruct e as [k' v']. cbn [fst] in Hk.
    apply (elem_of_entries c _ (wf_node_child _ _ _ _ Hwf Hi)) in He as (s & -> & _).
    rewrite append_snoc in Hk.
    assert (Ek : String.append key (String (key_ c) s) = String.append key EmptyString).
    { rewrite append_nil_r. destruct (value_ n); [|by apply elem_of_nil in Hk].
      by apply list_elem_of_singleton in Hk. }
    by apply append_inj_l in Ek.
  - apply NoDup_entries_in.
    + intros i c Hi. split; [exact (IH i c Hi _ (wf_node_child _ _ _ _ Hwf Hi) _)|].
      intros k (e & -> & He)%list_elem_of_fmap. destruct e as [k' v'].
      apply (elem_of_entries c _ (wf_node_child _ _ _ _ Hwf Hi)) in He as (s & -> & _).
      exists s. by rewrite append_snoc.
    + intros i j ci cj Hi Hj Hk.
      pose proof (wf_node_slot _ _ _ _ Hwf Hi) as Ei.
      pose proof (wf_node_slot _ _ _ _ Hwf Hj) as Ej. rewrite Hk in Ei. lia.
Qed.

(** X15.  What [getItems] collects below the root.  Called on a node that has a
    parent, with the key of that parent in the accumulator, [getItems]
    returns with the accumulator as it was and appends to the list one pair
    for every key that leads to a value in the subtree, the letter of the
    node included: no such key is left out, none comes twice, and nothing
    else is added. *)
Theorem getItems_lists_subtree n (par : addr) m its key :
  wf_node (Some par) n ->
  exists new,
    getItems n (its, key) m = Ok (its ++ new, key) m /\
    new = entries n (String.append key (String (key_ n) EmptyString)) /\
    NoDup new.*1 /\
    forall k v, (k, v) ∈ new <->
                exists s, k = String.append key (String (key_ n) s) /\ lookup n s = Some v.
Proof.
  intros Hwf. eexists. split; [exact (getItems_entries n par m Hwf its key)|].
  split; [reflexivity|]. split; [exact (NoDup_entries n _ Hwf _)|].
  intros k v. rewrite (elem_of_entries n _ Hwf). split.
  - intros (s & -> & Hl). exists s. by rewrite append_snoc.
  - intros (s & -> & Hl). exists s. by rewrite append_snoc.
Qed.

End Enumeration.

(** * The further properties on the lowercase alphabet *)

Section MoreExamples.

#[local] Existing Instance Lowercase.
#[local] Existing Instance Lowercase_range.

Lemma Lowercase_injective : AlphabetInjective.
Proof.
  intros c c'. cbn [Alphabet_ord Lowercase]. unfold lowercase_ord.
  destruct (Z.leb_spec 97 (Z.of_N (N_of_ascii c))), (Z.leb_spec (Z.of_N (N_of_ascii c)) 122),
    (Z.leb_spec 97 (Z.of_N (N_of_ascii c'))), (Z.leb_spec (Z.of_N (N_of_ascii c')) 122);
    cbn [andb]; try lia.
  intros _ E. rewrite <- (ascii_N_embedding c), <- (ascii_N_embedding c').
  f_equal. lia.
Qed.

#[local] Existing Instance Lowercase_injective.

(** An empty trie at address 2, with addresses 0 to 3 taken. *)
Lemma trie_2_wf : wf (mkMem (Node_new (Value:=nat) 2 None) 4).
Proof.
  destruct (wf_Trie_new (Value:=nat) 2) as [Hroot Hnd Hb Hp].
  split; cbn [root_ brk] in *; [exact Hroot | exact Hnd | | exact Hp].
  eapply Forall_impl; [exact Hb|]. intros y Hy. simpl in Hy. lia.
Qed.

Lemma insert_updates_mapping_witness :
  wf trie_a /\ isKeyCorrect "ab" = true /\
  exists installed m',
    insert "ab" 7 trie_a = Ok installed m' /\
    forall key' w, isKeyCorrect key' = true -> search key' trie_a = Ok w trie_a ->
      search key' m' =
      Ok (if String.eqb key' "ab" then Some (default 7 w) else w) m'.
Proof.
  split; [apply trie_a_wf|]. split; [reflexivity|].
  apply (insert_updates_mapping trie_a "ab" 7); [apply trie_a_wf | reflexivity].
Defined.

Lemma remove_updates_mapping_witness :
  wf trie_a /\ isKeyCorrect "a" = true /\
  exists m',
    remove "a" trie_a = Ok tt m' /\
    forall key' w, isKeyCorrect key' = true -> search key' trie_a = Ok w trie_a ->
      search key' m' = Ok (if String.eqb key' "a" then None else w) m'.
Proof.
  split; [apply trie_a_wf|]. split; [reflexivity|].
  apply (remove_updates_mapping trie_a "a"); [apply trie_a_wf | reflexivity].
Defined.

Lemma remove_idempotent_witness :
  wf trie_a /\ isKeyCorrect "a" = true /\
  exists m', remove "a" trie_a = Ok tt m' /\ remove "a" m' = Ok tt m'.
Proof.
  split; [apply trie_a_wf|]. split; [reflexivity|].
  apply (remove_idempotent trie_a "a"); [apply trie_a_wf | reflexivity].
Defined.

Lemma insert_then_remove_restores_witness :
  wf trie_a /\ isKeyCorrect "ab" = true /\ search "ab" trie_a = Ok None trie_a /\
  exists m1,
    insert "ab" 7 trie_a = Ok true m1 /\
    remove "ab" m1 = Ok tt (mkMem (root_ trie_a) (brk m1)).
Proof.
  split; [apply trie_a_wf|]. split; [reflexivity|]. split; [reflexivity|].
  apply (insert_then_remove_restores trie_a "ab" 7);
    [apply trie_a_wf | reflexivity | reflexivity].
Defined.

Lemma mutators_keep_invariants_witness :
  wf trie_a /\ isKeyCorrect "ab" = true /\
  (exists installed m1, insert "ab" 7 trie_a = Ok installed m1 /\ wf m1) /\
  (exists m2, remove "ab" trie_a = Ok tt m2 /\ wf m2) /\
  (exists w m3, subscript (H0:=0) "ab" trie_a = Ok w m3 /\ wf m3) /\
  (exists m4, clear trie_a = Ok tt m4 /\ wf m4).
Proof.
  split; [apply trie_a_wf|]. split; [reflexivity|].
  apply (mutators_keep_invariants (DefaultConstructible0:=0) trie_a "ab" 7);
    [apply trie_a_wf | reflexivity].
Defined.

Lemma clear_empties_witness :
  wf trie_a /\
  exists m',
    clear trie_a = Ok tt m' /\
    empty m' = Ok true m' /\
    (forall key, isKeyCorrect key = true -> search key m' = Ok None m') /\
    this_ (root_ m') = this_ (root_ trie_a) /\ brk m' = brk trie_a.
Proof.
  split; [apply trie_a_wf|]. apply (clear_empties trie_a), trie_a_wf.
Defined.

Lemma empty_iff_no_key_witness :
  wf trie_a /\
  exists e, empty trie_a = Ok e trie_a /\
    (e = true <-> forall key, isKeyCorrect key = true -> search key trie_a = Ok None trie_a).
Proof.
  split; [apply trie_a_wf|]. apply (empty_iff_no_key trie_a), trie_a_wf.
Defined.

Lemma insert_allocates_missing_nodes_witness :
  wf trie_a /\ isKeyCorrect "abc" = true /\
  exists installed m',
    insert "abc" 7 trie_a = Ok installed m' /\
    brk m' = brk trie_a + (String.length "abc" - matched (root_ trie_a) "abc") /\
    (is_Some (descend (root_ trie_a) "abc") -> brk m' = brk trie_a).
Proof.
  split; [apply trie_a_wf|]. split; [reflexivity|].
  apply (insert_allocates_missing_nodes trie_a "abc" 7); [apply trie_a_wf | reflexivity].
Defined.

Lemma child_reads_slot_witness :
  deref 0 (root_ trie_a) = Some (root_ trie_a) /\ wf_node None (root_ trie_a) /\
  child 0 "a" trie_a =
  if isInAlphabet "a" then
    Ok (match children_ (root_ trie_a) !! slot "a" with
        | Some (Some x) => Some (this_ x)
        | _ => None
        end) trie_a
  else Throw (out_of_range "Letter is not member of alphabet") trie_a.
Proof.
  split; [reflexivity|]. split; [apply (wf_root _ trie_a_wf)|].
  apply (child_reads_slot trie_a 0 (root_ trie_a) None "a");
    [reflexivity | apply (wf_root _ trie_a_wf)].
Defined.


Lemma insert_keeps_nodes_witness :
  wf trie_a /\ isKeyCorrect "ab" = true /\
  exists installed m',
    insert "ab" 7 trie_a = Ok installed m' /\
    forall y : addr,
      y ∈ addrs (root_ m') <-> y ∈ addrs (root_ trie_a) \/ brk trie_a <= y < brk m'.
Proof.
  split; [apply trie_a_wf|]. split; [reflexivity|].
  apply (insert_keeps_nodes trie_a "ab" 7); [apply trie_a_wf | reflexivity].
Defined.

Lemma remove_leaves_no_dead_branch_witness :
  wf trie_a /\ isKeyCorrect "a" = true /\
  exists m',
    remove "a" trie_a = Ok tt m' /\ brk m' = brk trie_a /\
    (forall y : addr, y ∈ addrs (root_ m') -> y ∈ addrs (root_ trie_a)) /\
    forall key' x, key' <> EmptyString -> descend (root_ m') key' = Some x ->
      exists s w, search (String.append key' s) m' = Ok (Some w) m'.
Proof.
  split; [apply trie_a_wf|]. split; [reflexivity|].
  apply (remove_leaves_no_dead_branch trie_a "a"); [apply trie_a_wf | reflexivity].
Defined.

Lemma copy_constructor_deep_copy_witness :
  wf trie_a /\ (3 ∉ addrs (root_ trie_a)) /\ 3 < 4 /\ brk trie_a <= 4 /\
  exists m',
    Trie_copy 3 4 (root_ trie_a) = Ok tt m' /\
    wf m' /\ this_ (root_ m') = 3 /\ 4 <= brk m' /\
    (forall key w, isKeyCorrect key = true ->
       search key trie_a = Ok w trie_a -> search key m' = Ok w m') /\
    (forall y : addr, y ∈ addrs (root_ m') -> y ∉ addrs (root_ trie_a)).
Proof.
  assert (Hout : 3 ∉ addrs (root_ trie_a)).
  { apply (bool_decide_unpack _). vm_compute. exact I. }
  assert (Hbrk : brk trie_a <= 4) by (simpl; lia).
  split; [apply trie_a_wf|]. split; [exact Hout|]. split; [lia|]. split; [exact Hbrk|].
  apply (copy_constructor_deep_copy trie_a 3 4); [apply trie_a_wf | exact Hout | lia | exact Hbrk].
Defined.

Lemma assign_copies_mapping_keeps_parent_witness :
  wf (mkMem (Node_new (Value:=nat) 2 None) 4) /\ wf trie_a /\
  (3 ∉ addrs (root_ trie_a)) /\ 3 < 4 /\ 3 <> 2 /\
  exists m',
    assign 3 (root_ trie_a) (mkMem (Node_new 2 None) 4) = Ok tt m' /\
    this_ (root_ m') = 2 /\
    (forall key w, isKeyCorrect key = true ->
       search key trie_a = Ok w trie_a -> search key m' = Ok w m') /\
    deref 3 (root_ m') = None /\
    (forall i c, children_ (root_ m') !! i = Some (Some c) ->
       parent_ c = Some 3 /\ ~ wf m').
Proof.
  assert (Hout : 3 ∉ addrs (root_ trie_a)).
  { apply (bool_decide_unpack _). vm_compute. exact I. }
  split; [apply trie_2_wf|]. split; [apply trie_a_wf|]. split; [exact Hout|].
  split; [lia|]. split; [lia|].
  apply (assign_copies_mapping_keeps_parent (mkMem (Node_new 2 None) 4) trie_a 3);
    [apply trie_2_wf | apply trie_a_wf | exact Hout | simpl; lia | simpl; lia].
Defined.

Lemma getItems_lists_subtree_witness :
  exists c,
    children_ (root_ trie_a) !! 0 = Some (Some c) /\ wf_node (Some 0) c /\
    exists new,
      getItems c ([], "b"%string) trie_a = Ok ([] ++ new, "b"%string) trie_a /\
      new = entries c (String.append "b" (String (key_ c) EmptyString)) /\
      NoDup new.*1 /\
      forall k v, (k, v) ∈ new <->
                  exists s, k = String.append "b" (String (key_ c) s) /\ lookup c s = Some v.
Proof.
  eexists. split; [reflexivity|].
  split; [apply (wf_node_child _ _ 0 _ (wf_root _ trie_a_wf) eq_refl)|].
  apply (getItems_lists_subtree _ 0 trie_a [] "b"),
    (wf_node_child _ _ 0 _ (wf_root _ trie_a_wf) eq_refl).
Defined.

End MoreExamples.
